(** * Seed generation, key derivation and Miller-Rabin candidate search

    A shallow embedding of the secure-seed generator
    ([z_seed_generator.h]) and of the derivation, witness, primality and
    search routines of [z5d_key_gen.c], with the properties the
    specification states about them.

    Conventions.
    - GMP integers ([mpz_t]) are [Z]; [unsigned long] and [size_t] values are
      [Z] in [0, 2^64) with the wrap-around written out where the C code can
      overflow (LP64).
    - Byte buffers are [list byte]; a pointer that may be [NULL] is an
      [option].
    - [SHA256] is the FIPS 180-4 function that OpenSSL provides; it is
      defined here so that every model can be evaluated, and checked against
      the published test vectors.
    - The search routines are modelled as built without OpenMP (the
      sequential path of [search_prime_candidates]).
    - A [double] is a binary64 number ([PrimFloat.float]).  The
      floating-point estimates of [z5d_key_gen.c], computed with MPFR, are
      functions given from outside, of the [double] and the integer they
      are computed from. *)

From Stdlib Require Import ZArith List Lia Bool Strings.Byte Znumtheory.
From Stdlib Require Import Zcong.
From Stdlib Require Import Sorting.Permutation.
From Stdlib Require Floats.PrimFloat.
Import ListNotations.
Local Open Scope Z_scope.

(* ================================================================== *)
(** * Bytes and integers *)

Module Bytes.

Definition byte_to_Z (b : byte) : Z := Z.of_N (Byte.to_N b).

Definition byte_of_Z (z : Z) : byte :=
  match Byte.of_N (Z.to_N (z mod 256)) with
  | Some b => b
  | None => x00
  end.

(** [c ^ d] on [unsigned char]. *)
Definition byte_xor (a b : byte) : byte :=
  byte_of_Z (Z.lxor (byte_to_Z a) (byte_to_Z b)).

(** Big-endian value of a byte string (what [mpz_import] with order 1 and
    size 1 computes). *)
Definition be_combine (l : list byte) : Z :=
  fold_left (fun acc b => acc * 256 + byte_to_Z b) l 0.

(** The [n] low-order bytes of [z], most significant first. *)
Fixpoint be_split (n : nat) (z : Z) : list byte :=
  match n with
  | O => []
  | S n' => be_split n' (Z.shiftr z 8) ++ [byte_of_Z z]
  end.

(** The [n] low-order bytes of [z], least significant first: the object
    representation of an [unsigned long] or [size_t] on a little-endian
    LP64 machine when [n = 8]. *)
Fixpoint le_split (n : nat) (z : Z) : list byte :=
  match n with
  | O => []
  | S n' => byte_of_Z z :: le_split n' (Z.shiftr z 8)
  end.

Definition zeros (n : nat) : list byte := repeat x00 n.

(** [memcpy (dst + off, src, length src)] on a buffer. *)
Definition memcpy (dst : list byte) (off : nat) (src : list byte) : list byte :=
  firstn off dst ++ src ++ skipn (off + length src) dst.

(** [memset (dst, c, n)]. *)
Definition memset (dst : list byte) (c : byte) (n : nat) : list byte :=
  repeat c n ++ skipn n dst.

(** A [char *] argument is given by the bytes found at its address; a NUL
    byte, or the end of the list, terminates the string.  [c_string] is the
    string itself and [strlen] its length. *)
Fixpoint c_string (buf : list byte) : list byte :=
  match buf with
  | [] => []
  | b :: t => if Byte.eqb b x00 then [] else b :: c_string t
  end.

Fixpoint strlen (s : list byte) : nat :=
  match s with
  | [] => O
  | b :: t => if Byte.eqb b x00 then O else S (strlen t)
  end.

End Bytes.
Import Bytes.

(* ================================================================== *)
(** * Auxiliary arithmetic *)

Module Arith.

(** Product of a list of integers. *)
Definition Zprod (l : list Z) : Z := fold_right Z.mul 1 l.

(** [k, k+1, ..., k+len-1]. *)
Fixpoint Zrange (k : Z) (len : nat) : list Z :=
  match len with
  | O => []
  | S len' => k :: Zrange (k + 1) len'
  end.

(** Trial division: no [k] with [2 <= k] and [k * k <= p] divides [p]. *)
Definition trial_division (p : Z) : bool :=
  (2 <=? p)
  && forallb (fun k => negb (p mod k =? 0))
             (Zrange 2 (Z.to_nat (Z.sqrt p - 1))).

(** Integer cube root of [n < 2^(3 bits)], by bisection on the bits. *)
Fixpoint icbrt_bits (bits : nat) (n acc : Z) : Z :=
  match bits with
  | O => acc
  | S bits' =>
      let c := acc + 2 ^ Z.of_nat bits' in
      if c * c * c <=? n then icbrt_bits bits' n c else icbrt_bits bits' n acc
  end.

Definition icbrt (n : Z) : Z := icbrt_bits 40 n 0.

(** The primes up to [bound], in order. *)
Definition primes_upto (bound : Z) : list Z :=
  filter trial_division (Zrange 2 (Z.to_nat (bound - 1))).

End Arith.
Import Arith.

(* ================================================================== *)
(** * SHA-256 (FIPS 180-4) *)

Module Sha256.

Definition w32 (x : Z) : Z := x mod 2 ^ 32.

Definition rotr (n x : Z) : Z :=
  Z.lor (Z.shiftr x n) (w32 (Z.shiftl x (32 - n))).

Definition Ch (x y z : Z) : Z :=
  Z.lxor (Z.land x y) (Z.land (Z.lxor x 4294967295) z).

Definition Maj (x y z : Z) : Z :=
  Z.lxor (Z.lxor (Z.land x y) (Z.land x z)) (Z.land y z).

Definition bsig0 (x : Z) : Z := Z.lxor (Z.lxor (rotr 2 x) (rotr 13 x)) (rotr 22 x).
Definition bsig1 (x : Z) : Z := Z.lxor (Z.lxor (rotr 6 x) (rotr 11 x)) (rotr 25 x).
Definition ssig0 (x : Z) : Z := Z.lxor (Z.lxor (rotr 7 x) (rotr 18 x)) (Z.shiftr x 3).
Definition ssig1 (x : Z) : Z := Z.lxor (Z.lxor (rotr 17 x) (rotr 19 x)) (Z.shiftr x 10).

(** The round constants: the first 32 bits of the fractional parts of the
    cube roots of the first 64 primes. *)
Definition K256 : list Z :=
  Eval vm_compute in
    map (fun p => icbrt (p * 2 ^ 96) mod 2 ^ 32) (primes_upto 311).

(** The eight working variables / chaining values. *)
Record state := mkState {
  sa : Z; sb : Z; sc : Z; sd : Z; se : Z; sf : Z; sg : Z; sh : Z
}.

(** The initial hash value: the first 32 bits of the fractional parts of
    the square roots of the first 8 primes. *)
Definition H0 : state :=
  Eval vm_compute in
    let h := map (fun p => Z.sqrt (p * 2 ^ 64) mod 2 ^ 32) (primes_upto 19) in
    mkState (nth 0 h 0) (nth 1 h 0) (nth 2 h 0) (nth 3 h 0)
            (nth 4 h 0) (nth 5 h 0) (nth 6 h 0) (nth 7 h 0).

(** Message schedule: [win] holds [W(t) .. W(t+15)]; each step emits [W(t)]
    and appends [W(t+16)]. *)
Fixpoint schedule (steps : nat) (win : list Z) : list Z :=
  match steps with
  | O => []
  | S k =>
      match win with
      | [] => []
      | w0 :: rest =>
          let w16 := w32 (ssig1 (nth 14 win 0) + nth 9 win 0
                          + ssig0 (nth 1 win 0) + w0) in
          w0 :: schedule k (rest ++ [w16])
      end
  end.

Definition round (s : state) (kw : Z * Z) : state :=
  let (k, w) := kw in
  let t1 := w32 (sh s + bsig1 (se s) + Ch (se s) (sf s) (sg s) + k + w) in
  let t2 := w32 (bsig0 (sa s) + Maj (sa s) (sb s) (sc s)) in
  mkState (w32 (t1 + t2)) (sa s) (sb s) (sc s)
          (w32 (sd s + t1)) (se s) (sf s) (sg s).

Fixpoint block_words (n : nat) (bs : list byte) : list Z :=
  match n with
  | O => []
  | S k => be_combine (firstn 4 bs) :: block_words k (skipn 4 bs)
  end.

Definition compress (s : state) (block : list byte) : state :=
  let w := schedule 64 (block_words 16 block) in
  let s' := fold_left round (combine K256 w) s in
  mkState (w32 (sa s + sa s')) (w32 (sb s + sb s')) (w32 (sc s + sc s'))
          (w32 (sd s + sd s')) (w32 (se s + se s')) (w32 (sf s + sf s'))
          (w32 (sg s + sg s')) (w32 (sh s + sh s')).

Definition pad (msg : list byte) : list byte :=
  let len := Z.of_nat (length msg) in
  let k := Z.to_nat ((55 - len) mod 64) in
  msg ++ [x80] ++ zeros k ++ be_split 8 (8 * len).

Fixpoint blocks (n : nat) (s : state) (bs : list byte) : state :=
  match n with
  | O => s
  | S k => blocks k (compress s (firstn 64 bs)) (skipn 64 bs)
  end.

Definition digest_bytes (s : state) : list byte :=
  be_split 4 (sa s) ++ be_split 4 (sb s) ++ be_split 4 (sc s) ++
  be_split 4 (sd s) ++ be_split 4 (se s) ++ be_split 4 (sf s) ++
  be_split 4 (sg s) ++ be_split 4 (sh s).

Definition SHA256 (msg : list byte) : list byte :=
  let p := pad msg in
  digest_bytes (blocks (length p / 64) H0 p).

End Sha256.
Import Sha256.

Arguments SHA256 : simpl never.

Definition SHA256_DIGEST_LENGTH : nat := 32.

Definition SEED_SIZE : nat := 32.

(* ================================================================== *)
(** * Key derivation: [derive_seed] (z5d_key_gen.c) *)

Module Derive.

Definition TAG_PREFIX_MAX : nat := 32.

(** The [while (produced < output_size)] loop.  Every iteration copies at
    least one byte, so [output_size] iterations are always enough; sizes are
    [size_t] values that only grow up to [output_size], hence [nat]. *)
Fixpoint derive_loop (fuel output_size produced : nat)
         (digest output : list byte) : list byte :=
  match fuel with
  | O => output
  | S fuel' =>
      if (produced <? output_size)%nat then
        let chunk := Nat.min SHA256_DIGEST_LENGTH (output_size - produced) in
        let output' := memcpy output produced (firstn chunk digest) in
        let produced' := (produced + chunk)%nat in
        let digest' :=
          if (produced' <? output_size)%nat
          then SHA256 (firstn SHA256_DIGEST_LENGTH digest)
          else digest in
        derive_loop fuel' output_size produced' digest' output'
      else output
  end.

(** [derive_seed (base_seed, tag, output, output_size)].  The result is the
    content of the output buffer when the call returns ([None] when there is
    no buffer). *)
Definition derive_seed (base_seed tag output : option (list byte))
           (output_size : nat) : option (list byte) :=
  match output with
  | None => None
  | Some out =>
      if (output_size =? 0)%nat then Some out
      else
        match base_seed, tag with
        | Some seed, Some t =>
            let context := zeros (SEED_SIZE + TAG_PREFIX_MAX) in
            let tag_len := strlen t in
            let tag_len :=
              if (TAG_PREFIX_MAX <? tag_len)%nat then TAG_PREFIX_MAX else tag_len in
            let context := memcpy context 0 (firstn tag_len t) in
            let context := memcpy context tag_len (firstn SEED_SIZE seed) in
            let digest := SHA256 (firstn (tag_len + SEED_SIZE) context) in
            Some (derive_loop output_size output_size 0 digest out)
        | _, _ => Some (memset out x00 output_size)
        end
  end.

(** The stream of the specification: [digest_0 = Hash (tag_bytes || seed)],
    [digest_(i+1) = Hash (digest_i)], and the first [k] digests in a row. *)
Definition digest_i (seed tag : list byte) (i : nat) : list byte :=
  Nat.iter i SHA256 (SHA256 (firstn (Nat.min (length tag) 32) tag ++ seed)).

Definition digest_stream (seed tag : list byte) (k : nat) : list byte :=
  concat (map (digest_i seed tag) (seq 0 k)).

End Derive.
Import Derive.

(* ================================================================== *)
(** * Witness generation and the Miller-Rabin test (z5d_key_gen.c) *)

Module MillerRabin.

Definition MR_GEODESIC_WITNESSES : nat := 6.
Definition MR_STANDARD_WITNESSES : nat := 8.

Definition MR_STANDARD_BASES : list Z := [2; 3; 5; 7; 11; 13; 17; 19].

(** [config_t]: only the seed is read by the routines modelled here. *)
Record config_t := { seed : list byte }.

Record mr_context_t := {
  n : Z;
  n_minus_1 : Z;
  n_minus_3 : Z;
  d : Z;
  r : Z
}.

(** The loop [while (mpz_even_p (d)) { d >>= 1; r++; }] of
    [mr_context_init], run for at most [fuel] iterations. *)
Fixpoint odd_part_loop (fuel : nat) (d r : Z) : Z * Z :=
  match fuel with
  | O => (d, r)
  | S fuel' =>
      if Z.even d then odd_part_loop fuel' (Z.shiftr d 1) (r + 1) else (d, r)
  end.

(** [mr_context_init].  A positive [n - 1] is halved at most
    [log2 (n - 1)] times, which bounds the loop. *)
Definition mr_context_init (candidate : Z) : mr_context_t :=
  let nm1 := candidate - 1 in
  let nm3 := if 3 <? candidate then candidate - 3 else 0 in
  let dr := odd_part_loop (S (Z.to_nat (Z.log2 nm1))) nm1 0 in
  {| n := candidate; n_minus_1 := nm1; n_minus_3 := nm3;
     d := fst dr; r := snd dr |}.

Definition map_witness_into_range (ctx : mr_context_t) (witness : Z) : Z :=
  if witness <? 2 then 2
  else if n_minus_1 ctx <=? witness then
         if n_minus_3 ctx <=? 1 then 2
         else witness mod n_minus_3 ctx + 2
       else witness.

(** [generate_standard_witnesses]: the first [min count 8] entries of the
    array are overwritten. *)
Definition generate_standard_witnesses (witnesses : list Z) (count : nat)
           (ctx : mr_context_t) : list Z :=
  let limit := if (count <? MR_STANDARD_WITNESSES)%nat
               then count else MR_STANDARD_WITNESSES in
  map (map_witness_into_range ctx) (firstn limit MR_STANDARD_BASES)
      ++ skipn limit witnesses.

(** [mpz_sizeinbase (z, 2)]. *)
Definition mpz_sizeinbase2 (z : Z) : Z :=
  if z =? 0 then 1 else Z.log2 (Z.abs z) + 1.

(** [mpz_export (buf, &exported, 1, 1, 0, 0, z)]: the magnitude of [z],
    most significant byte first, without leading zero bytes (nothing for 0). *)
Definition mpz_export (z : Z) : list byte :=
  if z =? 0 then []
  else be_split (Z.to_nat ((mpz_sizeinbase2 z + 7) / 8)) (Z.abs z).

(** [mpz_import (w, len, 1, 1, 0, 0, digest)]. *)
Definition mpz_import (bs : list byte) : Z := be_combine bs.

(** The digest of round [i]: candidate bytes, seed (when [cfg] is not
    [NULL]), then the object representations of [hint] and [i]. *)
Definition geodesic_digest (candidate_bytes : list byte)
           (cfg : option config_t) (hint : Z) (i : nat) : list byte :=
  SHA256 (candidate_bytes
            ++ match cfg with
               | Some c => firstn SEED_SIZE (seed c)
               | None => []
               end
            ++ le_split 8 hint
            ++ le_split 8 (Z.of_nat i)).

(** [generate_geodesic_witnesses].  [malloc_ok] tells whether the
    allocation of the candidate buffer succeeds. *)
Definition generate_geodesic_witnesses (witnesses : list Z) (count : nat)
           (candidate : Z) (cfg : option config_t) (hint : Z)
           (ctx : mr_context_t) (malloc_ok : bool) : list Z :=
  if (count =? 0)%nat then witnesses
  else if n_minus_3 ctx <=? 1 then repeat 2 count ++ skipn count witnesses
  else if negb malloc_ok then repeat 2 count ++ skipn count witnesses
  else
    let exported := mpz_export candidate in
    let candidate_bytes :=
      if (length exported =? 0)%nat then [x00] else exported in
    map (fun i => map_witness_into_range ctx
                    (mpz_import (geodesic_digest candidate_bytes cfg hint i)))
        (seq 0 count)
      ++ skipn count witnesses.

(** [mpz_powm (x, base, e, m)] for [e >= 0] and [m > 0]: [base ^ e mod m],
    by binary exponentiation so that it can be evaluated. *)
Fixpoint powm_pos (base : Z) (e : positive) (m : Z) : Z :=
  match e with
  | xH => base mod m
  | xO e' => let z := powm_pos base e' m in (z * z) mod m
  | xI e' => let z := powm_pos base e' m in (z * z mod m * base) mod m
  end.

Definition mpz_powm (base e m : Z) : Z :=
  match e with
  | Zpos p => powm_pos base p m
  | _ => 1 mod m
  end.

(** The loop [for (i = 1; i < r; ++i)] of [miller_rabin_round], with
    [iters] iterations left. *)
Fixpoint square_loop (iters : nat) (ctx : mr_context_t) (x : Z) : bool :=
  match iters with
  | O => false
  | S iters' =>
      let x' := mpz_powm x 2 (n ctx) in
      if x' =? n_minus_1 ctx then true else square_loop iters' ctx x'
  end.

Definition miller_rabin_round (ctx : mr_context_t) (witness : Z) : bool :=
  let x := mpz_powm witness (d ctx) (n ctx) in
  if (x =? 1) || (x =? n_minus_1 ctx) then true
  else square_loop (Z.to_nat (r ctx - 1)) ctx x.

(** The two witness arrays as [candidate_is_probable_prime] builds them
    (both are zero-initialised by [mpz_init]). *)
Definition geodesic_witnesses (candidate : Z) (cfg : option config_t)
           (hint : Z) (malloc_ok : bool) : list Z :=
  generate_geodesic_witnesses (repeat 0 MR_GEODESIC_WITNESSES)
    MR_GEODESIC_WITNESSES candidate cfg hint (mr_context_init candidate)
    malloc_ok.

Definition standard_witnesses (candidate : Z) : list Z :=
  generate_standard_witnesses (repeat 0 MR_STANDARD_WITNESSES)
    MR_STANDARD_WITNESSES (mr_context_init candidate).

Definition candidate_is_probable_prime (candidate : Z)
           (cfg : option config_t) (hint : Z) (malloc_ok : bool) : bool :=
  if candidate <? 2 then false
  else if candidate =? 2 then true
  else if Z.even candidate then false
  else
    let ctx := mr_context_init candidate in
    let geodesic := geodesic_witnesses candidate cfg hint malloc_ok in
    let standard := standard_witnesses candidate in
    if negb (forallb (miller_rabin_round ctx) geodesic) then false
    else if negb (forallb (miller_rabin_round ctx) standard) then false
    else true.

(** ** The reference definition of the specification *)

(** A round with witness [a]: [x = a^d mod n] is 1 or [n-1], or one of
    the [r-1] further squarings gives [n-1]. *)
Definition round_passes (n d r a : Z) : Prop :=
  let x := a ^ d mod n in
  x = 1 \/ x = n - 1 \/
  exists j, 1 <= j <= r - 1 /\ x ^ (2 ^ j) mod n = n - 1.

(** [n - 1 = d * 2^r] with [d] odd. *)
Definition odd_decomposition (n d r : Z) : Prop :=
  Z.odd d = true /\ 0 <= r /\ n - 1 = d * 2 ^ r.

Definition reference_probable_prime (n : Z) (witnesses : list Z) : Prop :=
  2 <= n /\
  (n = 2 \/
   (Z.even n = false /\
    exists d r, odd_decomposition n d r /\
                Forall (round_passes n d r) witnesses)).

End MillerRabin.
Import MillerRabin.

(* ================================================================== *)
(** * Candidate search (z5d_key_gen.c, sequential build) *)

Module CandidateSearch.

Definition ULONG_MAX : Z := 2 ^ 64 - 1.

(** Reduction of an [unsigned long] result. *)
Definition ulong (z : Z) : Z := z mod 2 ^ 64.

Definition x931_too_close_2048 (a b : Z) : bool :=
  Z.shiftr a (2048 - 100) =? Z.shiftr b (2048 - 100).

(** What a search hands back: the return value 1 with [result_out] and
    [*attempts_used], or the return value 0 with [*attempts_used]
    ([result_out] is left alone).  [*used_parallel] is always 0 in the
    sequential build. *)
Inductive search_result :=
| Found (result_out : Z) (attempts_used : Z)
| NotFound (attempts_used : Z).

Section SearchPrimeCandidates.

Variable start : Z.
Variable max_attempts : Z.
Variable cfg : option config_t.
Variable hint_seed : Z.
Variable limit_bit : Z.
Variable clamp_on_limit : bool.
Variable too_close_ref : option Z.
Variable enforce_not_too_close : bool.
(** [malloc_ok a]: whether the allocation made while testing attempt [a]
    succeeds. *)
Variable malloc_ok : Z -> bool.

(** The acceptance test of a probable prime: no enforcement, no
    reference, or the reference is not too close. *)
Definition not_too_close (candidate : Z) : bool :=
  negb enforce_not_too_close ||
  match too_close_ref with
  | None => true
  | Some ref => negb (x931_too_close_2048 ref candidate)
  end.

(** The [for (attempt = 0; attempt < max_attempts; ++attempt)] loop with
    [iters] iterations left. *)
Fixpoint search_loop (iters : nat) (attempt candidate : Z) : search_result :=
  match iters with
  | O => NotFound max_attempts
  | S iters' =>
      let hint_value := Z.lxor hint_seed attempt in
      if candidate_is_probable_prime candidate cfg hint_value
           (malloc_ok attempt) && not_too_close candidate
      then Found candidate attempt
      else
        let candidate := candidate + 2 in
        if (0 <? limit_bit) && Z.testbit candidate limit_bit then
          if clamp_on_limit then
            search_loop iters' (attempt + 1)
              (Z.setbit (Z.clearbit candidate limit_bit) (limit_bit - 1))
          else NotFound max_attempts
        else search_loop iters' (attempt + 1) candidate
  end.

(** [search_prime_candidates] as it is compiled without [_OPENMP]: the
    test of [max_attempts] and the sequential loop.  The block under
    [#ifdef _OPENMP], which runs first when more than one thread is
    available and [max_attempts > 1], is not modelled. *)
Definition search_prime_candidates : search_result :=
  if max_attempts =? 0 then NotFound max_attempts
  else search_loop (Z.to_nat max_attempts) 0 start.

End SearchPrimeCandidates.

Definition modulus_2048 : Z := Z.shiftl 1 2048.

(** One call of [search_prime_candidates] made by the guided search: the
    origin it starts from and the cumulative offset at that moment. *)
Record segment_call := { origin : Z; offset_at_call : Z }.

Section GuidedPrimeSearch.

Variable estimated_start : Z.
Variable max_attempts : Z.
Variable cfg : option config_t.
Variable hint_seed : Z.
Variable too_close_ref : option Z.
Variable enforce_not_too_close : bool.
Variable malloc_ok : Z -> bool.

Definition base_start : Z :=
  let b := estimated_start mod modulus_2048 in
  let b := Z.setbit b 2047 in
  if negb (Z.testbit b 0) then Z.setbit b 0 else b.

(** The segment length chosen at the top of the loop body. *)
Definition segment_for (current_start remaining : Z) : Z :=
  let segment := remaining in
  let distance := modulus_2048 - current_start in
  let twice_seg :=
    if ULONG_MAX / 2 <? segment then ULONG_MAX else ulong (segment * 2) in
  if distance <=? twice_seg then
    let safe_steps := ulong distance / 2 in
    let safe_steps := if safe_steps =? 0 then 1 else safe_steps in
    if safe_steps <? segment then safe_steps else segment
  else segment.

(** The [while (remaining > 0)] loop.  Besides the result it records the
    calls of [search_prime_candidates] it makes, in order.  [None] only
    when the iteration bound [fuel] is exhausted. *)
Fixpoint guided_loop (fuel : nat) (current_start remaining offset : Z)
         (calls : list segment_call)
  : option (search_result * list segment_call) :=
  match fuel with
  | O => None
  | S fuel' =>
      if 0 <? remaining then
        if modulus_2048 - current_start <=? 0
        then Some (NotFound max_attempts, calls)
        else
          let segment := segment_for current_start remaining in
          let calls :=
            calls ++ [{| origin := current_start;
                         offset_at_call := offset |}] in
          match search_prime_candidates current_start segment cfg
                  (ulong (hint_seed + offset)) 2048 false
                  too_close_ref enforce_not_too_close
                  (fun a => malloc_ok (offset + a)) with
          | Found p used => Some (Found p (ulong (offset + used)), calls)
          | NotFound _ =>
              let offset := ulong (offset + segment) in
              let remaining := ulong (remaining - segment) in
              if remaining =? 0 then Some (NotFound max_attempts, calls)
              else
                let current_start := base_start + ulong (2 * offset) in
                if modulus_2048 <=? current_start
                then Some (NotFound max_attempts, calls)
                else guided_loop fuel' current_start remaining offset calls
          end
      else Some (NotFound max_attempts, calls)
  end.

(** Every iteration consumes at least one attempt, so the loop condition
    is evaluated at most [max_attempts + 1] times. *)
Definition guided_run : option (search_result * list segment_call) :=
  guided_loop (S (Z.to_nat max_attempts)) base_start max_attempts 0 [].

Definition guided_prime_search : option search_result :=
  option_map fst guided_run.

Definition guided_calls : list segment_call :=
  match guided_run with
  | Some (_, calls) => calls
  | None => []
  end.

End GuidedPrimeSearch.

(** A call starts from an odd origin in [2^2047, 2^2048) that is the folded
    start plus the [unsigned long] value of twice the offset. *)
Definition call_ok (estimated_start : Z) (c : segment_call) : Prop :=
  2 ^ 2047 <= origin c < 2 ^ 2048
  /\ Z.odd (origin c) = true
  /\ origin c = base_start estimated_start + ulong (2 * offset_at_call c).

(** A returned prime is odd, has bit 2047 set and lies below [2^2048]. *)
Definition result_ok (res : search_result) : Prop :=
  forall p used, res = Found p used ->
                 2 ^ 2047 <= p < 2 ^ 2048 /\ Z.odd p = true.

End CandidateSearch.
Import CandidateSearch.

(* ================================================================== *)
(** * Seed generation (z_seed_generator.h, z_seed_errors.h) *)

Module SeedGen.

Definition ZSEED_OK : Z := 0.
Definition ZSEED_ERR_NULL_POINTER : Z := -1.
Definition ZSEED_ERR_ENTROPY_UNAVAIL : Z := -2.
Definition ZSEED_ERR_READ_FAILURE : Z := -3.
Definition ZSEED_ERR_CRYPTO_FAILURE : Z := -4.

(** What the operating system and OpenSSL answer during one call of
    [z_generate_seed].  The digest functions return 1 for success and 0 for
    failure, hence [bool]. *)
Record os_world := {
  (** value returned by [open ("/dev/urandom", O_RDONLY)] *)
  urandom_fd : Z;
  (** [None]: [read] fails with -1; [Some l]: the device has the bytes [l]
      ready, of which [read] takes at most [SEED_SIZE] *)
  urandom_data : option (list byte);
  (** bytes of [tv], [pid], [clk] and [monotonic_entropy] *)
  mix_input : list byte;
  (** [EVP_MD_CTX_new] returned a context *)
  md_ctx_new : bool;
  digest_init : bool;
  digest_update_seed : bool;
  digest_update_mix : bool;
  digest_final : bool;
  (** the length [EVP_DigestFinal_ex] reports in [digest_len]
      (32 for SHA-256) *)
  digest_len_out : Z
}.

(** [for (i = 0; i < SEED_SIZE; i++) seed[i] ^= digest[i];] *)
Fixpoint xor_into (count : nat) (seed digest : list byte) : list byte :=
  match count, seed, digest with
  | S k, s :: seed', g :: digest' => byte_xor s g :: xor_into k seed' digest'
  | _, _, _ => seed
  end.

(** [z_generate_seed (seed)]: the return code and the content of the seed
    buffer afterwards. *)
Definition z_generate_seed (seed : option (list byte)) (w : os_world)
  : Z * option (list byte) :=
  match seed with
  | None => (ZSEED_ERR_NULL_POINTER, None)
  | Some buf =>
      if urandom_fd w <? 0 then (ZSEED_ERR_ENTROPY_UNAVAIL, Some buf)
      else
        let '(bytes_read, buf) :=
          match urandom_data w with
          | None => (-1, buf)
          | Some l =>
              let got := firstn SEED_SIZE l in
              (Z.of_nat (length got), memcpy buf 0 got)
          end in
        if negb (bytes_read =? Z.of_nat SEED_SIZE)
        then (ZSEED_ERR_READ_FAILURE, Some buf)
        else if negb (md_ctx_new w)
        then (ZSEED_ERR_CRYPTO_FAILURE, Some buf)
        else
          let ok := digest_init w in
          let ok := ok && digest_update_seed w in
          let ok := ok && digest_update_mix w in
          let ok := ok && digest_final w in
          let digest := SHA256 (firstn SEED_SIZE buf ++ mix_input w) in
          let digest_len := if digest_final w then digest_len_out w else 0 in
          if negb ok || (digest_len <? Z.of_nat SEED_SIZE)
          then (ZSEED_ERR_CRYPTO_FAILURE, Some buf)
          else (ZSEED_OK, Some (xor_into SEED_SIZE buf digest))
  end.

(** The bytes [read] obtains from the random source, if it is opened and
    read at all. *)
Definition os_bytes (w : os_world) : option (list byte) :=
  if urandom_fd w <? 0 then None
  else option_map (firstn SEED_SIZE) (urandom_data w).

(** Byte-wise XOR of two byte strings. *)
Definition xor_bytes (a b : list byte) : list byte :=
  map (fun ab => byte_xor (fst ab) (snd ab)) (combine a b).

(** The conditions of the specification: the source is opened, [read]
    delivers all [SEED_SIZE] bytes. *)
Definition source_opened (w : os_world) : Prop := 0 <= urandom_fd w.

Definition full_read (w : os_world) : Prop :=
  exists l, urandom_data w = Some l /\ (SEED_SIZE <= length l)%nat.

(** The context is allocated, all the digest calls succeed and at least
    [SEED_SIZE] digest bytes are reported. *)
Definition mixing_succeeds (w : os_world) : Prop :=
  md_ctx_new w = true /\ digest_init w = true
  /\ digest_update_seed w = true /\ digest_update_mix w = true
  /\ digest_final w = true /\ 32 <= digest_len_out w.

(** A run in which only the first [EVP_DigestUpdate] reports failure. *)
Definition update_failure_world : os_world :=
  {| urandom_fd := 3;
     urandom_data := Some (zeros 32);
     mix_input := [x01; x02; x03];
     md_ctx_new := true;
     digest_init := true;
     digest_update_seed := false;
     digest_update_mix := true;
     digest_final := true;
     digest_len_out := 32 |}.

(** A run in which everything succeeds. *)
Definition good_world : os_world :=
  {| urandom_fd := 3;
     urandom_data := Some (repeat xa5 32);
     mix_input := [x01; x02; x03];
     md_ctx_new := true;
     digest_init := true;
     digest_update_seed := true;
     digest_update_mix := true;
     digest_final := true;
     digest_len_out := 32 |}.

End SeedGen.
Import SeedGen.

(* ================================================================== *)
(** * Hexadecimal form of a seed (z_seed_generator.h) *)

Module Hex.

Definition HEX_SEED_LEN : nat := SEED_SIZE * 2 + 1.

(** The digit characters that ["%x"] prints. *)
Definition hex_digit (v : Z) : byte :=
  nth (Z.to_nat v)
      [x30; x31; x32; x33; x34; x35; x36; x37; x38; x39;
       x61; x62; x63; x64; x65; x66] x30.

(** [snprintf (dst, 3, "%02x", b)]: two digits and the terminator. *)
Definition snprintf_02x (b : byte) : list byte :=
  [hex_digit (byte_to_Z b / 16); hex_digit (byte_to_Z b mod 16); x00].

(** The loop of [z_seed_to_hex] from index [i], [count] bytes left. *)
Fixpoint seed_to_hex_loop (count i : nat) (seed hex_out : list byte)
  : list byte :=
  match count with
  | O => hex_out
  | S k =>
      seed_to_hex_loop k (S i) seed
        (memcpy hex_out (i * 2) (snprintf_02x (nth i seed x00)))
  end.

(** [z_seed_to_hex (seed, hex_out)]: the content of [hex_out] afterwards. *)
Definition z_seed_to_hex (seed hex_out : list byte) : list byte :=
  memcpy (seed_to_hex_loop SEED_SIZE 0 seed hex_out) (SEED_SIZE * 2) [x00].

(** Value of a hexadecimal digit character. *)
Definition hex_value (c : byte) : option Z :=
  let v := byte_to_Z c in
  if (48 <=? v) && (v <=? 57) then Some (v - 48)
  else if (97 <=? v) && (v <=? 102) then Some (v - 87)
  else if (65 <=? v) && (v <=? 70) then Some (v - 55)
  else None.

(** [isspace] in the C locale. *)
Definition isspace (c : byte) : bool :=
  let v := byte_to_Z c in (v =? 32) || ((9 <=? v) && (v <=? 13)).

Fixpoint skip_space (s : list byte) : list byte :=
  match s with
  | c :: t => if isspace c then skip_space t else s
  | [] => []
  end.

(** [sscanf (s, "%02x", &v) == 1], as ISO C defines the conversion: white
    space is skipped, then the longest prefix of at most two characters of
    an optionally signed hexadecimal number is taken, and converted as
    [strtoul] would in base 16 into an [unsigned int].  [Some v] when the
    conversion is made, [None] otherwise (return value 0 or [EOF]). *)
Definition sscanf_02x (s : list byte) : option Z :=
  match skip_space s with
  | [] => None
  | c1 :: rest =>
      match hex_value c1 with
      | Some v1 =>
          match rest with
          | [] => Some v1
          | c2 :: _ =>
              match hex_value c2 with
              | Some v2 => Some (16 * v1 + v2)
              | None =>
                  (* "0x" alone is a prefix of a number, not a number *)
                  if (byte_to_Z c1 =? 48)
                     && ((byte_to_Z c2 =? 120) || (byte_to_Z c2 =? 88))
                  then None else Some v1
              end
          end
      | None =>
          if (byte_to_Z c1 =? 43) || (byte_to_Z c1 =? 45) then
            match rest with
            | [] => None
            | c2 :: _ =>
                match hex_value c2 with
                | Some v2 =>
                    Some (if byte_to_Z c1 =? 45 then (- v2) mod 2 ^ 32 else v2)
                | None => None
                end
            end
          else None
      end
  end.

(** The loop of [z_hex_to_seed] from index [i], [count] bytes left: the
    return code and the seed buffer. *)
Fixpoint hex_to_seed_loop (count i : nat) (hex_in seed : list byte)
  : Z * list byte :=
  match count with
  | O => (0, seed)
  | S k =>
      match sscanf_02x (skipn (i * 2) hex_in) with
      | None => (-1, seed)
      | Some byte_val =>
          hex_to_seed_loop k (S i) hex_in
            (memcpy seed i [byte_of_Z byte_val])
      end
  end.

(** [z_hex_to_seed (hex_in, seed)].  [hex_in] holds the bytes found at
    the address. *)
Definition z_hex_to_seed (hex_in seed : option (list byte))
  : Z * option (list byte) :=
  match hex_in, seed with
  | Some h, Some s =>
      let (rc, s') := hex_to_seed_loop SEED_SIZE 0 h s in (rc, Some s')
  | _, _ => (-1, seed)
  end.

Definition is_lower_hex (c : byte) : bool :=
  let v := byte_to_Z c in
  ((48 <=? v) && (v <=? 57)) || ((97 <=? v) && (v <=? 102)).

(** The two lower-case digits of a byte. *)
Definition hex_pair (b : byte) : list byte :=
  [hex_digit (byte_to_Z b / 16); hex_digit (byte_to_Z b mod 16)].

End Hex.
Import Hex.

(* ================================================================== *)
(** * Configuration and key generation (z5d_key_gen.c) *)

Module KeyGen.

Definition DEFAULT_BITS : Z := 4096.
Definition DEFAULT_E : Z := 65537.
Definition DEFAULT_VALIDITY_DAYS : Z := 30.
Definition DEFAULT_BUMP_P : Z := 0.
Definition DEFAULT_BUMP_Q : Z := 1.

(** A C [double]. *)
Definition double : Set := PrimFloat.float.

(** [config_t] with all its fields.  [prime_cfg] holds the seed, in the
    form in which the primality check takes the configuration. *)
Record key_config_t := {
  prime_cfg : config_t;
  seed_hex : list byte;
  bits : Z;
  e : Z;
  validity_days : Z;
  kappa_geo : double;
  kappa_star : double;
  phi : double;
  bump_p : Z;
  bump_q : Z
}.

Definition seed_error_exit_code (rc : Z) : Z :=
  if rc =? ZSEED_ERR_ENTROPY_UNAVAIL then 2
  else if rc =? ZSEED_ERR_READ_FAILURE then 3
  else if rc =? ZSEED_ERR_CRYPTO_FAILURE then 4
  else 1.

Section Defaults.

(** The three constants of [z_framework_params.h], which is not among the
    sources. *)
Variable DEFAULT_KAPPA_GEO : double.
Variable DEFAULT_KAPPA_STAR : double.
Variable DEFAULT_PHI : double.

(** [init_config (cfg)]: the return code and the configuration
    afterwards.  When the seed cannot be generated only the seed buffer
    may have changed. *)
Definition init_config (cfg : key_config_t) (w : os_world)
  : Z * key_config_t :=
  let '(rc, buf) := z_generate_seed (Some (seed (prime_cfg cfg))) w in
  let seed' := match buf with
               | Some b => b
               | None => seed (prime_cfg cfg)
               end in
  if negb (rc =? ZSEED_OK) then
    (rc, {| prime_cfg := {| seed := seed' |};
            seed_hex := seed_hex cfg;
            bits := bits cfg;
            e := e cfg;
            validity_days := validity_days cfg;
            kappa_geo := kappa_geo cfg;
            kappa_star := kappa_star cfg;
            phi := phi cfg;
            bump_p := bump_p cfg;
            bump_q := bump_q cfg |})
  else
    (ZSEED_OK, {| prime_cfg := {| seed := seed' |};
                  seed_hex := z_seed_to_hex seed' (seed_hex cfg);
                  bits := DEFAULT_BITS;
                  e := DEFAULT_E;
                  validity_days := DEFAULT_VALIDITY_DAYS;
                  kappa_geo := DEFAULT_KAPPA_GEO;
                  kappa_star := DEFAULT_KAPPA_STAR;
                  phi := DEFAULT_PHI;
                  bump_p := DEFAULT_BUMP_P;
                  bump_q := DEFAULT_BUMP_Q |}).

End Defaults.

(** ** The command line *)

Definition set_bits (cfg : key_config_t) (v : Z) : key_config_t :=
  {| prime_cfg := prime_cfg cfg; seed_hex := seed_hex cfg; bits := v;
     e := e cfg; validity_days := validity_days cfg;
     kappa_geo := kappa_geo cfg; kappa_star := kappa_star cfg;
     phi := phi cfg; bump_p := bump_p cfg; bump_q := bump_q cfg |}.

Definition set_e (cfg : key_config_t) (v : Z) : key_config_t :=
  {| prime_cfg := prime_cfg cfg; seed_hex := seed_hex cfg;
     bits := bits cfg; e := v; validity_days := validity_days cfg;
     kappa_geo := kappa_geo cfg; kappa_star := kappa_star cfg;
     phi := phi cfg; bump_p := bump_p cfg; bump_q := bump_q cfg |}.

Definition set_validity_days (cfg : key_config_t) (v : Z) : key_config_t :=
  {| prime_cfg := prime_cfg cfg; seed_hex := seed_hex cfg;
     bits := bits cfg; e := e cfg; validity_days := v;
     kappa_geo := kappa_geo cfg; kappa_star := kappa_star cfg;
     phi := phi cfg; bump_p := bump_p cfg; bump_q := bump_q cfg |}.

Definition set_kappa_geo (cfg : key_config_t) (v : double) : key_config_t :=
  {| prime_cfg := prime_cfg cfg; seed_hex := seed_hex cfg;
     bits := bits cfg; e := e cfg; validity_days := validity_days cfg;
     kappa_geo := v; kappa_star := kappa_star cfg;
     phi := phi cfg; bump_p := bump_p cfg; bump_q := bump_q cfg |}.

Definition set_kappa_star (cfg : key_config_t) (v : double) : key_config_t :=
  {| prime_cfg := prime_cfg cfg; seed_hex := seed_hex cfg;
     bits := bits cfg; e := e cfg; validity_days := validity_days cfg;
     kappa_geo := kappa_geo cfg; kappa_star := v;
     phi := phi cfg; bump_p := bump_p cfg; bump_q := bump_q cfg |}.

Definition set_phi (cfg : key_config_t) (v : double) : key_config_t :=
  {| prime_cfg := prime_cfg cfg; seed_hex := seed_hex cfg;
     bits := bits cfg; e := e cfg; validity_days := validity_days cfg;
     kappa_geo := kappa_geo cfg; kappa_star := kappa_star cfg;
     phi := v; bump_p := bump_p cfg; bump_q := bump_q cfg |}.

Definition set_bump_p (cfg : key_config_t) (v : Z) : key_config_t :=
  {| prime_cfg := prime_cfg cfg; seed_hex := seed_hex cfg;
     bits := bits cfg; e := e cfg; validity_days := validity_days cfg;
     kappa_geo := kappa_geo cfg; kappa_star := kappa_star cfg;
     phi := phi cfg; bump_p := v; bump_q := bump_q cfg |}.

Definition set_bump_q (cfg : key_config_t) (v : Z) : key_config_t :=
  {| prime_cfg := prime_cfg cfg; seed_hex := seed_hex cfg;
     bits := bits cfg; e := e cfg; validity_days := validity_days cfg;
     kappa_geo := kappa_geo cfg; kappa_star := kappa_star cfg;
     phi := phi cfg; bump_p := bump_p cfg; bump_q := v |}.

(** How [parse_args] ends: it returns [ret] and leaves the configuration
    and the two flags, or the process exits (after [--help]). *)
Inductive parse_outcome :=
| Returned (ret : Z) (cfg : key_config_t) (g_debug g_quiet : bool)
| Exited (status : Z).

Section ParseArgs.

(** The conversions of the C library, on the text of an argument. *)
Variable atoi : list byte -> Z.
Variable strtoul : list byte -> Z.
Variable atof : list byte -> double.

(** [parse_args] on the options that the successive calls of
    [getopt_long] deliver, each the character returned and [optarg],
    until it returns -1. *)
Fixpoint parse_args (opts : list (byte * list byte)) (cfg : key_config_t)
         (g_debug g_quiet : bool) : parse_outcome :=
  match opts with
  | [] => Returned 0 cfg g_debug g_quiet
  | (c, optarg) :: rest =>
      if Byte.eqb c x62 then                              (* 'b' *)
        let cfg := set_bits cfg (atoi optarg) in
        if (bits cfg <? 512) || (8192 <? bits cfg)
        then Returned (-1) cfg g_debug g_quiet
        else parse_args rest cfg g_debug g_quiet
      else if Byte.eqb c x65 then                         (* 'e' *)
        parse_args rest (set_e cfg (strtoul optarg)) g_debug g_quiet
      else if Byte.eqb c x76 then                         (* 'v' *)
        parse_args rest (set_validity_days cfg (atoi optarg))
          g_debug g_quiet
      else if Byte.eqb c x67 then                         (* 'g' *)
        parse_args rest (set_kappa_geo cfg (atof optarg)) g_debug g_quiet
      else if Byte.eqb c x6b then                         (* 'k' *)
        parse_args rest (set_kappa_star cfg (atof optarg)) g_debug g_quiet
      else if Byte.eqb c x70 then                         (* 'p' *)
        parse_args rest (set_phi cfg (atof optarg)) g_debug g_quiet
      else if Byte.eqb c x50 then                         (* 'P' *)
        let cfg := set_bump_p cfg (atoi optarg) in
        if bump_p cfg <? 0 then Returned (-1) cfg g_debug g_quiet
        else parse_args rest cfg g_debug g_quiet
      else if Byte.eqb c x51 then                         (* 'Q' *)
        let cfg := set_bump_q cfg (atoi optarg) in
        if bump_q cfg <? 0 then Returned (-1) cfg g_debug g_quiet
        else parse_args rest cfg g_debug g_quiet
      else if Byte.eqb c x64 then                         (* 'd' *)
        parse_args rest cfg true g_quiet
      else if Byte.eqb c x71 then                         (* 'q' *)
        parse_args rest cfg g_debug true
      else if Byte.eqb c x68 then Exited 0                (* 'h' *)
      else Returned (-1) cfg g_debug g_quiet
  end.

End ParseArgs.

(** A configuration as [main] holds it before [init_config]: nothing in
    it is meaningful yet. *)
Definition unset_config : key_config_t :=
  {| prime_cfg := {| seed := repeat xff 32 |};
     seed_hex := repeat xff 65;
     bits := 0; e := 0; validity_days := 0;
     kappa_geo := PrimFloat.nan; kappa_star := PrimFloat.nan;
     phi := PrimFloat.nan; bump_p := 7; bump_q := 7 |}.

(** [snprintf (dst, size, ...)] when the formatted text is [text]: at
    most [size - 1] characters and a terminator are stored, nothing when
    [size] is 0. *)
Definition snprintf (dst : list byte) (size : nat) (text : list byte)
  : list byte :=
  if (size =? 0)%nat then dst
  else memcpy dst 0 (firstn (size - 1) text ++ [x00]).

(** [create_tag (seed, tag_out, tag_size)]: the content of [tag_out]
    afterwards. *)
Definition create_tag (seed tag_out : list byte) (tag_size : nat)
  : list byte :=
  let hash := SHA256 (firstn SEED_SIZE seed) in
  snprintf tag_out tag_size (flat_map hex_pair (firstn 4 hash)).

(** The decimal digits of [n >= 0], most significant first, in front of
    [acc]. *)
Fixpoint decimal_digits (fuel : nat) (n : Z) (acc : list byte) : list byte :=
  match fuel with
  | O => acc
  | S fuel' =>
      let acc' := byte_of_Z (48 + n mod 10) :: acc in
      if n / 10 =? 0 then acc' else decimal_digits fuel' (n / 10) acc'
  end.

(** What ["%d"] prints for an [int]. *)
Definition format_d (z : Z) : list byte :=
  if z <? 0 then x2d :: decimal_digits 10 (- z) []
  else decimal_digits 10 z [].

(** A local array of [n] bytes that is not initialised holds what the
    stack held: the first [n] bytes of [stack] (zero bytes where [stack]
    is too short to tell). *)
Definition local_array (stack : list byte) (n : nat) : list byte :=
  firstn n (stack ++ zeros n).

(** The value of the bytes of a buffer after a call that returns nothing
    when there is no buffer. *)
Definition written (buf : list byte) (after : option (list byte))
  : list byte :=
  match after with
  | Some b => b
  | None => buf
  end.

Section Stack.

Variable stack : list byte.

(** The string ["2048bit"]. *)
Definition tag_2048bit : list byte :=
  [x32; x30; x34; x38; x62; x69; x74; x00].

Definition seed_to_2048bit (seed_bytes : list byte) : Z :=
  let expanded := local_array stack 256 in
  let expanded :=
    written expanded
      (derive_seed (Some seed_bytes) (Some tag_2048bit) (Some expanded) 256) in
  let result := mpz_import (firstn 256 expanded) in
  let result := Z.setbit result 2047 in
  Z.setbit result 0.

(** ** The prime of index [k] *)

(** The estimates are computed in floating point with MPFR and are taken
    as given: [prime_count_estimate kappa x] is the integer that
    [mpfr_get_z] stores in [z5d_prime_count] for [x >= 2] when
    [cfg->kappa_star] is [kappa], [nth_prime_estimate kappa k] the one it
    stores in [z5d_nth_prime].  [min_k_reached k] is the outcome of
    [mpz_cmp_d (k, ZF_MIN_K_NTH) >= 0]; the constant comes from a header
    that is not among the sources. *)
Variable prime_count_estimate : double -> Z -> Z.
Variable nth_prime_estimate : double -> Z -> Z.
Variable min_k_reached : Z -> bool.

(** The two flags set by [--debug] and [--quiet]. *)
Variable g_debug : bool.
Variable g_quiet : bool.

(** [z5d_prime_count (x, count, cfg)] for a configuration that is not
    [NULL]: the value of [count] afterwards. *)
Definition z5d_prime_count (x : Z) (cfg : key_config_t) : Z :=
  if x <? 2 then 0 else prime_count_estimate (kappa_star cfg) x.

Definition MAX_LOCAL_ATTEMPTS : Z := 5000.
Definition MAX_PRIME_ATTEMPTS : Z := 10000.

(** The text ["prime_p%d_q%d"] for the two bumps. *)
Definition prime_tag_text (cfg : key_config_t) : list byte :=
  [x70; x72; x69; x6d; x65; x5f; x70] ++ format_d (bump_p cfg)
    ++ [x5f; x71] ++ format_d (bump_q cfg).

(** The origin of the fallback search: 256 bytes derived from the seed
    under the tag of the bumps, with bit 2047 and bit 0 set. *)
Definition fallback_candidate (cfg : key_config_t) : Z :=
  let prime_seed := local_array stack 256 in
  let tag := snprintf (local_array stack 32) 32 (prime_tag_text cfg) in
  let prime_seed :=
    written prime_seed
      (derive_seed (Some (seed (prime_cfg cfg))) (Some tag)
         (Some prime_seed) 256) in
  let candidate := mpz_import (firstn 256 prime_seed) in
  let candidate := Z.setbit candidate 2047 in
  Z.setbit candidate 0.

(** The estimate for [k], replaced by [10 k] when it is below [k], and
    made odd: the value of [prime_out] and of [search_start] when the
    guided search is called. *)
Definition search_start (k : Z) (cfg : key_config_t) : Z :=
  let estimated_prime := nth_prime_estimate (kappa_star cfg) k in
  let estimated_prime :=
    if estimated_prime <? k then k * 10 else estimated_prime in
  let prime_out := estimated_prime in
  if Z.even prime_out then prime_out + 1 else prime_out.

(** [z5d_nth_prime (label, k, prime_out, cfg, too_close_ref,
    enforce_not_too_close)]: the return value and [prime_out] afterwards.
    [label] is only printed.  [malloc_guided] and [malloc_random] tell
    which allocations succeed in the guided and in the fallback search. *)
Definition z5d_nth_prime (k prime_out : Z) (cfg : key_config_t)
           (too_close_ref : option Z) (enforce_not_too_close : bool)
           (malloc_guided malloc_random : Z -> bool) : Z * Z :=
  let '(found_from_estimate, prime_out) :=
    if min_k_reached k then
      let prime_out := search_start k cfg in
      let k_hint := ulong (Z.abs k) in
      match guided_prime_search (search_start k cfg) MAX_LOCAL_ATTEMPTS
              (Some (prime_cfg cfg)) k_hint too_close_ref
              enforce_not_too_close malloc_guided with
      | Some (Found p _) => (true, p)
      | _ => (false, prime_out)
      end
    else (false, prime_out) in
  if found_from_estimate then (1, prime_out)
  else
    let candidate := fallback_candidate cfg in
    match search_prime_candidates candidate MAX_PRIME_ATTEMPTS
            (Some (prime_cfg cfg)) 0 2048 true too_close_ref
            enforce_not_too_close malloc_random with
    | Found p _ =>
        (* [return 1] stands inside the branch that prints *)
        if g_debug && negb g_quiet then (1, p) else (0, p)
    | NotFound _ => (0, prime_out)
    end.

(** ** The key pair *)

(** An [RSA] object with all its parameters set. *)
Record rsa_key := {
  rsa_n : Z;
  rsa_e : Z;
  rsa_d : Z;
  rsa_p : Z;
  rsa_q : Z;
  rsa_dmp1 : Z;
  rsa_dmq1 : Z;
  rsa_iqmp : Z
}.

(** What [generate_rsa_keypair] returns: [NULL], an [RSA] object as
    [RSA_new] made it, or one with its parameters set. *)
Inductive rsa_ptr :=
| RSA_NULL
| RSA_empty
| RSA_full (key : rsa_key).

(** The checked allocations and conversions of the key construction. *)
Record openssl_world := {
  rsa_new_ok : bool;
  (** all eight [BN_new] calls returned a number *)
  bn_new_ok : bool;
  p_bytes_ok : bool;
  q_bytes_ok : bool;
  bin2bn_p_ok : bool;
  bin2bn_q_ok : bool
}.

(** Every checked call succeeds. *)
Definition openssl_ok : openssl_world :=
  {| rsa_new_ok := true; bn_new_ok := true; p_bytes_ok := true;
     q_bytes_ok := true; bin2bn_p_ok := true; bin2bn_q_ok := true |}.

(** The bytes handed to [BN_bin2bn]: those [mpz_export] writes, a single
    zero byte when it writes none. *)
Definition export_bytes (z : Z) : list byte :=
  let exported := mpz_export z in
  if (length exported =? 0)%nat then [x00] else exported.

Definition BN_bin2bn (bytes : list byte) : Z := be_combine bytes.

(** [BN_mod_inverse (r, a, n, ctx)]: the inverse in [0, n), [None] for
    [NULL] when there is none. *)
Definition BN_mod_inverse (a n : Z) : option Z :=
  if Z.gcd a n =? 1 then Some (Z.invmod a n) else None.

(** The second half of [generate_rsa_keypair], from [RSA_new] on, for the
    primes [p] and [q] found ([p, q >= 2]); the calls whose result the
    code does not check are taken to succeed. *)
Definition build_rsa_key (p q : Z) (cfg : key_config_t)
           (w : openssl_world) : rsa_ptr :=
  if negb (rsa_new_ok w) then RSA_NULL
  else if negb (bn_new_ok w) then RSA_empty
  else if negb (p_bytes_ok w) || negb (q_bytes_ok w) then RSA_empty
  else if negb (bin2bn_p_ok w) || negb (bin2bn_q_ok w) then RSA_empty
  else
    let bn_p := BN_bin2bn (export_bytes p) in
    let bn_q := BN_bin2bn (export_bytes q) in
    let bn_n := bn_p * bn_q in
    let bn_e := e cfg in
    let p_minus_1 := bn_p - 1 in
    let q_minus_1 := bn_q - 1 in
    let gcd := Z.gcd p_minus_1 q_minus_1 in
    let lambda := p_minus_1 * q_minus_1 in
    let lambda := lambda / gcd in
    match BN_mod_inverse bn_e lambda with
    | None => RSA_empty
    | Some bn_d =>
        let bn_dmp1 := bn_d mod p_minus_1 in
        let bn_dmq1 := bn_d mod q_minus_1 in
        let bn_iqmp := match BN_mod_inverse bn_q bn_p with
                       | Some v => v
                       | None => 0
                       end in
        RSA_full {| rsa_n := bn_n; rsa_e := bn_e; rsa_d := bn_d;
                    rsa_p := bn_p; rsa_q := bn_q;
                    rsa_dmp1 := bn_dmp1; rsa_dmq1 := bn_dmq1;
                    rsa_iqmp := bn_iqmp |}
    end.

Definition MAX_RETRIES : Z := 10.

(** The loop [while (mpz_cmp (p, q) == 0 && retry_count < MAX_RETRIES)]
    with [fuel] evaluations of its condition left: [None] when a retry
    fails (the function returns [NULL]), otherwise [q] at the end.
    [malloc_ok i] describes the allocations of the [i]-th search. *)
Fixpoint retry_loop (fuel : nat) (cfg : key_config_t) (x_q p q : Z)
         (retry_count : Z) (malloc_ok : Z -> Z -> bool) : option Z :=
  match fuel with
  | O => Some q
  | S fuel' =>
      if (p =? q) && (retry_count <? MAX_RETRIES) then
        let original_bump_q := bump_q cfg in
        let temp_cfg :=
          set_bump_q cfg (original_bump_q + retry_count + 2) in
        let temp_k_base_q :=
          z5d_prime_count x_q cfg + ulong (bump_q temp_cfg) in
        let '(ret, q) :=
          z5d_nth_prime temp_k_base_q q temp_cfg (Some p) true
            (malloc_ok (4 + 2 * retry_count))
            (malloc_ok (5 + 2 * retry_count)) in
        if ret =? 0 then None
        else retry_loop fuel' cfg x_q p q (retry_count + 1) malloc_ok
      else Some q
  end.

(** The tags ["p"] and ["q"]. *)
Definition tag_p : list byte := [x70; x00].
Definition tag_q : list byte := [x71; x00].

Definition generate_rsa_keypair (cfg : key_config_t)
           (malloc_ok : Z -> Z -> bool) (w : openssl_world) : rsa_ptr :=
  let seed_p :=
    written (local_array stack 32)
      (derive_seed (Some (seed (prime_cfg cfg))) (Some tag_p)
         (Some (local_array stack 32)) 32) in
  let seed_q :=
    written (local_array stack 32)
      (derive_seed (Some (seed (prime_cfg cfg))) (Some tag_q)
         (Some (local_array stack 32)) 32) in
  let x_p := seed_to_2048bit seed_p in
  let x_q := seed_to_2048bit seed_q in
  let k_base_p := z5d_prime_count x_p cfg in
  let k_base_q := z5d_prime_count x_q cfg in
  let k_base_p := k_base_p + ulong (bump_p cfg) in
  let k_base_q := k_base_q + ulong (bump_q cfg) in
  let '(ret_p, p) :=
    z5d_nth_prime k_base_p 0 cfg None false (malloc_ok 0) (malloc_ok 1) in
  if ret_p =? 0 then RSA_NULL
  else
    let '(ret_q, q) :=
      z5d_nth_prime k_base_q 0 cfg (Some p) true
        (malloc_ok 2) (malloc_ok 3) in
    if ret_q =? 0 then RSA_NULL
    else
      match retry_loop (S (Z.to_nat MAX_RETRIES)) cfg x_q p q 0 malloc_ok with
      | None => RSA_NULL
      | Some q =>
          if p =? q then RSA_NULL else build_rsa_key p q cfg w
      end.

End Stack.

End KeyGen.
Import KeyGen.

(* ================================================================== *)
(** * The seed test program (test_seed.c) *)

Module SeedTest.

(** How the program ends: it returns 0, or the [k]-th [assert] aborts
    it. *)
Inductive test_outcome :=
| Passed
| AssertionFailed (k : nat).

Definition bytes_eqb (a b : list byte) : bool :=
  if list_eq_dec Byte.byte_eq_dec a b then true else false.

(** [memcmp (a, b, n) != 0]. *)
Definition memcmp_differs (a b : list byte) (n : nat) : bool :=
  negb (bytes_eqb (firstn n a) (firstn n b)).

(** [strcmp (a, b) != 0]. *)
Definition strcmp_differs (a b : list byte) : bool :=
  negb (bytes_eqb (c_string a) (c_string b)).

(** [main] of test_seed.c.  [seed1], [seed2], [hex1] and [hex2] give the
    content of the four local arrays at entry; [w1] and [w2] are the
    answers of the system during the two calls of [z_generate_seed]. *)
Definition test_seed_main (seed1 seed2 hex1 hex2 : list byte)
           (w1 w2 : os_world) : test_outcome :=
  let '(rc1, buf1) := z_generate_seed (Some seed1) w1 in
  let seed1 := match buf1 with Some b => b | None => seed1 end in
  if negb (rc1 =? ZSEED_OK) then AssertionFailed 1
  else
    let '(rc2, buf2) := z_generate_seed (Some seed2) w2 in
    let seed2 := match buf2 with Some b => b | None => seed2 end in
    if negb (rc2 =? ZSEED_OK) then AssertionFailed 2
    else if negb (memcmp_differs seed1 seed2 SEED_SIZE)
    then AssertionFailed 3
    else
      let hex1 := z_seed_to_hex seed1 hex1 in
      let hex2 := z_seed_to_hex seed2 hex2 in
      if negb (strlen hex1 =? SEED_SIZE * 2)%nat then AssertionFailed 4
      else if negb (strcmp_differs hex1 hex2) then AssertionFailed 5
      else Passed.

(** A second run in which everything succeeds, on other random bytes. *)
Definition other_good_world : os_world :=
  {| urandom_fd := 3;
     urandom_data := Some (repeat x5a 32);
     mix_input := [x01; x02; x04];
     md_ctx_new := true;
     digest_init := true;
     digest_update_seed := true;
     digest_update_mix := true;
     digest_final := true;
     digest_len_out := 32 |}.

End SeedTest.
Import SeedTest.

(* ================================================================== *)
(** * Notions used to state what the check and the search do *)

Module SearchSpec.

(** All the rounds of the fixed witnesses pass on [c]. *)
Definition fixed_rounds_pass (c : Z) : bool :=
  forallb (miller_rabin_round (mr_context_init c)) (standard_witnesses c).

(** On every odd number of [3, 3 + len), passing the fixed rounds implies
    passing trial division. *)
Definition fixed_rounds_exact (len : Z) : bool :=
  forallb (fun c => implb (negb (Z.even c) && fixed_rounds_pass c)
                          (trial_division c))
          (Zrange 3 (Z.to_nat len)).

(** The test the search loop applies to [candidate] at attempt [attempt]:
    the primality check under the hint of that attempt, then the proximity
    test. *)
Definition accepted (cfg : option config_t) (hint_seed : Z)
           (too_close_ref : option Z) (enforce_not_too_close : bool)
           (malloc_ok : Z -> bool) (candidate attempt : Z) : bool :=
  candidate_is_probable_prime candidate cfg (Z.lxor hint_seed attempt)
    (malloc_ok attempt)
  && not_too_close too_close_ref enforce_not_too_close candidate.

(** [P] holds of what a search returns, when it returns something. *)
Definition found_satisfies (P : Z -> Z -> Prop) (res : search_result) : Prop :=
  match res with
  | Found p used => P p used
  | NotFound _ => True
  end.

(** What holds of a prime [p] that the guided search returns with
    [*attempts_used = used]: it was found in the segment that starts at
    offset [off], as the candidate of index [a] there. *)
Definition guided_found (estimated_start max_attempts : Z)
           (cfg : option config_t) (hint_seed : Z)
           (too_close_ref : option Z) (enforce_not_too_close : bool)
           (malloc_ok : Z -> bool) (p used : Z) : Prop :=
  exists off a,
    0 <= off /\ 0 <= a /\ used = off + a /\ used < max_attempts
    /\ p = base_start estimated_start + ulong (2 * off) + 2 * a
    /\ candidate_is_probable_prime p cfg
         (Z.lxor (ulong (hint_seed + off)) a) (malloc_ok used) = true
    /\ not_too_close too_close_ref enforce_not_too_close p = true.

(** [P] holds of [prime_out] when [z5d_nth_prime] returns 1. *)
Definition when_returns_one (P : Z -> Prop) (r : Z * Z) : Prop :=
  if fst r =? 0 then True else P (snd r).

(** [P] holds of the key when [generate_rsa_keypair] returns an [RSA]
    object with its parameters set. *)
Definition full_key_satisfies (P : rsa_key -> Prop) (r : rsa_ptr) : Prop :=
  match r with
  | RSA_full key => P key
  | _ => True
  end.

(** The values of a configuration that the command line may only set
    within limits. *)
Definition valid_config (cfg : key_config_t) : Prop :=
  512 <= bits cfg <= 8192 /\ 0 <= bump_p cfg /\ 0 <= bump_q cfg.

(** [P] holds of the configuration and the flags when [parse_args]
    returns 0. *)
Definition when_parsed (P : key_config_t -> bool -> bool -> Prop)
           (r : parse_outcome) : Prop :=
  match r with
  | Returned 0 cfg g_debug g_quiet => P cfg g_debug g_quiet
  | _ => True
  end.

End SearchSpec.
Import SearchSpec.

(* ================================================================== *)
(** * Facts about bytes *)

Section ByteFacts.

Lemma byte_to_Z_range (b : byte) : 0 <= byte_to_Z b < 256.
Proof.
  unfold byte_to_Z. pose proof (Byte.to_N_bounded b). lia.
Qed.

Lemma byte_of_to_Z (b : byte) : byte_of_Z (byte_to_Z b) = b.
Proof.
  unfold byte_of_Z. pose proof (byte_to_Z_range b) as Hr.
  rewrite Z.mod_small by lia. unfold byte_to_Z.
  rewrite N2Z.id, Byte.of_to_N. reflexivity.
Qed.

Lemma byte_to_of_Z (z : Z) : byte_to_Z (byte_of_Z z) = z mod 256.
Proof.
  unfold byte_of_Z, byte_to_Z.
  pose proof (Z.mod_pos_bound z 256 ltac:(lia)) as Hr.
  destruct (Byte.of_N (Z.to_N (z mod 256))) as [b|] eqn:E.
  - apply Byte.to_of_N in E. rewrite E. lia.
  - apply Byte.of_N_None_iff in E. lia.
Qed.

Lemma byte_xor_involutive (a b : byte) : byte_xor (byte_xor a b) b = a.
Proof.
  unfold byte_xor. rewrite byte_to_of_Z.
  pose proof (byte_to_Z_range a) as Ha. pose proof (byte_to_Z_range b) as Hb.
  assert (Hx : 0 <= Z.lxor (byte_to_Z a) (byte_to_Z b) < 256).
  { split.
    - apply Z.lxor_nonneg. lia.
    - destruct (Z.eq_dec (Z.lxor (byte_to_Z a) (byte_to_Z b)) 0) as [->|Hne];
        [lia|].
      apply Z.log2_lt_pow2 with (b := 8);
        [ pose proof (proj2 (Z.lxor_nonneg (byte_to_Z a) (byte_to_Z b)));
          lia | ].
      eapply Z.le_lt_trans; [apply Z.log2_lxor; lia|].
      apply Z.max_lub_lt.
      + destruct (Z.eq_dec (byte_to_Z a) 0) as [->|]; [reflexivity|].
        apply Z.log2_lt_pow2; lia.
      + destruct (Z.eq_dec (byte_to_Z b) 0) as [->|]; [reflexivity|].
        apply Z.log2_lt_pow2; lia. }
  rewrite Z.mod_small by lia.
  rewrite Z.lxor_assoc, Z.lxor_nilpotent, Z.lxor_0_r.
  apply byte_of_to_Z.
Qed.

Lemma be_split_length (k : nat) (z : Z) : length (be_split k z) = k.
Proof.
  revert z; induction k as [|k IH]; intro z; simpl; [reflexivity|].
  rewrite length_app, IH. simpl. lia.
Qed.

Lemma memcpy_length (dst src : list byte) (off : nat) :
  (off + length src <= length dst)%nat ->
  length (memcpy dst off src) = length dst.
Proof.
  intro H. unfold memcpy.
  rewrite !length_app, length_firstn, length_skipn. lia.
Qed.

Lemma memcpy_0_whole (dst src : list byte) :
  length src = length dst -> memcpy dst 0 src = src.
Proof.
  intro H. unfold memcpy. simpl.
  rewrite skipn_all2 by lia. apply app_nil_r.
Qed.

End ByteFacts.

(* ================================================================== *)
(** * SHA-256: digest length and test vectors *)

Lemma SHA256_length (msg : list byte) :
  length (SHA256 msg) = SHA256_DIGEST_LENGTH.
Proof.
  unfold SHA256, digest_bytes.
  rewrite !length_app, !be_split_length. reflexivity.
Qed.

(** The computed constants: 64 of them, from [428a2f98] to [c67178f2]. *)
Example K256_ends :
  length K256 = 64%nat
  /\ nth 0 K256 0 = 0x428a2f98 /\ nth 63 K256 0 = 0xc67178f2
  /\ sa H0 = 0x6a09e667 /\ sh H0 = 0x5be0cd19.
Proof. vm_compute. repeat split; reflexivity. Qed.

(** FIPS 180-4 example: the digest of ["abc"]. *)
Example SHA256_abc :
  map byte_to_Z (SHA256 [x61; x62; x63]) =
  [0xba; 0x78; 0x16; 0xbf; 0x8f; 0x01; 0xcf; 0xea;
   0x41; 0x41; 0x40; 0xde; 0x5d; 0xae; 0x22; 0x23;
   0xb0; 0x03; 0x61; 0xa3; 0x96; 0x17; 0x7a; 0x9c;
   0xb4; 0x10; 0xff; 0x61; 0xf2; 0x00; 0x15; 0xad].
Proof. vm_compute. reflexivity. Qed.

(** The digest of the empty message. *)
Example SHA256_empty :
  map byte_to_Z (SHA256 []) =
  [0xe3; 0xb0; 0xc4; 0x42; 0x98; 0xfc; 0x1c; 0x14;
   0x9a; 0xfb; 0xf4; 0xc8; 0x99; 0x6f; 0xb9; 0x24;
   0x27; 0xae; 0x41; 0xe4; 0x64; 0x9b; 0x93; 0x4c;
   0xa4; 0x95; 0x99; 0x1b; 0x78; 0x52; 0xb8; 0x55].
Proof. vm_compute. reflexivity. Qed.

(** A message of two blocks: one hundred times ["a"]. *)
Example SHA256_two_blocks :
  map byte_to_Z (SHA256 (repeat x61 100)) =
  [0x28; 0x16; 0x59; 0x78; 0x88; 0xe4; 0xa0; 0xd3;
   0xa3; 0x6b; 0x82; 0xb8; 0x33; 0x16; 0xab; 0x32;
   0x68; 0x0e; 0xb8; 0xf0; 0x0f; 0x8c; 0xd3; 0xb9;
   0x04; 0xd6; 0x81; 0x24; 0x6d; 0x28; 0x5a; 0x0e].
Proof. vm_compute. reflexivity. Qed.

(* ================================================================== *)
(** * Key derivation *)

Section DeriveFacts.

Lemma strlen_c_string (s : list byte) : strlen s = length (c_string s).
Proof.
  induction s as [|b t IH]; simpl; [reflexivity|].
  destruct (Byte.eqb b x00); simpl; congruence.
Qed.

Lemma firstn_c_string (s : list byte) (k : nat) :
  (k <= strlen s)%nat -> firstn k s = firstn k (c_string s).
Proof.
  revert k; induction s as [|b t IH]; intros k Hk; simpl in *.
  - reflexivity.
  - destruct (Byte.eqb b x00); simpl in *.
    + assert (k = O) by lia. subst. reflexivity.
    + destruct k as [|k]; [reflexivity|]. simpl. f_equal. apply IH. lia.
Qed.

Lemma digest_i_length (seed tag : list byte) (i : nat) :
  length (digest_i seed tag i) = 32%nat.
Proof.
  unfold digest_i. destruct i as [|i]; [|rewrite Nat.iter_succ];
    apply SHA256_length.
Qed.

(** The digests that follow [dg] in the chain, [k] of them, [dg] first. *)
Let chain (k : nat) (dg : list byte) : list byte :=
  concat (map (fun i => Nat.iter i SHA256 dg) (seq 0 k)).

Lemma chain_succ (k : nat) (dg : list byte) :
  chain (S k) dg = dg ++ chain k (SHA256 dg).
Proof.
  unfold chain. simpl. f_equal. rewrite <- seq_shift, map_map.
  f_equal. apply map_ext. intro i. apply Nat.iter_succ_r.
Qed.

Lemma derive_loop_chain (fuel : nat) :
  forall (N produced : nat) (dg out : list byte),
    length dg = 32%nat ->
    (N <= length out)%nat ->
    (produced <= N)%nat ->
    (N - produced <= fuel)%nat ->
    derive_loop fuel N produced dg out =
    firstn produced out ++ firstn (N - produced) (chain fuel dg)
           ++ skipn N out.
Proof.
  induction fuel as [|fuel IH]; intros N produced dg out Hdg Hout Hp Hf.
  - assert (produced = N) by lia. subst. simpl.
    rewrite Nat.sub_diag. simpl. symmetry. apply firstn_skipn.
  - cbn [derive_loop]. destruct (Nat.ltb_spec produced N) as [Hlt|Hge].
    + rewrite (firstn_all2 (n := SHA256_DIGEST_LENGTH) dg)
        by (unfold SHA256_DIGEST_LENGTH; lia).
      set (chunk := Nat.min SHA256_DIGEST_LENGTH (N - produced)).
      assert (Hchunk : (1 <= chunk <= 32)%nat /\ (chunk <= N - produced)%nat).
      { unfold chunk, SHA256_DIGEST_LENGTH. lia. }
      assert (Hlen : length (firstn chunk dg) = chunk).
      { rewrite length_firstn. lia. }
      rewrite IH.
      * (* reassemble the buffer *)
        unfold memcpy. rewrite Hlen.
        rewrite firstn_app, length_firstn.
        replace (Nat.min produced (length out)) with produced by lia.
        rewrite firstn_firstn.
        replace (Nat.min (produced + chunk) produced) with produced by lia.
        replace (produced + chunk - produced)%nat with chunk by lia.
        rewrite firstn_app, Hlen.
        rewrite firstn_all2 with (n := chunk) (l := firstn chunk dg) by lia.
        replace (chunk - chunk)%nat with O by lia. rewrite firstn_O, app_nil_r.
        rewrite <- app_assoc. f_equal.
        rewrite skipn_app, length_firstn.
        replace (Nat.min produced (length out)) with produced by lia.
        rewrite skipn_all2 with (n := N) (l := firstn produced out)
          by (rewrite length_firstn; lia).
        rewrite skipn_app, Hlen.
        rewrite skipn_all2 with (l := firstn chunk dg) by (rewrite Hlen; lia).
        rewrite skipn_skipn.
        replace (N - produced - chunk + (produced + chunk))%nat with N by lia.
        cbn [app]. rewrite chain_succ, firstn_app, Hdg.
        destruct (Nat.ltb_spec (produced + chunk) N) as [Hmore|Hdone].
        -- assert (H32 : chunk = 32%nat)
             by (unfold chunk, SHA256_DIGEST_LENGTH in *; lia).
           rewrite H32 in *.
           rewrite !firstn_all2 with (l := dg) by lia.
           rewrite <- app_assoc. do 2 f_equal.
           replace (N - produced - 32)%nat with (N - (produced + 32))%nat by lia.
           reflexivity.
        -- replace (N - (produced + chunk))%nat with O by lia.
           replace (N - produced - 32)%nat with O by lia.
           rewrite !firstn_O. cbn [app]. rewrite app_nil_r.
           replace (N - produced)%nat with chunk by lia. reflexivity.
      * destruct (Nat.ltb_spec (produced + chunk) N);
          [apply SHA256_length | exact Hdg].
      * rewrite memcpy_length; [exact Hout | rewrite Hlen; lia].
      * lia.
      * lia.
    + assert (produced = N) by lia. subst.
      rewrite Nat.sub_diag. simpl. symmetry. apply firstn_skipn.
Qed.

Lemma chain_length (k : nat) (dg : list byte) :
  length dg = 32%nat -> length (chain k dg) = (32 * k)%nat.
Proof.
  revert dg; induction k as [|k IH]; intros dg Hdg; [reflexivity|].
  rewrite chain_succ, length_app, (IH _ (SHA256_length dg)), Hdg. lia.
Qed.

Lemma firstn_chain_more (N k k' : nat) (dg : list byte) :
  length dg = 32%nat -> (N <= 32 * k)%nat -> (N <= 32 * k')%nat ->
  firstn N (chain k dg) = firstn N (chain k' dg).
Proof.
  revert N k' dg; induction k as [|k IH]; intros N k' dg Hdg Hk Hk'.
  - assert (N = O) by lia. subst. reflexivity.
  - destruct k' as [|k'].
    + assert (N = O) by lia. subst. reflexivity.
    + rewrite !chain_succ, !firstn_app, Hdg. f_equal.
      destruct (Nat.le_gt_cases N 32) as [Hs|Hl].
      * replace (N - 32)%nat with O by lia. reflexivity.
      * apply IH; [apply SHA256_length | lia | lia].
Qed.

Lemma digest_stream_chain (seed tag : list byte) (k : nat) :
  digest_stream seed tag k = chain k (digest_i seed tag 0).
Proof. reflexivity. Qed.

(** The context buffer holds the tag prefix followed by the seed. *)
Lemma derive_context (seed tag : list byte) :
  length seed = 32%nat ->
  let tag_len := strlen tag in
  let tag_len :=
    if (TAG_PREFIX_MAX <? tag_len)%nat then TAG_PREFIX_MAX else tag_len in
  firstn (tag_len + SEED_SIZE)
    (memcpy (memcpy (zeros (SEED_SIZE + TAG_PREFIX_MAX)) 0 (firstn tag_len tag))
            tag_len (firstn SEED_SIZE seed))
  = firstn (Nat.min (length (c_string tag)) 32) (c_string tag) ++ seed.
Proof.
  intros Hseed. cbv zeta.
  set (tlen := if (TAG_PREFIX_MAX <? strlen tag)%nat
             then TAG_PREFIX_MAX else strlen tag).
  assert (Htl : tlen = Nat.min (length (c_string tag)) 32 /\
                (tlen <= strlen tag)%nat).
  { unfold tlen, TAG_PREFIX_MAX. rewrite <- strlen_c_string.
    destruct (Nat.ltb_spec 32 (strlen tag)); lia. }
  destruct Htl as [Htl Hle].
  rewrite <- Htl, <- firstn_c_string by exact Hle.
  assert (Hlt : length (firstn tlen tag) = tlen).
  { rewrite length_firstn.
    pose proof (strlen_c_string tag) as E.
    assert (length (c_string tag) <= length tag)%nat.
    { clear. induction tag as [|b t IH]; simpl; [lia|].
      destruct (Byte.eqb b x00); simpl; lia. }
    lia. }
  unfold memcpy at 2. cbn [firstn app Nat.add]. rewrite Hlt.
  rewrite (firstn_all2 (n := SEED_SIZE) seed) by (unfold SEED_SIZE; lia).
  unfold memcpy.
  set (rest := skipn tlen (zeros (SEED_SIZE + TAG_PREFIX_MAX))).
  assert (Hin : firstn tlen (firstn tlen tag ++ rest) = firstn tlen tag).
  { rewrite firstn_app, Hlt, Nat.sub_diag, firstn_O, app_nil_r.
    apply firstn_all2. lia. }
  rewrite Hin, app_assoc, firstn_app.
  assert (Hts : length (firstn tlen tag ++ seed) = (tlen + SEED_SIZE)%nat).
  { rewrite length_app, Hlt, Hseed. reflexivity. }
  rewrite Hts, Nat.sub_diag, firstn_O, app_nil_r.
  apply firstn_all2. lia.
Qed.

End DeriveFacts.

(** C3.  For a 32-byte seed [S], a tag string (the C string found at
    [tag]) and a length [N > 0], [derive_seed] fills the first [N] bytes of
    the output buffer with the first [N] bytes of
    [digest_0 || digest_1 || ...], where [digest_0] is the SHA-256 digest of
    the first [min (|T|, 32)] tag bytes followed by [S] and every next digest
    is the digest of the one before; any [k] digests with [32 k >= N] give the
    same bytes.  Hence the bytes written depend on [S], the tag and [N] only,
    and for 32 zero bytes, tag ["test"] and [N = 16] they are the first 16
    bytes of [SHA256 ("test" || S)]. *)
Theorem derive_seed_stream :
  (forall (S tag out : list byte) (N k : nat),
      length S = 32%nat ->
      (0 < N)%nat -> (N <= length out)%nat -> (N <= 32 * k)%nat ->
      derive_seed (Some S) (Some tag) (Some out) N =
      Some (firstn N (digest_stream S (c_string tag) k) ++ skipn N out))
  /\ (forall (S tag out out' : list byte) (N : nat),
         length S = 32%nat ->
         (0 < N)%nat -> (N <= length out)%nat -> (N <= length out')%nat ->
         option_map (firstn N) (derive_seed (Some S) (Some tag) (Some out) N) =
         option_map (firstn N) (derive_seed (Some S) (Some tag) (Some out') N))
  /\ (forall out : list byte,
         (16 <= length out)%nat ->
         derive_seed (Some (zeros 32)) (Some [x74; x65; x73; x74])
                     (Some out) 16 =
         Some (firstn 16 (SHA256 ([x74; x65; x73; x74] ++ zeros 32))
                 ++ skipn 16 out)).
Proof.
  assert (Hmain :
    forall (S tag out : list byte) (N k : nat),
      length S = 32%nat ->
      (0 < N)%nat -> (N <= length out)%nat -> (N <= 32 * k)%nat ->
      derive_seed (Some S) (Some tag) (Some out) N =
      Some (firstn N (digest_stream S (c_string tag) k) ++ skipn N out)).
  { intros S tag out N k HS HN Hout Hk. unfold derive_seed.
    destruct (Nat.eqb_spec N 0) as [->|_]; [lia|].
    rewrite (derive_context S tag HS).
    rewrite derive_loop_chain;
      [ | apply SHA256_length | exact Hout | lia | lia ].
    rewrite Nat.sub_0_r, firstn_O. cbn [app]. do 2 f_equal.
    rewrite digest_stream_chain. unfold digest_i. cbn [Nat.iter nat_rect].
    apply firstn_chain_more; [apply SHA256_length | lia | exact Hk]. }
  split; [exact Hmain|]. split.
  - intros S tag out out' N HS HN Hout Hout'.
    rewrite (Hmain S tag out N N), (Hmain S tag out' N N) by (assumption || lia).
    cbn [option_map]. f_equal.
    assert (Hl : length (firstn N (digest_stream S (c_string tag) N)) = N).
    { rewrite length_firstn, digest_stream_chain, chain_length
        by apply digest_i_length. lia. }
    rewrite !firstn_app, Hl, Nat.sub_diag, !firstn_O. reflexivity.
  - intros out Hout.
    rewrite (Hmain (zeros 32) [x74; x65; x73; x74] out 16%nat 1%nat)
      by (reflexivity || lia).
    reflexivity.
Qed.

Lemma derive_seed_stream_witness :
  derive_seed (Some (zeros 32)) (Some [x74; x65; x73; x74; x00; x41])
              (Some (repeat xff 40)) 40 =
  Some (firstn 40 (digest_stream (zeros 32)
                     (c_string [x74; x65; x73; x74; x00; x41]) 2)
          ++ skipn 40 (repeat xff 40)).
Proof.
  apply (proj1 derive_seed_stream); [reflexivity | lia | simpl; lia | lia].
Defined.

(** The bytes of the end-to-end scenario, evaluated. *)
Example derive_seed_test_vector :
  option_map (map byte_to_Z)
    (derive_seed (Some (zeros 32)) (Some [x74; x65; x73; x74])
                 (Some (zeros 16)) 16) =
  Some [0x30; 0x42; 0x4d; 0xdc; 0xd8; 0x79; 0x21; 0xb9;
        0x72; 0x23; 0x36; 0x94; 0xe7; 0x08; 0xe8; 0xeb].
Proof. vm_compute. reflexivity. Qed.

(** C10.  With no output buffer, or with length 0, [derive_seed] writes
    nothing; with a buffer and a positive length but no base seed or no tag
    it fills the [N] output bytes with zero bytes, and reports nothing. *)
Theorem derive_seed_invalid_inputs :
  (forall (S tag : option (list byte)) (N : nat),
      derive_seed S tag None N = None)
  /\ (forall (S tag : option (list byte)) (out : list byte),
         derive_seed S tag (Some out) 0 = Some out)
  /\ (forall (S tag : option (list byte)) (out : list byte) (N : nat),
         (0 < N)%nat -> (N <= length out)%nat ->
         S = None \/ tag = None ->
         derive_seed S tag (Some out) N = Some (zeros N ++ skipn N out)
         /\ firstn N (zeros N ++ skipn N out) = zeros N
         /\ length (zeros N ++ skipn N out) = length out).
Proof.
  split; [reflexivity|]. split; [reflexivity|].
  intros S tag out N HN Hout Hnull. split; [|split].
  - unfold derive_seed. destruct (Nat.eqb_spec N 0) as [->|_]; [lia|].
    destruct Hnull as [-> | ->]; [reflexivity|].
    destruct S; reflexivity.
  - rewrite firstn_app. unfold zeros. rewrite repeat_length, Nat.sub_diag.
    rewrite firstn_O, app_nil_r. apply firstn_all2.
    rewrite repeat_length. lia.
  - unfold zeros. rewrite length_app, repeat_length, length_skipn. lia.
Qed.

Lemma derive_seed_invalid_inputs_witness :
  derive_seed None (Some [x70]) (Some (repeat xff 5)) 3 =
  Some (zeros 3 ++ skipn 3 (repeat xff 5))
  /\ firstn 3 (zeros 3 ++ skipn 3 (repeat xff 5)) = zeros 3
  /\ length (zeros 3 ++ skipn 3 (repeat xff 5)) = length (repeat xff 5).
Proof.
  apply (proj2 (proj2 derive_seed_invalid_inputs));
    [lia | simpl; lia | left; reflexivity].
Defined.

(* ================================================================== *)
(** * Modular exponentiation and the modulus context *)

Section PowmFacts.

Lemma powm_pos_spec (base : Z) (e : positive) (m : Z) :
  m <> 0 -> powm_pos base e m = base ^ Zpos e mod m.
Proof.
  intro Hm. induction e as [e IH | e IH | ]; cbn [powm_pos]; cbv zeta.
  - rewrite IH.
    replace (base ^ Z.pos e~1)
      with (base ^ Z.pos e * base ^ Z.pos e * base).
    2:{ rewrite Pos2Z.inj_xI, Z.pow_add_r, Z.pow_1_r by lia.
        f_equal. rewrite <- Z.pow_add_r by lia. f_equal. lia. }
    rewrite <- (Z.mul_mod_idemp_l (base ^ Z.pos e * base ^ Z.pos e))
      by exact Hm.
    rewrite (Z.mul_mod (base ^ Z.pos e) (base ^ Z.pos e)) by exact Hm.
    reflexivity.
  - rewrite IH, Pos2Z.inj_xO.
    rewrite <- Z.mul_mod by exact Hm.
    f_equal. rewrite <- Z.pow_add_r by lia. f_equal. lia.
  - rewrite Z.pow_1_r. reflexivity.
Qed.

Lemma mpz_powm_spec (base e m : Z) :
  0 <= e -> m <> 0 -> mpz_powm base e m = base ^ e mod m.
Proof.
  intros He Hm. destruct e as [|p|p]; cbn [mpz_powm].
  - reflexivity.
  - apply powm_pos_spec, Hm.
  - lia.
Qed.

(** Invariant of the halving loop: the value is preserved, and with
    enough fuel the loop stops on an odd number. *)
Lemma odd_part_loop_spec (fuel : nat) :
  forall d0 r0 : Z,
    0 < d0 -> 0 <= r0 -> Z.log2 d0 < Z.of_nat fuel ->
    let (d1, r1) := odd_part_loop fuel d0 r0 in
    Z.odd d1 = true /\ r0 <= r1 /\ d0 = d1 * 2 ^ (r1 - r0).
Proof.
  induction fuel as [|fuel IH]; intros d0 r0 Hd Hr Hlog.
  - pose proof (Z.log2_nonneg d0). lia.
  - cbn [odd_part_loop]. destruct (Z.even d0) eqn:Hev.
    + assert (Hd2 : d0 = 2 * (d0 / 2)).
      { apply Z.even_spec in Hev. destruct Hev as [q Hq]. subst d0.
        rewrite (Z.mul_comm 2 q), Z.div_mul by lia. lia. }
      rewrite Z.shiftr_div_pow2, Z.pow_1_r by lia.
      assert (Hpos : 0 < d0 / 2) by lia.
      assert (Hlog' : Z.log2 (d0 / 2) < Z.of_nat fuel).
      { pose proof (Z.log2_double (d0 / 2) Hpos) as E.
        rewrite <- Hd2 in E. lia. }
      specialize (IH (d0 / 2) (r0 + 1) Hpos ltac:(lia) Hlog').
      destruct (odd_part_loop fuel (d0 / 2) (r0 + 1)) as [d1 r1].
      destruct IH as (Hodd & Hle & Heq). repeat split; [exact Hodd | lia |].
      rewrite Hd2, Heq.
      replace (r1 - r0) with (1 + (r1 - (r0 + 1))) by lia.
      rewrite Z.pow_add_r by lia. lia.
    + repeat split.
      * rewrite <- Z.negb_even, Hev. reflexivity.
      * lia.
      * rewrite Z.sub_diag. lia.
Qed.

(** The context of a candidate [c >= 2]: [c - 1 = d * 2^r] with [d] odd. *)
Lemma mr_context_init_spec (c : Z) :
  2 <= c ->
  let ctx := mr_context_init c in
  n ctx = c /\ n_minus_1 ctx = c - 1 /\
  n_minus_3 ctx = (if 3 <? c then c - 3 else 0) /\
  odd_decomposition c (d ctx) (r ctx).
Proof.
  intros Hc ctx. unfold ctx, mr_context_init. cbn [n n_minus_1 n_minus_3 d r].
  repeat split; try reflexivity.
  all: pose proof (odd_part_loop_spec (S (Z.to_nat (Z.log2 (c - 1))))
                     (c - 1) 0 ltac:(lia) ltac:(lia)) as H;
    pose proof (Z.log2_nonneg (c - 1));
    specialize (H ltac:(lia));
    destruct (odd_part_loop _ (c - 1) 0) as [d1 r1];
    cbn [fst snd]; destruct H as (Hodd & Hle & Heq);
    rewrite Z.sub_0_r in Heq; auto.
Qed.

(** An odd decomposition is unique. *)
Lemma odd_decomposition_unique (c d1 r1 d2 r2 : Z) :
  odd_decomposition c d1 r1 -> odd_decomposition c d2 r2 ->
  d1 = d2 /\ r1 = r2.
Proof.
  assert (Hlt : forall d1 r1 d2 r2,
             Z.odd d1 = true -> Z.odd d2 = true -> 0 <= r1 < r2 ->
             d1 * 2 ^ r1 = d2 * 2 ^ r2 -> False).
  { intros a ra b rb Ha Hb Hr Heq.
    replace rb with ((rb - ra) + ra) in Heq by lia.
    rewrite Z.pow_add_r, Z.mul_assoc in Heq by lia.
    apply Z.mul_cancel_r in Heq;
      [| pose proof (Z.pow_pos_nonneg 2 ra); lia].
    replace (rb - ra) with (1 + (rb - ra - 1)) in Heq by lia.
    rewrite Z.pow_add_r, Z.pow_1_r in Heq by lia.
    rewrite Heq in Ha.
    rewrite Z.mul_assoc, (Z.mul_comm b 2), <- Z.mul_assoc in Ha.
    rewrite Z.odd_mul in Ha. discriminate Ha. }
  intros (Ho1 & Hr1 & E1) (Ho2 & Hr2 & E2).
  rewrite E1 in E2.
  destruct (Z.lt_trichotomy r1 r2) as [H | [H | H]].
  - exfalso. apply (Hlt d1 r1 d2 r2); auto; lia.
  - subst r2. split; [|reflexivity].
    apply Z.mul_cancel_r in E2; [exact E2|].
    pose proof (Z.pow_pos_nonneg 2 r1). lia.
  - exfalso. apply (Hlt d2 r2 d1 r1); auto; lia.
Qed.

End PowmFacts.

(* ================================================================== *)
(** * The Miller-Rabin round and the primality check *)

Section RoundFacts.

Lemma square_loop_spec (ctx : mr_context_t) (k : nat) :
  n ctx <> 0 -> n_minus_1 ctx = n ctx - 1 ->
  forall x : Z,
    square_loop k ctx x = true <->
    exists j, 1 <= j <= Z.of_nat k /\ x ^ (2 ^ j) mod n ctx = n ctx - 1.
Proof.
  intros Hn Hn1. induction k as [|k IH]; intro x.
  - cbn [square_loop]. split; [discriminate|].
    intros (j & Hj & _). lia.
  - cbn [square_loop]. rewrite mpz_powm_spec, Hn1 by (lia || exact Hn).
    destruct (Z.eqb_spec (x ^ 2 mod n ctx) (n ctx - 1)) as [E|NE].
    + split; [intros _ | reflexivity].
      exists 1. split; [lia|]. exact E.
    + rewrite IH. split.
      * intros (j & Hj & E). exists (j + 1). split; [lia|].
        rewrite Z.mod_pow_l in E.
        rewrite <- Z.pow_mul_r in E by (try apply Z.pow_nonneg; lia).
        rewrite Z.pow_add_r, Z.pow_1_r, Z.mul_comm by lia. exact E.
      * intros (j & Hj & E).
        destruct (Z.eq_dec j 1) as [->|Hj1]; [contradiction|].
        exists (j - 1). split; [lia|].
        rewrite Z.mod_pow_l.
        rewrite <- Z.pow_mul_r by (try apply Z.pow_nonneg; lia).
        replace (2 * 2 ^ (j - 1)) with (2 ^ j); [exact E|].
        replace j with (1 + (j - 1)) at 1 by lia.
        rewrite Z.pow_add_r by lia. reflexivity.
Qed.

(** On the context of [c], the coded round is the round of the
    specification. *)
Lemma miller_rabin_round_spec (c w : Z) :
  2 <= c ->
  let ctx := mr_context_init c in
  miller_rabin_round ctx w = true <-> round_passes c (d ctx) (r ctx) w.
Proof.
  intros Hc ctx.
  destruct (mr_context_init_spec c Hc) as (Hn & Hn1 & _ & Hodd & Hr & Hdec).
  fold ctx in Hn, Hn1, Hodd, Hr, Hdec.
  assert (Hd : 0 <= d ctx).
  { destruct (Z.lt_ge_cases (d ctx) 0) as [Hneg|]; [|assumption].
    pose proof (Z.pow_pos_nonneg 2 (r ctx) ltac:(lia) Hr). nia. }
  unfold miller_rabin_round, round_passes. cbv zeta.
  rewrite mpz_powm_spec, Hn, Hn1 by lia.
  destruct (Z.eqb_spec (w ^ d ctx mod c) 1) as [E1|N1]; cbn [orb].
  { split; [intros _; left; exact E1 | reflexivity]. }
  destruct (Z.eqb_spec (w ^ d ctx mod c) (c - 1)) as [E2|N2].
  { split; [intros _; right; left; exact E2 | reflexivity]. }
  rewrite square_loop_spec by (rewrite ?Hn, ?Hn1; lia).
  rewrite Hn. split.
  - intros (j & Hj & E). right; right. exists j. split; [lia|exact E].
  - intros [E|[E|(j & Hj & E)]]; [contradiction|contradiction|].
    exists j. split; [lia|exact E].
Qed.

Lemma geodesic_witnesses_length c cfg hint m :
  length (geodesic_witnesses c cfg hint m) = 6%nat.
Proof.
  unfold geodesic_witnesses, generate_geodesic_witnesses.
  cbn [Nat.eqb MR_GEODESIC_WITNESSES].
  destruct (_ <=? 1); [reflexivity|].
  destruct (negb m); [reflexivity|].
  rewrite length_app, length_map, length_seq. reflexivity.
Qed.

Lemma standard_witnesses_eq (c : Z) :
  standard_witnesses c =
  map (map_witness_into_range (mr_context_init c)) MR_STANDARD_BASES.
Proof.
  unfold standard_witnesses, generate_standard_witnesses.
  cbn [MR_STANDARD_WITNESSES Nat.ltb Nat.leb].
  cbn [firstn skipn repeat MR_STANDARD_BASES]. apply app_nil_r.
Qed.

(** Past the trivial cases the check is the conjunction of all rounds. *)
Lemma candidate_is_probable_prime_odd c cfg hint m :
  3 <= c -> Z.even c = false ->
  candidate_is_probable_prime c cfg hint m =
  forallb (miller_rabin_round (mr_context_init c))
          (geodesic_witnesses c cfg hint m ++ standard_witnesses c).
Proof.
  intros Hc Hodd. unfold candidate_is_probable_prime.
  destruct (Z.ltb_spec c 2); [lia|].
  destruct (Z.eqb_spec c 2); [lia|].
  rewrite Hodd. cbv zeta. rewrite forallb_app.
  destruct (forallb _ (geodesic_witnesses c cfg hint m)); cbn [negb andb];
    [|reflexivity].
  destruct (forallb _ (standard_witnesses c)); reflexivity.
Qed.

End RoundFacts.

(** C1.  [candidate_is_probable_prime] is the reference Miller-Rabin
    definition: false below 2, true at 2, false on other even numbers, and
    otherwise true exactly when, for [n - 1 = d * 2^r] with [d] odd, every
    one of the 6 seed-derived witnesses followed by the 8 fixed witnesses
    passes its round ([a^d mod n] is 1 or [n - 1], or one of the next
    [r - 1] squarings is [n - 1]). *)
Theorem candidate_is_probable_prime_reference :
  forall (c : Z) (cfg : option config_t) (hint : Z) (m : bool),
    (candidate_is_probable_prime c cfg hint m = true <->
     reference_probable_prime c
       (geodesic_witnesses c cfg hint m ++ standard_witnesses c))
    /\ length (geodesic_witnesses c cfg hint m) = 6%nat
    /\ length (standard_witnesses c) = 8%nat.
Proof.
  intros c cfg hint m. split; [|split].
  2: apply geodesic_witnesses_length.
  2: rewrite standard_witnesses_eq; reflexivity.
  unfold reference_probable_prime.
  destruct (Z.lt_ge_cases c 2) as [Hlt|Hge].
  { unfold candidate_is_probable_prime.
    destruct (Z.ltb_spec c 2); [|lia]. split; [discriminate|]. lia. }
  destruct (Z.eq_dec c 2) as [->|Hne].
  { split; [intros _; split; [lia|left; reflexivity] | reflexivity]. }
  destruct (Z.even c) eqn:Hev.
  { unfold candidate_is_probable_prime.
    destruct (Z.ltb_spec c 2); [lia|]. destruct (Z.eqb_spec c 2); [lia|].
    rewrite Hev. split; [discriminate|].
    intros (_ & [E | (E & _)]); [contradiction | discriminate]. }
  rewrite candidate_is_probable_prime_odd by (assumption || lia).
  rewrite forallb_forall.
  destruct (mr_context_init_spec c Hge) as (_ & _ & _ & Hdec).
  split.
  - intros Hall. split; [exact Hge|]. right. split; [reflexivity|].
    exists (d (mr_context_init c)), (r (mr_context_init c)).
    split; [exact Hdec|]. apply Forall_forall. intros w Hw.
    apply (miller_rabin_round_spec c w Hge), Hall, Hw.
  - intros (_ & [E | (_ & d' & r' & Hdec' & Hall)]); [contradiction|].
    destruct (odd_decomposition_unique c _ _ _ _ Hdec Hdec') as [Ed Er].
    intros w Hw. apply (miller_rabin_round_spec c w Hge).
    rewrite Ed, Er. rewrite Forall_forall in Hall. apply Hall, Hw.
Qed.

(* ================================================================== *)
(** * Witness range *)

Section WitnessFacts.

Lemma map_witness_into_range_cases (c w : Z) :
  let ctx := mr_context_init c in
  (w < 2 -> map_witness_into_range ctx w = 2)
  /\ (2 <= w < c - 1 -> map_witness_into_range ctx w = w)
  /\ (2 <= w -> c - 1 <= w -> 4 < c ->
      map_witness_into_range ctx w = w mod (c - 3) + 2)
  /\ (c - 3 <= 1 -> map_witness_into_range ctx w = 2).
Proof.
  intro ctx. unfold ctx, map_witness_into_range, mr_context_init.
  cbn [n_minus_1 n_minus_3].
  repeat split; intros;
    destruct (Z.ltb_spec w 2); destruct (Z.leb_spec (c - 1) w);
    destruct (Z.ltb_spec 3 c);
    repeat match goal with
           | |- context [?a <=? ?b] => destruct (Z.leb_spec a b)
           end; lia.
Qed.

Lemma map_witness_into_range_bounds (c w : Z) :
  4 < c -> 2 <= map_witness_into_range (mr_context_init c) w <= c - 2.
Proof.
  intro Hc.
  destruct (map_witness_into_range_cases c w) as (H1 & H2 & H3 & _).
  destruct (Z.lt_ge_cases w 2) as [Hlt|Hge]; [rewrite H1; lia|].
  destruct (Z.lt_ge_cases w (c - 1)) as [Hin|Hout]; [rewrite H2; lia|].
  rewrite H3 by lia.
  pose proof (Z.mod_pos_bound w (c - 3) ltac:(lia)). lia.
Qed.

Lemma geodesic_witnesses_cases c cfg hint m w :
  In w (geodesic_witnesses c cfg hint m) ->
  w = 2 \/ exists z, w = map_witness_into_range (mr_context_init c) z.
Proof.
  unfold geodesic_witnesses, generate_geodesic_witnesses.
  cbn [Nat.eqb MR_GEODESIC_WITNESSES].
  destruct (_ <=? 1).
  { intro H. apply in_app_or in H. destruct H as [H|H].
    - left. apply repeat_spec in H. exact H.
    - cbn in H. contradiction. }
  destruct (negb m).
  { intro H. apply in_app_or in H. destruct H as [H|H].
    - left. apply repeat_spec in H. exact H.
    - cbn in H. contradiction. }
  intro H. apply in_app_or in H. destruct H as [H|H].
  - apply in_map_iff in H. destruct H as (i & <- & _). right. eauto.
  - cbn in H. contradiction.
Qed.

Lemma all_witnesses_range c cfg hint m w :
  4 < c ->
  In w (geodesic_witnesses c cfg hint m ++ standard_witnesses c) ->
  2 <= w <= c - 2.
Proof.
  intros Hc Hin. apply in_app_or in Hin. destruct Hin as [Hg|Hs].
  - apply geodesic_witnesses_cases in Hg. destruct Hg as [->|(z & ->)].
    + lia.
    + apply map_witness_into_range_bounds, Hc.
  - rewrite standard_witnesses_eq in Hs. apply in_map_iff in Hs.
    destruct Hs as (z & <- & _). apply map_witness_into_range_bounds, Hc.
Qed.

Lemma all_witnesses_tiny c cfg hint m w :
  c <= 4 ->
  In w (geodesic_witnesses c cfg hint m ++ standard_witnesses c) ->
  w = 2.
Proof.
  intros Hc Hin.
  assert (Hmap : forall z, map_witness_into_range (mr_context_init c) z = 2).
  { intro z. apply (map_witness_into_range_cases c z). lia. }
  apply in_app_or in Hin. destruct Hin as [Hg|Hs].
  - apply geodesic_witnesses_cases in Hg. destruct Hg as [->|(z & ->)];
      [reflexivity | apply Hmap].
  - rewrite standard_witnesses_eq in Hs. apply in_map_iff in Hs.
    destruct Hs as (z & <- & _). apply Hmap.
Qed.

End WitnessFacts.

(** C2.  For a candidate [n > 4], every witness produced for [n], fixed or
    seed-derived, lies in [2, n - 2].  The range mapping sends [w < 2] to 2,
    leaves [2 <= w < n - 1] alone, folds [w >= n - 1] to
    [w mod (n - 3) + 2], and gives 2 whenever [n - 3 <= 1]. *)
Theorem witness_range_invariant :
  (forall (c : Z) (cfg : option config_t) (hint : Z) (m : bool) (w : Z),
      4 < c ->
      In w (geodesic_witnesses c cfg hint m ++ standard_witnesses c) ->
      2 <= w <= c - 2)
  /\ (forall c w : Z,
         let ctx := mr_context_init c in
         (w < 2 -> map_witness_into_range ctx w = 2)
         /\ (2 <= w < c - 1 -> map_witness_into_range ctx w = w)
         /\ (2 <= w -> c - 1 <= w -> 4 < c ->
             map_witness_into_range ctx w = w mod (c - 3) + 2)
         /\ (c - 3 <= 1 -> map_witness_into_range ctx w = 2)).
Proof.
  split; [|exact map_witness_into_range_cases].
  intros c cfg hint m w Hc Hin. eapply all_witnesses_range; eassumption.
Qed.

Lemma witness_range_invariant_witness :
  2 <= nth 0 (geodesic_witnesses 7 None 5 true) 0 <= 7 - 2.
Proof.
  apply (proj1 witness_range_invariant 7 None 5 true); [lia|].
  apply in_or_app. left. vm_compute. left. reflexivity.
Defined.

(* ================================================================== *)
(** * Primes pass every round *)

Section FermatLittle.

Variable p : Z.
Hypothesis p_prime : Z.prime p.

Let p_gt_1 : 1 < p.
Proof. destruct p_prime; assumption. Qed.

Let units : list Z := map Z.of_nat (seq 1 (Z.to_nat (p - 1))).

Lemma in_units (x : Z) : In x units <-> 1 <= x <= p - 1.
Proof.
  unfold units. rewrite in_map_iff. split.
  - intros (k & <- & Hk). apply in_seq in Hk. lia.
  - intro Hx. exists (Z.to_nat x). split; [lia|]. apply in_seq. lia.
Qed.

Lemma unit_not_divisible (x : Z) : 1 <= x <= p - 1 -> ~ (p | x).
Proof.
  intros Hx Hdiv. apply Z.divide_pos_le in Hdiv; lia.
Qed.

Lemma prime_cancel (a x y : Z) :
  ~ (p | a) -> 1 <= x <= p - 1 -> 1 <= y <= p - 1 ->
  (a * x) mod p = (a * y) mod p -> x = y.
Proof.
  intros Ha Hx Hy E.
  assert (Hdiv : (p | a * (x - y))).
  { apply Z.mod_divide; [lia|].
    rewrite Z.mul_sub_distr_l, Zminus_mod, E, Z.sub_diag.
    apply Z.mod_0_l. lia. }
  apply Z.divide_prime_mul in Hdiv; [|exact p_prime].
  destruct Hdiv as [Hdiv|Hdiv]; [contradiction|].
  destruct (Z.eq_dec x y) as [|Hne]; [assumption|exfalso].
  apply Z.absle_divide in Hdiv; lia.
Qed.

Lemma Zprod_cons (x : Z) (l : list Z) : Zprod (x :: l) = x * Zprod l.
Proof. reflexivity. Qed.

Lemma Zprod_map_scale (a : Z) (l : list Z) :
  Zprod (map (fun x => (a * x) mod p) l) mod p =
  (a ^ Z.of_nat (length l) * Zprod l) mod p.
Proof.
  induction l as [|x l IH].
  - reflexivity.
  - cbn [map length]. rewrite !Zprod_cons.
    rewrite Z.mul_mod_idemp_l by lia.
    rewrite <- Z.mul_mod_idemp_r, IH, Z.mul_mod_idemp_r by lia.
    f_equal. rewrite Nat2Z.inj_succ, Z.pow_succ_r by lia. ring.
Qed.

Lemma Zprod_Permutation (l l' : list Z) :
  Permutation l l' -> Zprod l = Zprod l'.
Proof.
  induction 1; rewrite ?Zprod_cons; try congruence; ring.
Qed.

Lemma Zprod_not_divisible (l : list Z) :
  (forall x, In x l -> ~ (p | x)) -> ~ (p | Zprod l).
Proof.
  induction l as [|x l IH]; intros Hall Hdiv.
  - cbn in Hdiv. apply Z.divide_1_r_nonneg in Hdiv; lia.
  - rewrite Zprod_cons in Hdiv.
    apply Z.divide_prime_mul in Hdiv; [|exact p_prime].
    destruct Hdiv as [Hdiv|Hdiv].
    + apply (Hall x); [left; reflexivity | exact Hdiv].
    + apply IH; [|exact Hdiv]. intros y Hy. apply Hall. right. exact Hy.
Qed.

(** Fermat's little theorem. *)
Lemma fermat_little (a : Z) : ~ (p | a) -> a ^ (p - 1) mod p = 1.
Proof.
  intro Ha.
  set (f := fun x => (a * x) mod p).
  assert (Hincl : incl (map f units) units).
  { intros y Hy. apply in_map_iff in Hy. destruct Hy as (x & <- & Hx).
    apply in_units in Hx. apply in_units. unfold f.
    pose proof (Z.mod_pos_bound (a * x) p ltac:(lia)) as Hb.
    assert ((a * x) mod p <> 0).
    { intro E. apply Z.mod_divide in E; [|lia].
      apply Z.divide_prime_mul in E; [|exact p_prime].
      destruct E as [E|E]; [contradiction|].
      revert E. apply unit_not_divisible, Hx. }
    lia. }
  assert (Hnd : NoDup (map f units)).
  { apply NoDup_map_NoDup_ForallPairs.
    - intros x y Hx Hy E. apply in_units in Hx, Hy.
      apply (prime_cancel a); assumption.
    - unfold units. apply NoDup_map_NoDup_ForallPairs; [|apply seq_NoDup].
      intros x y _ _ E. lia. }
  pose proof (Permutation_map_same_l f Hnd Hincl) as Hperm.
  apply Zprod_Permutation in Hperm.
  pose proof (Zprod_map_scale a units) as Hscale. fold f in Hscale.
  rewrite Hperm in Hscale.
  assert (Hlen : Z.of_nat (length units) = p - 1).
  { unfold units. rewrite length_map, length_seq. lia. }
  rewrite Hlen in Hscale.
  assert (Hdiv : (p | (a ^ (p - 1) - 1) * Zprod units)).
  { apply Z.mod_divide; [lia|].
    rewrite Z.mul_sub_distr_r, Z.mul_1_l, Zminus_mod, <- Hscale, Z.sub_diag.
    apply Z.mod_0_l. lia. }
  apply Z.divide_prime_mul in Hdiv; [|exact p_prime].
  destruct Hdiv as [Hdiv|Hdiv].
  - apply Zdivide_mod_minus; [lia | exact Hdiv].
  - exfalso. revert Hdiv. apply Zprod_not_divisible.
    intros x Hx. apply unit_not_divisible, in_units, Hx.
Qed.

(** Modulo a prime the only square roots of 1 are 1 and [p - 1]. *)
Lemma prime_sqrt_one (x : Z) :
  0 <= x < p -> (x * x) mod p = 1 -> x = 1 \/ x = p - 1.
Proof.
  intros Hx E.
  assert (Hdiv : (p | (x - 1) * (x + 1))).
  { apply Z.mod_divide; [lia|].
    replace ((x - 1) * (x + 1)) with (x * x - 1) by ring.
    rewrite Zminus_mod, E, Z.mod_1_l by lia. reflexivity. }
  apply Z.divide_prime_mul in Hdiv; [|exact p_prime].
  destruct Hdiv as [Hdiv|Hdiv].
  - left. destruct (Z.eq_dec x 1) as [|Hne]; [assumption|exfalso].
    apply Z.absle_divide in Hdiv; lia.
  - right. apply Z.divide_pos_le in Hdiv; lia.
Qed.

(** Every base that [p] does not divide passes its round. *)
Lemma prime_round_passes (dd rr w : Z) :
  odd_decomposition p dd rr -> ~ (p | w) -> round_passes p dd rr w.
Proof.
  intros (Hodd & Hr & Hdec) Hw.
  assert (Hd : 0 <= dd).
  { destruct (Z.lt_ge_cases dd 0); [|assumption].
    pose proof (Z.pow_pos_nonneg 2 rr ltac:(lia) Hr). nia. }
  set (x := fun j : Z => w ^ (dd * 2 ^ j) mod p).
  assert (Hstep : forall j, 0 <= j -> x (j + 1) = (x j * x j) mod p).
  { intros j Hj. unfold x.
    rewrite <- Z.mul_mod by lia. f_equal.
    rewrite <- Z.pow_add_r by (try apply Z.mul_nonneg_nonneg;
                                try apply Z.pow_nonneg; lia).
    f_equal. rewrite Z.pow_add_r, Z.pow_1_r by lia. ring. }
  assert (Hchain : forall k : nat,
             x (Z.of_nat k) = 1 ->
             x 0 = 1 \/ exists i, 0 <= i < Z.of_nat k /\ x i = p - 1).
  { induction k as [|k IH]; intro E.
    - left. exact E.
    - rewrite Nat2Z.inj_succ, <- Z.add_1_r, Hstep in E by lia.
      apply prime_sqrt_one in E;
        [| unfold x; apply Z.mod_pos_bound; lia].
      destruct E as [E|E].
      + destruct (IH E) as [H0|(i & Hi & Ei)]; [left; exact H0|].
        right. exists i. split; [lia|exact Ei].
      + right. exists (Z.of_nat k). split; [lia|exact E]. }
  assert (Hend : x (Z.of_nat (Z.to_nat rr)) = 1).
  { unfold x. rewrite Z2Nat.id, <- Hdec by lia. apply fermat_little, Hw. }
  unfold round_passes. cbv zeta.
  assert (Hx0 : x 0 = w ^ dd mod p).
  { unfold x. rewrite Z.pow_0_r, Z.mul_1_r. reflexivity. }
  destruct (Hchain _ Hend) as [H0|(i & Hi & Ei)].
  - left. rewrite <- Hx0. exact H0.
  - right. destruct (Z.eq_dec i 0) as [->|Hi0].
    + left. rewrite <- Hx0. exact Ei.
    + right. exists i. split; [lia|].
      rewrite Z.mod_pow_l, <- Z.pow_mul_r
        by (try apply Z.pow_nonneg; lia).
      exact Ei.
Qed.

End FermatLittle.

Section PrimesAccepted.

Lemma Zrange_In (len : nat) :
  forall k x : Z, In x (Zrange k len) <-> k <= x < k + Z.of_nat len.
Proof.
  induction len as [|len IH]; intros k x; cbn [Zrange In].
  - lia.
  - rewrite IH. lia.
Qed.

Lemma trial_division_prime (p : Z) : trial_division p = true -> Z.prime p.
Proof.
  unfold trial_division. intro H. apply andb_true_iff in H.
  destruct H as [Hp Hall]. apply Z.leb_le in Hp.
  rewrite forallb_forall in Hall.
  split; [lia|]. intros k Hk [q Hq].
  assert (Hq2 : 2 <= q) by nia.
  assert (Hsmall : exists j, 2 <= j /\ j * j <= p /\ (j | p)).
  { destruct (Z.le_gt_cases k q).
    - exists k. repeat split; [lia | nia | exists q; exact Hq].
    - exists q. repeat split; [lia | nia | exists k; lia]. }
  destruct Hsmall as (j & Hj & Hjj & Hdiv).
  assert (Hin : In j (Zrange 2 (Z.to_nat (Z.sqrt p - 1)))).
  { apply Zrange_In. apply Z.sqrt_le_square in Hjj; lia. }
  specialize (Hall j Hin). apply negb_true_iff, Z.eqb_neq in Hall.
  apply Hall, Z.mod_divide; [lia | exact Hdiv].
Qed.

(** Miller-Rabin never rejects a prime, whatever the seed, the hint and
    the outcome of the allocation. *)
Lemma prime_is_probable_prime (c : Z) cfg hint m :
  Z.prime c -> candidate_is_probable_prime c cfg hint m = true.
Proof.
  intro Hprime. pose proof Hprime as [Hc Hnd].
  destruct (Z.eq_dec c 2) as [->|Hne]; [reflexivity|].
  assert (Hodd : Z.even c = false).
  { destruct (Z.even c) eqn:E; [exfalso | reflexivity].
    apply Z.even_spec in E. destruct E as [q Hq].
    apply (Hnd 2); [lia | exists q; lia]. }
  rewrite candidate_is_probable_prime_odd by (assumption || lia).
  apply forallb_forall. intros w Hw.
  apply (miller_rabin_round_spec c w); [lia|].
  destruct (mr_context_init_spec c ltac:(lia)) as (_ & _ & _ & Hdec).
  apply (prime_round_passes c Hprime); [exact Hdec|].
  assert (Hrange : 2 <= w <= c - 1).
  { destruct (Z.le_gt_cases c 4).
    - apply all_witnesses_tiny in Hw; lia.
    - apply all_witnesses_range in Hw; lia. }
  intro Hdiv. apply Z.divide_pos_le in Hdiv; lia.
Qed.

(** A fixed witness that fails makes the whole check fail. *)
Lemma standard_rejects (c : Z) cfg hint m :
  3 <= c -> Z.even c = false ->
  forallb (miller_rabin_round (mr_context_init c)) (standard_witnesses c)
  = false ->
  candidate_is_probable_prime c cfg hint m = false.
Proof.
  intros Hc Hodd Hstd.
  rewrite candidate_is_probable_prime_odd, forallb_app, Hstd
    by assumption.
  apply andb_false_r.
Qed.

End PrimesAccepted.

(** C6.  Whatever the seed, the hint and the allocation outcome, the check
    rejects 341, 561 and 645 (the fixed witnesses alone already fail on
    them) and accepts the primes 97 and 104729. *)
Theorem known_composites_and_primes :
  forall (cfg : option config_t) (hint : Z) (m : bool),
    candidate_is_probable_prime 341 cfg hint m = false
    /\ candidate_is_probable_prime 561 cfg hint m = false
    /\ candidate_is_probable_prime 645 cfg hint m = false
    /\ candidate_is_probable_prime 97 cfg hint m = true
    /\ candidate_is_probable_prime 104729 cfg hint m = true
    /\ Forall (fun c =>
                 forallb (miller_rabin_round (mr_context_init c))
                         (standard_witnesses c) = false)
              [341; 561; 645].
Proof.
  intros cfg hint m.
  assert (H341 : forallb (miller_rabin_round (mr_context_init 341))
                         (standard_witnesses 341) = false)
    by (vm_compute; reflexivity).
  assert (H561 : forallb (miller_rabin_round (mr_context_init 561))
                         (standard_witnesses 561) = false)
    by (vm_compute; reflexivity).
  assert (H645 : forallb (miller_rabin_round (mr_context_init 645))
                         (standard_witnesses 645) = false)
    by (vm_compute; reflexivity).
  repeat split.
  - apply standard_rejects; [lia | reflexivity | exact H341].
  - apply standard_rejects; [lia | reflexivity | exact H561].
  - apply standard_rejects; [lia | reflexivity | exact H645].
  - apply prime_is_probable_prime, trial_division_prime.
    vm_compute. reflexivity.
  - apply prime_is_probable_prime, trial_division_prime.
    vm_compute. reflexivity.
  - repeat constructor; assumption.
Qed.

(** The check evaluated with the real digests, for a prime and for a
    pseudoprime to base 2. *)
Example probable_prime_97 :
  candidate_is_probable_prime 97 (Some {| seed := zeros 32 |}) 7 true = true.
Proof. vm_compute. reflexivity. Qed.

Example probable_prime_341 :
  candidate_is_probable_prime 341 (Some {| seed := zeros 32 |}) 7 true = false.
Proof. vm_compute. reflexivity. Qed.

(* ================================================================== *)
(** * The sequential candidate search *)

Section SearchFacts.

Variable cfg : option config_t.
Variable malloc_ok : Z -> bool.
Variable max_attempts hint_seed : Z.
Variable too_close_ref : option Z.
Variable enforce_not_too_close : bool.

Lemma even_not_probable_prime (c hint : Z) (m : bool) :
  2 < c -> Z.even c = true -> candidate_is_probable_prime c cfg hint m = false.
Proof.
  intros Hc Hev. unfold candidate_is_probable_prime.
  destruct (Z.ltb_spec c 2); [lia|]. destruct (Z.eqb_spec c 2); [lia|].
  rewrite Hev. reflexivity.
Qed.

(** Whatever is returned was tested at the reported attempt, passed the
    primality check and the proximity test. *)
Lemma search_loop_found limit_bit clamp (iters : nat) :
  forall attempt cand p used,
    search_loop max_attempts cfg hint_seed limit_bit clamp too_close_ref
      enforce_not_too_close malloc_ok iters attempt cand = Found p used ->
    candidate_is_probable_prime p cfg (Z.lxor hint_seed used)
      (malloc_ok used) = true
    /\ not_too_close too_close_ref enforce_not_too_close p = true
    /\ attempt <= used < attempt + Z.of_nat iters.
Proof.
  induction iters as [|iters IH]; intros attempt cand p used H;
    cbn [search_loop] in H; [discriminate|].
  destruct (candidate_is_probable_prime cand cfg _ _ &&
            not_too_close _ _ cand) eqn:Hacc.
  - inversion H; subst. apply andb_true_iff in Hacc.
    destruct Hacc as [Hp Hc]. repeat split; try assumption; lia.
  - destruct ((0 <? limit_bit) && Z.testbit (cand + 2) limit_bit).
    + destruct clamp; [|discriminate].
      apply IH in H. destruct H as (? & ? & ?). repeat split; auto; lia.
    + apply IH in H. destruct H as (? & ? & ?). repeat split; auto; lia.
Qed.

(** A candidate that fails either test is skipped: the search moves to
    the next odd number and goes on (or stops at the width limit). *)
Lemma search_loop_skip limit_bit clamp (iters : nat) attempt cand :
  candidate_is_probable_prime cand cfg (Z.lxor hint_seed attempt)
    (malloc_ok attempt) && not_too_close too_close_ref
                             enforce_not_too_close cand = false ->
  search_loop max_attempts cfg hint_seed limit_bit clamp too_close_ref
    enforce_not_too_close malloc_ok (S iters) attempt cand =
  if (0 <? limit_bit) && Z.testbit (cand + 2) limit_bit then
    if clamp then
      search_loop max_attempts cfg hint_seed limit_bit clamp too_close_ref
        enforce_not_too_close malloc_ok iters (attempt + 1)
        (Z.setbit (Z.clearbit (cand + 2) limit_bit) (limit_bit - 1))
    else NotFound max_attempts
  else
    search_loop max_attempts cfg hint_seed limit_bit clamp too_close_ref
      enforce_not_too_close malloc_ok iters (attempt + 1) (cand + 2).
Proof.
  intro H. cbn [search_loop]. rewrite H. reflexivity.
Qed.

Lemma testbit_false_lt (x k : Z) :
  0 <= k -> 0 <= x < 2 ^ (k + 1) -> Z.testbit x k = false -> x < 2 ^ k.
Proof.
  intros Hk Hx Hbit. apply Z.testbit_false in Hbit; [|exact Hk].
  pose proof (Z.pow_pos_nonneg 2 k ltac:(lia) Hk) as Hpos.
  rewrite Z.pow_add_r, Z.pow_1_r in Hx by lia.
  assert (Hq : 0 <= x / 2 ^ k < 2).
  { split; [apply Z.div_pos; lia|].
    apply Z.div_lt_upper_bound; lia. }
  assert (Hq0 : x / 2 ^ k = 0).
  { destruct (Z.eq_dec (x / 2 ^ k) 0) as [|Hne]; [assumption|].
    assert (E : x / 2 ^ k = 1) by lia. rewrite E in Hbit. discriminate. }
  apply Z.div_small_iff in Hq0; lia.
Qed.

(** Under the stop policy at bit [k], from an origin below [2^k] the
    search only reaches [cand + 2 j] below [2^k]. *)
Lemma search_loop_stop_bound (k : Z) (iters : nat) :
  0 < k ->
  forall attempt cand p used,
    0 <= cand < 2 ^ k ->
    search_loop max_attempts cfg hint_seed k false too_close_ref
      enforce_not_too_close malloc_ok iters attempt cand = Found p used ->
    p = cand + 2 * (used - attempt) /\ attempt <= used /\ p < 2 ^ k.
Proof.
  intro Hk. induction iters as [|iters IH]; intros attempt cand p used Hc H;
    cbn [search_loop] in H; [discriminate|].
  destruct (candidate_is_probable_prime cand cfg _ _ &&
            not_too_close _ _ cand).
  - inversion H; subst. repeat split; lia.
  - destruct (Z.ltb_spec 0 k); [|lia]. cbn [andb] in H.
    destruct (Z.testbit (cand + 2) k) eqn:Hbit; [discriminate|].
    apply IH in H.
    + destruct H as (-> & ? & ?). repeat split; lia.
    + split; [lia|]. apply testbit_false_lt; [lia | | exact Hbit].
      rewrite Z.pow_add_r, Z.pow_1_r by lia.
      pose proof (Z.pow_le_mono_r 2 1 k ltac:(lia) ltac:(lia)). lia.
Qed.

(** Without a width limit, an even origin above 2 never succeeds. *)
Lemma search_loop_even clamp (iters : nat) :
  forall attempt cand,
    2 < cand -> Z.even cand = true ->
    search_loop max_attempts cfg hint_seed 0 clamp too_close_ref
      enforce_not_too_close malloc_ok iters attempt cand =
    NotFound max_attempts.
Proof.
  induction iters as [|iters IH]; intros attempt cand Hc Hev;
    [reflexivity|].
  rewrite search_loop_skip
    by (rewrite even_not_probable_prime by assumption; reflexivity).
  cbn [Z.ltb Z.compare andb]. apply IH; [lia|].
  rewrite Z.even_add, Hev. reflexivity.
Qed.

(** If every candidate below [2^k] from the origin on is rejected by the
    proximity test, the search under the stop policy finds nothing. *)
Lemma search_loop_all_too_close (k : Z) (origin : Z) (iters : nat) :
  0 < k ->
  (forall c, origin <= c < 2 ^ k ->
             not_too_close too_close_ref enforce_not_too_close c = false) ->
  forall attempt cand,
    0 <= cand -> origin <= cand < 2 ^ k ->
    search_loop max_attempts cfg hint_seed k false too_close_ref
      enforce_not_too_close malloc_ok iters attempt cand =
    NotFound max_attempts.
Proof.
  intros Hk Hclose. induction iters as [|iters IH];
    intros attempt cand Hc0 Hc; [reflexivity|].
  rewrite search_loop_skip
    by (rewrite (Hclose cand Hc); apply andb_false_r).
  destruct (Z.ltb_spec 0 k); [|lia]. cbn [andb].
  destruct (Z.testbit (cand + 2) k) eqn:Hbit; [reflexivity|].
  apply IH; [lia|]. split; [lia|].
  apply testbit_false_lt; [lia | | exact Hbit].
  rewrite Z.pow_add_r, Z.pow_1_r by lia.
  pose proof (Z.pow_le_mono_r 2 1 k ltac:(lia) ltac:(lia)). lia.
Qed.

End SearchFacts.

(** C5.  With a reference prime [R] and [enforce_not_too_close] set, a
    prime returned by the search never has the same quotient by [2^1948]
    (the top 100 bits of a 2048-bit number) as [R]; a probable prime that
    has is skipped: the search advances by 2 and goes on as for any
    rejected candidate. *)
Theorem proximity_guard :
  forall (start max_attempts : Z) (cfg : option config_t)
         (hint_seed limit_bit : Z) (clamp : bool) (R : Z) (m : Z -> bool),
    (forall p used,
        search_prime_candidates start max_attempts cfg hint_seed limit_bit
          clamp (Some R) true m = Found p used ->
        p / 2 ^ 1948 <> R / 2 ^ 1948
        /\ candidate_is_probable_prime p cfg (Z.lxor hint_seed used) (m used)
           = true)
    /\ (forall (iters : nat) (attempt cand : Z),
           cand / 2 ^ 1948 = R / 2 ^ 1948 ->
           search_loop max_attempts cfg hint_seed limit_bit clamp (Some R)
             true m (S iters) attempt cand =
           if (0 <? limit_bit) && Z.testbit (cand + 2) limit_bit then
             if clamp then
               search_loop max_attempts cfg hint_seed limit_bit clamp
                 (Some R) true m iters (attempt + 1)
                 (Z.setbit (Z.clearbit (cand + 2) limit_bit) (limit_bit - 1))
             else NotFound max_attempts
           else
             search_loop max_attempts cfg hint_seed limit_bit clamp (Some R)
               true m iters (attempt + 1) (cand + 2)).
Proof.
  intros start max_attempts cfg hint_seed limit_bit clamp R m. split.
  - intros p used H. unfold search_prime_candidates in H.
    destruct (max_attempts =? 0); [discriminate|].
    apply search_loop_found in H. destruct H as (Hp & Hc & _).
    split; [|exact Hp].
    unfold not_too_close, x931_too_close_2048 in Hc. cbn [negb orb] in Hc.
    apply negb_true_iff, Z.eqb_neq in Hc.
    rewrite !Z.shiftr_div_pow2 in Hc by lia.
    intro E. apply Hc. symmetry. exact E.
  - intros iters attempt cand Hclose. apply search_loop_skip.
    unfold not_too_close, x931_too_close_2048. cbn [negb orb].
    rewrite !Z.shiftr_div_pow2 by lia.
    change (2048 - 100) with 1948. rewrite Hclose, Z.eqb_refl.
    apply andb_false_r.
Qed.

Lemma proximity_guard_witness :
  101 / 2 ^ 1948 <> 2 ^ 2047 / 2 ^ 1948
  /\ candidate_is_probable_prime 101 None (Z.lxor 0 0) true = true.
Proof.
  apply (proj1 (proximity_guard 101 10 None 0 0 false (2 ^ 2047)
                                (fun _ => true)) 101 0).
  vm_compute. reflexivity.
Defined.

(** C7 (as the code has it).  The search does not make its origin odd: from
    100 with 10 attempts and no width limit it tests the even numbers 100
    to 118 and finds nothing, leaving [attempts_used = 10]; from the origin
    made odd, 101, it returns 101 at attempt 0. *)
Theorem search_from_100 :
  forall (cfg : option config_t) (hint_seed : Z) (clamp enforce : bool)
         (m : Z -> bool),
    search_prime_candidates 101 10 cfg hint_seed 0 clamp None enforce m
    = Found 101 0
    /\ search_prime_candidates 100 10 cfg hint_seed 0 clamp None enforce m
       = NotFound 10.
Proof.
  intros cfg hint_seed clamp enforce m. split.
  - unfold search_prime_candidates. cbn [Z.eqb].
    change (Z.to_nat 10) with 10%nat. cbn [search_loop].
    rewrite prime_is_probable_prime
      by (apply trial_division_prime; vm_compute; reflexivity).
    unfold not_too_close. rewrite orb_true_r. reflexivity.
  - unfold search_prime_candidates. cbn [Z.eqb].
    apply search_loop_even; [lia | reflexivity].
Qed.

(** The claim as it stands fails: from 100 the search reports no prime. *)
Lemma search_from_100_counterexample :
  search_prime_candidates 100 10 None 0 0 false None false (fun _ => true)
  = NotFound 10
  /\ ~ (exists attempts_used,
           search_prime_candidates 100 10 None 0 0 false None false
             (fun _ => true) = Found 101 attempts_used).
Proof.
  assert (H : search_prime_candidates 100 10 None 0 0 false None false
                (fun _ => true) = NotFound 10) by (vm_compute; reflexivity).
  split; [exact H|]. intros (a & Ha). rewrite H in Ha. discriminate.
Qed.

(* ================================================================== *)
(** * The guided search *)

Section BitFacts.

Lemma testbit_true_ge (x k : Z) :
  0 <= x -> 0 <= k -> Z.testbit x k = true -> 2 ^ k <= x.
Proof.
  intros Hx Hk Hbit. destruct (Z.le_gt_cases (2 ^ k) x) as [|Hlt];
    [assumption|exfalso].
  destruct (Z.eq_dec x 0) as [->|Hne].
  - rewrite Z.bits_0 in Hbit. discriminate.
  - apply Z.log2_lt_pow2 in Hlt; [|lia].
    rewrite Z.bits_above_log2 in Hbit by assumption. discriminate.
Qed.

Lemma setbit_below (a j k : Z) :
  0 <= j < k -> 0 <= a < 2 ^ k -> 0 <= Z.setbit a j < 2 ^ k.
Proof.
  intros Hj Ha. rewrite Z.setbit_spec'.
  pose proof (Z.pow_pos_nonneg 2 j ltac:(lia) ltac:(lia)) as Hpj.
  assert (Hnn : 0 <= Z.lor a (2 ^ j)) by (apply Z.lor_nonneg; lia).
  split; [exact Hnn|].
  assert (Hpos : 0 < Z.lor a (2 ^ j)).
  { destruct (Z.eq_dec (Z.lor a (2 ^ j)) 0) as [E|]; [|lia].
    apply Z.lor_eq_0_iff in E. lia. }
  apply Z.log2_lt_pow2; [exact Hpos|].
  rewrite Z.log2_lor, Z.log2_pow2 by lia.
  apply Z.max_lub_lt; [|lia].
  destruct (Z.eq_dec a 0) as [->|]; [cbn; lia|].
  apply Z.log2_lt_pow2; lia.
Qed.

Lemma ulong_double_even (x : Z) : Z.even (ulong (2 * x)) = true.
Proof.
  unfold ulong. change (2 ^ 64) with (2 * 2 ^ 63).
  rewrite Z.mul_mod_distr_l by lia. apply Z.even_mul.
Qed.

Lemma ulong_range (x : Z) : 0 <= ulong x < 2 ^ 64.
Proof. apply Z.mod_pos_bound. lia. Qed.

Lemma modulus_2048_eq : modulus_2048 = 2 ^ 2048.
Proof. reflexivity. Qed.

(** The folded origin: below [2^2048], bit 2047 and bit 0 set. *)
Lemma base_start_range (e : Z) :
  2 ^ 2047 <= base_start e < 2 ^ 2048 /\ Z.odd (base_start e) = true.
Proof.
  unfold base_start. rewrite modulus_2048_eq.
  pose proof (Z.mod_pos_bound e (2 ^ 2048) ltac:(lia)) as H0.
  pose proof (setbit_below (e mod 2 ^ 2048) 2047 2048 ltac:(lia) H0) as H1.
  pose proof (Z.setbit_eq (e mod 2 ^ 2048) 2047 ltac:(lia)) as Hb.
  set (b := Z.setbit (e mod 2 ^ 2048) 2047) in *.
  destruct (Z.testbit b 0) eqn:Hb0; cbn [negb].
  - split; [split; [apply testbit_true_ge; [lia | lia | exact Hb] | lia]|].
    rewrite <- Z.bit0_odd. exact Hb0.
  - pose proof (setbit_below b 0 2048 ltac:(lia) H1) as H2.
    split; [split; [|lia]|].
    + apply testbit_true_ge; [lia | lia |].
      rewrite Z.setbit_neq by lia. exact Hb.
    + rewrite <- Z.bit0_odd. apply Z.setbit_eq. lia.
Qed.

End BitFacts.

Section GuidedFacts.

Variable estimated_start : Z.
Variable max_attempts : Z.
Variable cfg : option config_t.
Variable hint_seed : Z.
Variable too_close_ref : option Z.
Variable enforce_not_too_close : bool.
Variable malloc_ok : Z -> bool.

Let base := base_start estimated_start.
Let call_ok := call_ok estimated_start.

Lemma segment_for_range (cs rem : Z) :
  0 < rem < 2 ^ 64 -> cs < modulus_2048 ->
  1 <= segment_for cs rem <= rem.
Proof.
  intros Hrem Hcs. unfold segment_for.
  destruct (_ <=? _); [|lia].
  pose proof (ulong_range (modulus_2048 - cs)) as Hu.
  assert (0 <= ulong (modulus_2048 - cs) / 2) by (apply Z.div_pos; lia).
  destruct (Z.eqb_spec (ulong (modulus_2048 - cs) / 2) 0);
    match goal with |- context [?a <? ?b] => destruct (Z.ltb_spec a b) end;
    lia.
Qed.

Lemma origin_odd (off : Z) : Z.odd (base + ulong (2 * off)) = true.
Proof.
  rewrite Z.odd_add, <- (Z.negb_even (ulong _)), ulong_double_even.
  unfold base.
  destruct (base_start_range estimated_start) as [_ ->]. reflexivity.
Qed.

Lemma guided_loop_invariant (fuel : nat) :
  forall cs rem off calls,
    0 <= rem < 2 ^ 64 -> rem < Z.of_nat fuel ->
    cs = base + ulong (2 * off) ->
    Forall call_ok calls ->
    exists res calls',
      guided_loop estimated_start max_attempts cfg hint_seed too_close_ref
        enforce_not_too_close malloc_ok fuel cs rem off calls
      = Some (res, calls')
      /\ Forall call_ok calls' /\ result_ok res.
Proof.
  assert (Hnf : forall a, result_ok (NotFound a)).
  { intros a p used H. discriminate H. }
  induction fuel as [|fuel IH]; intros cs rem off calls Hrem Hfuel Hcs Hcalls;
    [lia|].
  cbn [guided_loop]. destruct (Z.ltb_spec 0 rem) as [Hpos|Hzero];
    [|eauto using Hnf].
  destruct (Z.leb_spec (modulus_2048 - cs) 0) as [Hpast|Hin];
    [eauto using Hnf|].
  pose proof (segment_for_range cs rem ltac:(lia) ltac:(lia)) as Hseg.
  set (seg := segment_for cs rem) in *.
  destruct (base_start_range estimated_start) as [Hb _]. fold base in Hb.
  pose proof (ulong_range (2 * off)) as Hu.
  rewrite modulus_2048_eq in Hin.
  assert (Hcall : call_ok {| origin := cs; offset_at_call := off |}).
  { unfold call_ok, CandidateSearch.call_ok. cbn [origin offset_at_call].
    fold base. repeat split; try lia.
    rewrite Hcs. apply origin_odd. }
  assert (Hcalls' : Forall call_ok
                      (calls ++ [{| origin := cs; offset_at_call := off |}])).
  { apply Forall_app. split; [exact Hcalls|]. constructor; [exact Hcall|].
    constructor. }
  destruct (search_prime_candidates cs seg cfg _ 2048 false _ _ _)
    as [p used|a] eqn:Hsearch.
  - eexists _, _. split; [reflexivity|]. split; [exact Hcalls'|].
    intros p' used' E. inversion E; subst p'. clear E.
    unfold search_prime_candidates in Hsearch.
    destruct (Z.eqb_spec seg 0); [discriminate|].
    apply search_loop_stop_bound in Hsearch; [|lia|lia].
    destruct Hsearch as (Hp & Hused & Hlt).
    split; [lia|]. rewrite Hp, Z.sub_0_r, Z.odd_add.
    rewrite Z.odd_mul. cbn [Z.odd andb]. rewrite Hcs, origin_odd.
    reflexivity.
  - assert (Hrem' : ulong (rem - seg) = rem - seg).
    { unfold ulong. apply Z.mod_small. lia. }
    rewrite Hrem'.
    destruct (Z.eqb_spec (rem - seg) 0); [eauto using Hnf|].
    match goal with
    | |- context [modulus_2048 <=? ?x] =>
        destruct (Z.leb_spec modulus_2048 x); [eauto using Hnf|]
    end.
    apply IH; [lia | lia | reflexivity | exact Hcalls'].
Qed.

(** One iteration that finds nothing and goes on. *)
Lemma guided_loop_continue fuel cs rem off calls a :
  0 < rem -> cs < modulus_2048 ->
  search_prime_candidates cs (segment_for cs rem) cfg
    (ulong (hint_seed + off)) 2048 false too_close_ref
    enforce_not_too_close (fun k => malloc_ok (off + k)) = NotFound a ->
  ulong (rem - segment_for cs rem) <> 0 ->
  base + ulong (2 * ulong (off + segment_for cs rem)) < modulus_2048 ->
  guided_loop estimated_start max_attempts cfg hint_seed too_close_ref
    enforce_not_too_close malloc_ok (S fuel) cs rem off calls =
  guided_loop estimated_start max_attempts cfg hint_seed too_close_ref
    enforce_not_too_close malloc_ok fuel
    (base + ulong (2 * ulong (off + segment_for cs rem)))
    (ulong (rem - segment_for cs rem))
    (ulong (off + segment_for cs rem))
    (calls ++ [{| origin := cs; offset_at_call := off |}]).
Proof.
  intros Hrem Hcs Hsearch Hleft Hnext. cbn [guided_loop].
  destruct (Z.ltb_spec 0 rem); [|lia].
  destruct (Z.leb_spec (modulus_2048 - cs) 0); [lia|].
  rewrite Hsearch.
  destruct (Z.eqb_spec (ulong (rem - segment_for cs rem)) 0);
    [contradiction|].
  fold base.
  match goal with
  | |- context [modulus_2048 <=? ?x] =>
      destruct (Z.leb_spec modulus_2048 x); [lia|]
  end.
  reflexivity.
Qed.

(** One iteration that finds nothing and uses up the budget. *)
Lemma guided_loop_exhausted fuel cs rem off calls a :
  0 < rem -> cs < modulus_2048 ->
  search_prime_candidates cs (segment_for cs rem) cfg
    (ulong (hint_seed + off)) 2048 false too_close_ref
    enforce_not_too_close (fun k => malloc_ok (off + k)) = NotFound a ->
  ulong (rem - segment_for cs rem) = 0 ->
  guided_loop estimated_start max_attempts cfg hint_seed too_close_ref
    enforce_not_too_close malloc_ok (S fuel) cs rem off calls =
  Some (NotFound max_attempts,
        calls ++ [{| origin := cs; offset_at_call := off |}]).
Proof.
  intros Hrem Hcs Hsearch Hleft. cbn [guided_loop].
  destruct (Z.ltb_spec 0 rem); [|lia].
  destruct (Z.leb_spec (modulus_2048 - cs) 0); [lia|].
  rewrite Hsearch, Hleft. reflexivity.
Qed.

End GuidedFacts.

(** X1.  The invariants of the guided search, for every input: the loop ends
    within its bound; every origin it searches from is odd, has bit 2047 set
    and lies below [2^2048]; so does any prime it returns. *)
Theorem guided_search_invariants :
  forall (estimated_start max_attempts : Z) (cfg : option config_t)
         (hint_seed : Z) (too_close_ref : option Z) (enforce : bool)
         (m : Z -> bool),
    0 <= max_attempts < 2 ^ 64 ->
    exists res calls,
      guided_run estimated_start max_attempts cfg hint_seed too_close_ref
        enforce m = Some (res, calls)
      /\ Forall (call_ok estimated_start) calls
      /\ result_ok res.
Proof.
  intros e ma cfg h ref enf m Hma. unfold guided_run.
  apply guided_loop_invariant; [lia | lia | | constructor].
  rewrite Z.mul_0_r. unfold ulong. rewrite Z.mod_0_l by lia. lia.
Qed.

Lemma guided_search_invariants_witness :
  exists res calls,
    guided_run 1000 3 None 0 None false (fun _ => true) = Some (res, calls)
    /\ Forall (call_ok 1000) calls
    /\ result_ok res.
Proof.
  apply guided_search_invariants. lia.
Defined.

Section GuidedOffsets.

Variable estimated_start : Z.
Variable max_attempts : Z.
Variable cfg : option config_t.
Variable hint_seed : Z.
Variable too_close_ref : option Z.
Variable enforce : bool.
Variable malloc_ok : Z -> bool.

(** The cumulative offset at a call is below the budget. *)
Let offset_ok (c : segment_call) : Prop :=
  0 <= offset_at_call c < max_attempts.

(** [offset] and [remaining] add up to the budget, so neither
    [offset += segment] nor [remaining -= segment] wraps. *)
Lemma guided_loop_offsets (fuel : nat) :
  max_attempts < 2 ^ 64 ->
  forall cs rem off calls,
    0 <= off -> 0 <= rem -> off + rem = max_attempts ->
    Forall offset_ok calls ->
    match guided_loop estimated_start max_attempts cfg hint_seed
            too_close_ref enforce malloc_ok fuel cs rem off calls with
    | Some (_, calls') => Forall offset_ok calls'
    | None => True
    end.
Proof.
  intro Hmax. induction fuel as [|fuel IH];
    intros cs rem off calls Hoff Hrem Hsum Hcalls; [exact I|].
  cbn [guided_loop]. destruct (Z.ltb_spec 0 rem) as [Hpos|]; [|exact Hcalls].
  destruct (Z.leb_spec (modulus_2048 - cs) 0) as [|Hin]; [exact Hcalls|].
  pose proof (segment_for_range estimated_start cs rem ltac:(lia)
                ltac:(lia)) as Hseg.
  set (seg := segment_for cs rem) in *.
  assert (Hcalls' : Forall offset_ok
                      (calls ++ [{| origin := cs; offset_at_call := off |}])).
  { apply Forall_app. split; [exact Hcalls|]. constructor; [|constructor].
    unfold offset_ok. cbn [offset_at_call]. lia. }
  destruct (search_prime_candidates cs seg cfg _ 2048 false _ _ _)
    as [p used|a]; [exact Hcalls'|].
  assert (Hrem' : ulong (rem - seg) = rem - seg).
  { unfold ulong. apply Z.mod_small. lia. }
  assert (Hoff' : ulong (off + seg) = off + seg).
  { unfold ulong. apply Z.mod_small. lia. }
  rewrite Hrem', Hoff'.
  destruct (Z.eqb_spec (rem - seg) 0); [exact Hcalls'|].
  match goal with
  | |- context [modulus_2048 <=? ?x] =>
      destruct (Z.leb_spec modulus_2048 x); [exact Hcalls'|]
  end.
  apply IH; [lia | lia | lia | exact Hcalls'].
Qed.

End GuidedOffsets.

(** The folded start: [estimated_start mod 2^2048] with bit 2047 and bit 0
    set. *)
Lemma base_start_bits (e : Z) :
  base_start e = Z.setbit (Z.setbit (e mod 2 ^ 2048) 2047) 0.
Proof.
  unfold base_start. rewrite modulus_2048_eq.
  set (b := Z.setbit (e mod 2 ^ 2048) 2047).
  destruct (Z.testbit b 0) eqn:Hb0; cbn [negb]; [|reflexivity].
  apply Z.bits_inj'. intros n Hn. rewrite Z.setbit_eqb by lia.
  destruct (Z.eqb_spec 0 n) as [<-|]; [rewrite Hb0|]; reflexivity.
Qed.

(** C4 (as amended).  For every [estimated_start], seed, hint and attempt
    budget in the [unsigned long] range the guided search ends; the folded
    start is [estimated_start mod 2^2048] with bit 2047 and bit 0 set; every
    origin it searches from, and any prime it returns, is odd, has bit 2047
    set and lies below [2^2048].  For every budget up to [2^63] (the only
    call in the program passes 5000) the cumulative offset stays below the
    budget and the origin of every segment is exactly the folded start plus
    twice the cumulative offset: nothing wraps. *)
Theorem guided_search_origins :
  forall (estimated_start max_attempts : Z) (cfg : option config_t)
         (hint_seed : Z) (too_close_ref : option Z) (enforce : bool)
         (m : Z -> bool),
    0 <= max_attempts < 2 ^ 64 ->
    base_start estimated_start
    = Z.setbit (Z.setbit (estimated_start mod 2 ^ 2048) 2047) 0
    /\ exists res calls,
         guided_run estimated_start max_attempts cfg hint_seed too_close_ref
           enforce m = Some (res, calls)
         /\ Forall (call_ok estimated_start) calls
         /\ result_ok res
         /\ (max_attempts <= 2 ^ 63 ->
             Forall (fun c =>
                       0 <= offset_at_call c < max_attempts
                       /\ origin c
                          = base_start estimated_start
                            + 2 * offset_at_call c) calls).
Proof.
  intros e ma cfg h ref enf m Hma. split; [apply base_start_bits|].
  assert (Hb : base_start e = base_start e + ulong (2 * 0)).
  { rewrite Z.mul_0_r. unfold ulong. rewrite Z.mod_0_l by lia. lia. }
  destruct (guided_loop_invariant e ma cfg h ref enf m
              (S (Z.to_nat ma)) (base_start e) ma 0 []
              ltac:(lia) ltac:(lia) Hb ltac:(constructor))
    as (res & calls & Hrun & Hcalls & Hres).
  pose proof (guided_loop_offsets e ma cfg h ref enf m (S (Z.to_nat ma))
                ltac:(lia) (base_start e) ma 0 [] ltac:(lia) ltac:(lia)
                ltac:(lia) ltac:(constructor)) as Ho.
  rewrite Hrun in Ho. unfold guided_run. rewrite Hrun.
  exists res, calls. split; [reflexivity|]. split; [exact Hcalls|].
  split; [exact Hres|]. intro H63.
  rewrite Forall_forall in *. intros c Hc.
  specialize (Ho c Hc). destruct (Hcalls c Hc) as (_ & _ & Horigin).
  split; [exact Ho|]. rewrite Horigin. f_equal.
  unfold ulong. apply Z.mod_small. lia.
Qed.

Lemma guided_search_origins_witness :
  base_start 1000 = Z.setbit (Z.setbit (1000 mod 2 ^ 2048) 2047) 0
  /\ exists res calls,
       guided_run 1000 5000 None 0 None false (fun _ => true)
       = Some (res, calls)
       /\ Forall (call_ok 1000) calls
       /\ result_ok res
       /\ (5000 <= 2 ^ 63 ->
           Forall (fun c =>
                     0 <= offset_at_call c < 5000
                     /\ origin c = base_start 1000 + 2 * offset_at_call c)
                  calls).
Proof.
  apply guided_search_origins. lia.
Defined.

Section OffsetWrap.

Variable cfg : option config_t.
Variable hint_seed : Z.
Variable malloc_ok : Z -> bool.

(** An origin [2^64 - 1] below the boundary, the largest budget, and a
    reference that shares its top 100 bits with every number from the
    origin up to the boundary. *)
Let B : Z := 2 ^ 2048 - 2 ^ 64 + 1.
Let M : Z := 2 ^ 64 - 1.
Let R : Z := 2 ^ 2048 - 1.

Lemma window_too_close (c : Z) :
  B <= c < 2 ^ 2048 -> not_too_close (Some R) true c = false.
Proof.
  intro Hc. unfold not_too_close, x931_too_close_2048. cbn [negb orb].
  apply negb_false_iff, Z.eqb_eq.
  rewrite !Z.shiftr_div_pow2 by lia. change (2048 - 100) with 1948.
  assert (Hq : forall x, B <= x < 2 ^ 2048 -> x / 2 ^ 1948 = 2 ^ 100 - 1).
  { intros x Hx. unfold B in Hx.
    assert (2 ^ 100 - 1 <= x / 2 ^ 1948)
      by (apply Z.div_le_lower_bound; lia).
    assert (x / 2 ^ 1948 < 2 ^ 100)
      by (apply Z.div_lt_upper_bound; lia).
    lia. }
  rewrite (Hq c Hc), (Hq R) by (unfold R, B; lia). reflexivity.
Qed.

Lemma window_search (cs seg hint : Z) (m : Z -> bool) :
  B <= cs < 2 ^ 2048 ->
  search_prime_candidates cs seg cfg hint 2048 false (Some R) true m
  = NotFound seg.
Proof.
  intro Hcs. unfold search_prime_candidates.
  destruct (seg =? 0); [reflexivity|].
  apply (search_loop_all_too_close cfg m seg hint (Some R) true 2048 B);
    [lia | exact window_too_close | unfold B in Hcs; lia | exact Hcs].
Qed.

Lemma offset_wrap_run :
  guided_run B M cfg hint_seed (Some R) true malloc_ok =
  Some (NotFound M,
        [ {| origin := B; offset_at_call := 0 |};
          {| origin := 2 ^ 2048 - 1; offset_at_call := 2 ^ 63 - 1 |};
          {| origin := B; offset_at_call := 2 ^ 63 |} ]).
Proof.
  assert (Hbase : base_start B = B) by (vm_compute; reflexivity).
  assert (E1 : segment_for B M = 2 ^ 63 - 1) by (vm_compute; reflexivity).
  assert (E2 : segment_for (2 ^ 2048 - 1) (2 ^ 63) = 1)
    by (vm_compute; reflexivity).
  assert (E3 : segment_for B (2 ^ 63 - 1) = 2 ^ 63 - 1)
    by (vm_compute; reflexivity).
  unfold guided_run.
  replace (S (Z.to_nat M)) with (S (S (S (Z.to_nat (M - 2)))))
    by (unfold M; lia).
  rewrite Hbase.
  (* first segment: 2^63 - 1 attempts from B *)
  rewrite (guided_loop_continue B M cfg hint_seed (Some R) true malloc_ok
             _ B M 0 [] (segment_for B M));
    [ | unfold M; lia | vm_compute; reflexivity
      | apply window_search; unfold B; lia
      | rewrite E1; vm_compute; discriminate
      | rewrite E1, Hbase; vm_compute; reflexivity ].
  rewrite E1, Hbase.
  replace (B + ulong (2 * ulong (0 + (2 ^ 63 - 1)))) with (2 ^ 2048 - 1)
    by (vm_compute; reflexivity).
  replace (ulong (M - (2 ^ 63 - 1))) with (2 ^ 63)
    by (vm_compute; reflexivity).
  replace (ulong (0 + (2 ^ 63 - 1))) with (2 ^ 63 - 1)
    by (vm_compute; reflexivity).
  (* second segment: the single attempt at 2^2048 - 1 *)
  rewrite (guided_loop_continue B M cfg hint_seed (Some R) true malloc_ok
             _ (2 ^ 2048 - 1) (2 ^ 63) (2 ^ 63 - 1) _
             (segment_for (2 ^ 2048 - 1) (2 ^ 63)));
    [ | lia | vm_compute; reflexivity
      | apply window_search; unfold B; lia
      | rewrite E2; vm_compute; discriminate
      | rewrite E2, Hbase; vm_compute; reflexivity ].
  rewrite E2, Hbase.
  (* twice the offset 2^63 is 0 as an unsigned long: back to B *)
  replace (B + ulong (2 * ulong (2 ^ 63 - 1 + 1))) with B
    by (vm_compute; reflexivity).
  replace (ulong (2 ^ 63 - 1)) with (2 ^ 63 - 1)
    by (vm_compute; reflexivity).
  replace (ulong (2 ^ 63 - 1 + 1)) with (2 ^ 63)
    by (vm_compute; reflexivity).
  (* third segment: the same 2^63 - 1 candidates again *)
  rewrite (guided_loop_exhausted B M cfg hint_seed (Some R) true malloc_ok
             _ B (2 ^ 63 - 1) (2 ^ 63) _ (segment_for B (2 ^ 63 - 1)));
    [ | lia | vm_compute; reflexivity
      | apply window_search; unfold B; lia
      | rewrite E3; vm_compute; reflexivity ].
  reflexivity.
Qed.

End OffsetWrap.

(** The claim as it stands fails for a budget above [2^63].  From the
    origin [2^2048 - 2^64 + 1], with the budget [2^64 - 1] and every
    candidate of the window rejected by the proximity test, the guided
    search makes three calls.  After the second the cumulative offset is
    [2^63]; twice that is 0 in [unsigned long], so the third call starts
    again from the folded start, while the folded start plus twice the
    offset is past [2^2048]. *)
Lemma guided_search_offset_wraps :
  guided_run (2 ^ 2048 - 2 ^ 64 + 1) (2 ^ 64 - 1) None 0
    (Some (2 ^ 2048 - 1)) true (fun _ => true) =
  Some (NotFound (2 ^ 64 - 1),
        [ {| origin := 2 ^ 2048 - 2 ^ 64 + 1; offset_at_call := 0 |};
          {| origin := 2 ^ 2048 - 1; offset_at_call := 2 ^ 63 - 1 |};
          {| origin := 2 ^ 2048 - 2 ^ 64 + 1; offset_at_call := 2 ^ 63 |} ])
  /\ ~ Forall (fun c => origin c
                        = base_start (2 ^ 2048 - 2 ^ 64 + 1)
                          + 2 * offset_at_call c)
         [ {| origin := 2 ^ 2048 - 2 ^ 64 + 1; offset_at_call := 0 |};
           {| origin := 2 ^ 2048 - 1; offset_at_call := 2 ^ 63 - 1 |};
           {| origin := 2 ^ 2048 - 2 ^ 64 + 1; offset_at_call := 2 ^ 63 |} ]
  /\ 2 ^ 2048 <= base_start (2 ^ 2048 - 2 ^ 64 + 1) + 2 * 2 ^ 63.
Proof.
  assert (Hbase : base_start (2 ^ 2048 - 2 ^ 64 + 1) = 2 ^ 2048 - 2 ^ 64 + 1)
    by (vm_compute; reflexivity).
  split; [apply offset_wrap_run|]. rewrite Hbase. split; [|lia].
  intro H. rewrite Forall_forall in H.
  specialize (H {| origin := 2 ^ 2048 - 2 ^ 64 + 1;
                   offset_at_call := 2 ^ 63 |}
                ltac:(right; right; left; reflexivity)).
  cbn [origin offset_at_call] in H. lia.
Qed.

(* ================================================================== *)
(** * Seed generation *)

Section SeedGenFacts.

Lemma xor_into_spec (count : nat) :
  forall a dg rest : list byte,
    length a = count -> length dg = count ->
    xor_into count (a ++ rest) dg = xor_bytes a dg ++ rest.
Proof.
  induction count as [|count IH]; intros a dg rest Ha Hd.
  - destruct a; [|discriminate]. destruct dg; [|discriminate].
    destruct rest; reflexivity.
  - destruct a as [|x a]; [discriminate|].
    destruct dg as [|y dg]; [discriminate|].
    cbn [app xor_into]. rewrite IH by (cbn in *; lia). reflexivity.
Qed.

Lemma xor_bytes_involutive (a dg : list byte) :
  length a = length dg -> xor_bytes (xor_bytes a dg) dg = a.
Proof.
  revert dg; induction a as [|x a IH]; intros [|y dg] H;
    try discriminate; [reflexivity|].
  unfold xor_bytes in *. cbn [combine map fst snd].
  rewrite byte_xor_involutive. f_equal. apply IH. cbn in H. lia.
Qed.

Lemma mixing_succeeds_dec (w : os_world) :
  mixing_succeeds w \/
  (md_ctx_new w = false \/ digest_init w = false
   \/ digest_update_seed w = false \/ digest_update_mix w = false
   \/ digest_final w = false \/ digest_len_out w < 32).
Proof.
  unfold mixing_succeeds.
  destruct (md_ctx_new w), (digest_init w), (digest_update_seed w),
    (digest_update_mix w), (digest_final w);
    destruct (Z.lt_ge_cases (digest_len_out w) 32); intuition lia.
Qed.

Lemma full_read_dec (w : os_world) : full_read w \/ ~ full_read w.
Proof.
  unfold full_read. destruct (urandom_data w) as [l|].
  - destruct (Nat.le_gt_cases SEED_SIZE (length l)) as [H|H].
    + left. eauto.
    + right. intros (l' & E & Hl). inversion E; subst. lia.
  - right. intros (l' & E & _). discriminate.
Qed.

(** The run of [z_generate_seed] on a buffer, case by case. *)
Lemma z_generate_seed_cases (buf : list byte) (w : os_world) :
  (urandom_fd w < 0 /\
   z_generate_seed (Some buf) w = (ZSEED_ERR_ENTROPY_UNAVAIL, Some buf))
  \/ (source_opened w /\ urandom_data w = None /\
      z_generate_seed (Some buf) w = (ZSEED_ERR_READ_FAILURE, Some buf))
  \/ (exists l, source_opened w /\ urandom_data w = Some l /\
        (length l < SEED_SIZE)%nat /\
        z_generate_seed (Some buf) w =
        (ZSEED_ERR_READ_FAILURE, Some (memcpy buf 0 (firstn SEED_SIZE l))))
  \/ (exists l, source_opened w /\ urandom_data w = Some l /\
        (SEED_SIZE <= length l)%nat /\ ~ mixing_succeeds w /\
        z_generate_seed (Some buf) w =
        (ZSEED_ERR_CRYPTO_FAILURE,
         Some (memcpy buf 0 (firstn SEED_SIZE l))))
  \/ (exists l, source_opened w /\ urandom_data w = Some l /\
        (SEED_SIZE <= length l)%nat /\ mixing_succeeds w /\
        z_generate_seed (Some buf) w =
        (ZSEED_OK,
         Some (xor_bytes (firstn SEED_SIZE l)
                 (SHA256 (firstn SEED_SIZE l ++ mix_input w))
                 ++ skipn SEED_SIZE buf))).
Proof.
  unfold z_generate_seed, source_opened.
  destruct (Z.ltb_spec (urandom_fd w) 0) as [Hfd|Hfd]; [left; auto|right].
  destruct (urandom_data w) as [l|] eqn:Hdata; [right|left; auto].
  assert (Hgot : length (firstn SEED_SIZE l) = Nat.min SEED_SIZE (length l))
    by apply length_firstn.
  destruct (Nat.le_gt_cases SEED_SIZE (length l)) as [Hfull|Hshort].
  2:{ left. exists l. repeat split; auto.
      destruct (Z.eqb_spec (Z.of_nat (length (firstn SEED_SIZE l)))
                           (Z.of_nat SEED_SIZE)); [lia|reflexivity]. }
  right.
  destruct (Z.eqb_spec (Z.of_nat (length (firstn SEED_SIZE l)))
                       (Z.of_nat SEED_SIZE)); [|lia].
  cbn [negb].
  assert (Hbuf : memcpy buf 0 (firstn SEED_SIZE l) =
                 firstn SEED_SIZE l ++ skipn SEED_SIZE buf).
  { unfold memcpy. cbn [firstn app Nat.add]. rewrite Hgot.
    replace (Nat.min SEED_SIZE (length l)) with SEED_SIZE by lia.
    reflexivity. }
  assert (Hpre : firstn SEED_SIZE (memcpy buf 0 (firstn SEED_SIZE l)) =
                 firstn SEED_SIZE l).
  { rewrite Hbuf, firstn_app, Hgot.
    replace (SEED_SIZE - Nat.min SEED_SIZE (length l))%nat with O by lia.
    rewrite firstn_O, app_nil_r, firstn_firstn, Nat.min_id.
    reflexivity. }
  destruct (mixing_succeeds_dec w) as [Hok|Hbad].
  - right. exists l. do 4 (split; [solve [auto]|]).
    destruct Hok as (H1 & H2 & H3 & H4 & H5 & H6).
    rewrite H1, H2, H3, H4, H5. cbn [negb andb orb].
    destruct (Z.ltb_spec (digest_len_out w) (Z.of_nat SEED_SIZE));
      [unfold SEED_SIZE in *; lia|].
    rewrite Hpre. rewrite Hbuf at 1.
    rewrite xor_into_spec; [reflexivity | lia | apply SHA256_length].
  - left. exists l. do 3 (split; [solve [auto]|]). split.
    + unfold mixing_succeeds. intuition (congruence || lia).
    + destruct (md_ctx_new w); cbn [negb]; [|reflexivity].
      destruct (digest_init w), (digest_update_seed w),
        (digest_update_mix w), (digest_final w); cbn [negb andb orb];
        try reflexivity.
      destruct (Z.ltb_spec (digest_len_out w) (Z.of_nat SEED_SIZE));
        [reflexivity|].
      unfold SEED_SIZE in *. intuition (discriminate || lia).
Qed.

End SeedGenFacts.

Ltac seed_case_finish :=
  repeat split; intros; try lia; try discriminate; auto;
  try solve [intuition lia];
  try solve [unfold mixing_succeeds in *; intuition (congruence || lia)];
  try solve [right; eauto].

(** C8 (as the code has it).  On a seed buffer, [z_generate_seed] returns
    [ZSEED_ERR_ENTROPY_UNAVAIL] exactly when the random source cannot be
    opened, [ZSEED_ERR_READ_FAILURE] exactly when it is opened and fewer than
    32 bytes are read, and [ZSEED_ERR_CRYPTO_FAILURE] exactly when 32 bytes
    were read and the digest context cannot be allocated, one of the four
    digest calls (init, the two updates, final) fails, or fewer than 32
    digest bytes are reported.  On success the seed is the 32 bytes read,
    XORed byte by byte with the SHA-256 digest of those bytes followed by the
    environment salt, so XORing the digest again gives the bytes read back.
    On failure the buffer holds what it held before or the bytes read, never
    anything else. *)
Theorem z_generate_seed_fails_closed :
  forall (buf : list byte) (w : os_world),
    let rc := fst (z_generate_seed (Some buf) w) in
    let out := snd (z_generate_seed (Some buf) w) in
    (rc = ZSEED_ERR_ENTROPY_UNAVAIL <-> ~ source_opened w)
    /\ (rc = ZSEED_ERR_READ_FAILURE <-> source_opened w /\ ~ full_read w)
    /\ (rc = ZSEED_ERR_CRYPTO_FAILURE <->
        source_opened w /\ full_read w /\
        (md_ctx_new w = false \/ digest_init w = false
         \/ digest_update_seed w = false \/ digest_update_mix w = false
         \/ digest_final w = false \/ digest_len_out w < 32))
    /\ (rc = ZSEED_OK <->
        source_opened w /\ full_read w /\ mixing_succeeds w)
    /\ (rc = ZSEED_OK ->
        exists os,
          os_bytes w = Some os /\ length os = 32%nat
          /\ out = Some (xor_bytes os (SHA256 (os ++ mix_input w))
                           ++ skipn 32 buf)
          /\ xor_bytes (xor_bytes os (SHA256 (os ++ mix_input w)))
                       (SHA256 (os ++ mix_input w)) = os)
    /\ (rc <> ZSEED_OK ->
        out = Some buf
        \/ exists os, os_bytes w = Some os /\ out = Some (memcpy buf 0 os)).
Proof.
  intros buf w rc out. subst rc out.
  assert (Hos : forall l, source_opened w -> urandom_data w = Some l ->
                          os_bytes w = Some (firstn SEED_SIZE l)).
  { intros l Ho Hd. unfold os_bytes, source_opened in *.
    destruct (Z.ltb_spec (urandom_fd w) 0); [lia|]. rewrite Hd. reflexivity. }
  assert (Hnot : forall l, urandom_data w = Some l ->
                           (length l < SEED_SIZE)%nat -> ~ full_read w).
  { intros l Hd Hl (l' & E & Hl'). rewrite Hd in E. inversion E; subst. lia. }
  assert (Hfull : forall l, urandom_data w = Some l ->
                            (SEED_SIZE <= length l)%nat -> full_read w).
  { intros l Hd Hl. exists l. auto. }
  assert (Hnone : urandom_data w = None -> ~ full_read w).
  { intros Hd (l' & E & _). rewrite Hd in E. discriminate. }
  pose proof (mixing_succeeds_dec w) as Hdec.
  unfold ZSEED_ERR_ENTROPY_UNAVAIL, ZSEED_ERR_READ_FAILURE,
    ZSEED_ERR_CRYPTO_FAILURE, ZSEED_OK in *.
  destruct (z_generate_seed_cases buf w)
    as [(Hfd & E) | [(Ho & Hd & E) | [(l & Ho & Hd & Hl & E)
       | [(l & Ho & Hd & Hl & Hm & E) | (l & Ho & Hd & Hl & Hm & E)]]]];
    rewrite E; cbn [fst snd];
    unfold ZSEED_ERR_ENTROPY_UNAVAIL, ZSEED_ERR_READ_FAILURE,
      ZSEED_ERR_CRYPTO_FAILURE, ZSEED_OK.
  - unfold source_opened. seed_case_finish.
  - specialize (Hnone Hd). seed_case_finish.
  - specialize (Hnot l Hd Hl). specialize (Hos l Ho Hd). seed_case_finish.
  - specialize (Hfull l Hd Hl). specialize (Hos l Ho Hd).
    destruct Hdec as [Hdec|Hdec]; [contradiction|]. seed_case_finish.
  - specialize (Hfull l Hd Hl). specialize (Hos l Ho Hd).
    assert (Hlen : length (firstn SEED_SIZE l) = 32%nat).
    { rewrite length_firstn. unfold SEED_SIZE in *. lia. }
    seed_case_finish.
    exists (firstn SEED_SIZE l). repeat split; auto.
    apply xor_bytes_involutive. rewrite SHA256_length. exact Hlen.
Qed.

(** The claim as it stands fails: when only an update call fails, the
    digest was initialised and reports 32 bytes, and the code still returns
    [ZSEED_ERR_CRYPTO_FAILURE]. *)
Lemma z_generate_seed_counterexample :
  ~ (fst (z_generate_seed (Some (zeros 32)) update_failure_world)
     = ZSEED_ERR_CRYPTO_FAILURE <->
     (md_ctx_new update_failure_world = false
      \/ digest_init update_failure_world = false
      \/ (if digest_final update_failure_world
          then digest_len_out update_failure_world else 0) < 32)).
Proof.
  intros [H _].
  assert (E : fst (z_generate_seed (Some (zeros 32)) update_failure_world)
              = ZSEED_ERR_CRYPTO_FAILURE) by (vm_compute; reflexivity).
  destruct (H E) as [H1 | [H1 | H1]]; cbn in H1; (discriminate || lia).
Qed.

(** A successful run, evaluated: the seed differs from the bytes read, and
    XORing the digest back recovers them. *)
Example z_generate_seed_good_run :
  fst (z_generate_seed (Some (zeros 32)) good_world) = ZSEED_OK
  /\ option_map
       (fun s => xor_bytes s (SHA256 (repeat xa5 32 ++ [x01; x02; x03])))
       (snd (z_generate_seed (Some (zeros 32)) good_world))
     = Some (repeat xa5 32).
Proof. vm_compute. split; reflexivity. Qed.

Lemma z_generate_seed_fails_closed_witness :
  exists os,
    os_bytes good_world = Some os /\ length os = 32%nat
    /\ snd (z_generate_seed (Some (zeros 32)) good_world)
       = Some (xor_bytes os (SHA256 (os ++ mix_input good_world))
                 ++ skipn 32 (zeros 32))
    /\ xor_bytes (xor_bytes os (SHA256 (os ++ mix_input good_world)))
                 (SHA256 (os ++ mix_input good_world)) = os.
Proof.
  apply (proj1 (proj2 (proj2 (proj2 (proj2
           (z_generate_seed_fails_closed (zeros 32) good_world)))))).
  vm_compute. reflexivity.
Defined.

(* ================================================================== *)
(** * Hexadecimal form *)

Section HexFacts.

Lemma hex_digit_facts (v : Z) :
  0 <= v < 16 ->
  hex_value (hex_digit v) = Some v
  /\ isspace (hex_digit v) = false
  /\ is_lower_hex (hex_digit v) = true
  /\ Byte.eqb (hex_digit v) x00 = false.
Proof.
  intro Hv.
  assert (H : v = 0 \/ v = 1 \/ v = 2 \/ v = 3 \/ v = 4 \/ v = 5 \/ v = 6
              \/ v = 7 \/ v = 8 \/ v = 9 \/ v = 10 \/ v = 11 \/ v = 12
              \/ v = 13 \/ v = 14 \/ v = 15) by lia.
  repeat (destruct H as [->|H]; [vm_compute; auto|]).
  subst v. vm_compute. auto.
Qed.

Lemma nibbles (b : byte) :
  0 <= byte_to_Z b / 16 < 16 /\ 0 <= byte_to_Z b mod 16 < 16
  /\ 16 * (byte_to_Z b / 16) + byte_to_Z b mod 16 = byte_to_Z b.
Proof.
  pose proof (byte_to_Z_range b) as Hb.
  pose proof (Z.div_mod (byte_to_Z b) 16 ltac:(lia)).
  pose proof (Z.mod_pos_bound (byte_to_Z b) 16 ltac:(lia)).
  repeat split; lia.
Qed.

(** Two digits written by ["%02x"] are read back by ["%02x"]. *)
Lemma sscanf_hex_pair (b : byte) (rest : list byte) :
  sscanf_02x (hex_pair b ++ rest) = Some (byte_to_Z b).
Proof.
  destruct (nibbles b) as (Hhi & Hlo & Hsum).
  destruct (hex_digit_facts _ Hhi) as (Hv1 & Hs1 & _ & _).
  destruct (hex_digit_facts _ Hlo) as (Hv2 & _ & _ & _).
  unfold sscanf_02x, hex_pair. cbn [app skip_space].
  rewrite Hs1, Hv1, Hv2, Hsum. reflexivity.
Qed.

Lemma memcpy_app (pre rest src : list byte) :
  (length src <= length rest)%nat ->
  memcpy (pre ++ rest) (length pre) src =
  pre ++ src ++ skipn (length src) rest.
Proof.
  intro H. unfold memcpy.
  rewrite firstn_app, Nat.sub_diag, firstn_O, app_nil_r, firstn_all.
  rewrite skipn_app, skipn_all2 by lia.
  replace (length pre + length src - length pre)%nat with (length src)
    by lia.
  reflexivity.
Qed.

Lemma flat_map_hex_pair_length (l : list byte) :
  length (flat_map hex_pair l) = (2 * length l)%nat.
Proof.
  induction l as [|b l IH]; [reflexivity|].
  cbn [flat_map length hex_pair app]. rewrite IH. lia.
Qed.

Lemma seed_to_hex_loop_spec (todo : list byte) :
  forall done pre rest : list byte,
    length pre = (2 * length done)%nat ->
    (2 * length todo + 1 <= length rest)%nat ->
    todo <> [] ->
    seed_to_hex_loop (length todo) (length done) (done ++ todo)
                     (pre ++ rest) =
    pre ++ flat_map hex_pair todo
        ++ x00 :: skipn (2 * length todo + 1) rest.
Proof.
  induction todo as [|b todo IH]; intros done pre rest Hpre Hrest Hne;
    [contradiction|].
  cbn [length seed_to_hex_loop].
  rewrite nth_middle.
  replace (length done * 2)%nat with (length pre) by lia.
  rewrite memcpy_app by (cbn [length snprintf_02x] in *; lia).
  cbn [snprintf_02x length].
  destruct todo as [|b' todo].
  - cbn [seed_to_hex_loop flat_map length app hex_pair Nat.mul Nat.add].
    reflexivity.
  - specialize (IH (done ++ [b]) (pre ++ hex_pair b)
                   (x00 :: skipn 3 rest)).
    rewrite !length_app in IH. cbn [length hex_pair] in IH.
    rewrite <- app_assoc in IH. cbn [app] in IH.
    replace (S (length done)) with (length done + 1)%nat by lia.
    replace (pre ++ snprintf_02x b ++ skipn 3 rest)
      with ((pre ++ hex_pair b) ++ x00 :: skipn 3 rest)
      by (rewrite <- app_assoc; reflexivity).
    cbn [length]. rewrite IH.
    + rewrite <- app_assoc. f_equal.
      change (flat_map hex_pair (b :: b' :: todo))
        with (hex_pair b ++ flat_map hex_pair (b' :: todo)).
      rewrite <- app_assoc. do 3 f_equal.
      replace (2 * S (length todo) + 1)%nat
        with (S (2 * S (length todo))) by lia.
      rewrite skipn_cons, skipn_skipn. f_equal. lia.
    + lia.
    + cbn [length] in *. rewrite length_skipn. lia.
    + discriminate.
Qed.

(** The buffer after [z_seed_to_hex]: 64 digits and the terminator. *)
Lemma z_seed_to_hex_spec (S hex_out : list byte) :
  length S = 32%nat -> (65 <= length hex_out)%nat ->
  z_seed_to_hex S hex_out =
  flat_map hex_pair S ++ x00 :: skipn 65 hex_out.
Proof.
  intros HS Hout. unfold z_seed_to_hex.
  pose proof (seed_to_hex_loop_spec S [] [] hex_out) as H.
  cbn [length app] in H. rewrite HS in H.
  change SEED_SIZE with 32%nat.
  rewrite H; [| reflexivity | lia | intro E; subst; discriminate].
  cbn [app].
  pose proof (flat_map_hex_pair_length S) as Hlen. rewrite HS in Hlen.
  replace (32 * 2)%nat with (length (flat_map hex_pair S)) by lia.
  rewrite memcpy_app by (cbn [length]; lia).
  cbn [length skipn app]. reflexivity.
Qed.

Lemma c_string_digits (l tail : list byte) :
  c_string (flat_map hex_pair l ++ x00 :: tail) = flat_map hex_pair l.
Proof.
  induction l as [|b l IH]; [reflexivity|].
  destruct (nibbles b) as (Hhi & Hlo & _).
  destruct (hex_digit_facts _ Hhi) as (_ & _ & _ & Hz1).
  destruct (hex_digit_facts _ Hlo) as (_ & _ & _ & Hz2).
  cbn [flat_map hex_pair app c_string]. rewrite Hz1, Hz2, IH. reflexivity.
Qed.

Lemma digits_lower_hex (l : list byte) :
  forallb is_lower_hex (flat_map hex_pair l) = true.
Proof.
  induction l as [|b l IH]; [reflexivity|].
  destruct (nibbles b) as (Hhi & Hlo & _).
  destruct (hex_digit_facts _ Hhi) as (_ & _ & Hl1 & _).
  destruct (hex_digit_facts _ Hlo) as (_ & _ & Hl2 & _).
  cbn [flat_map hex_pair app forallb]. rewrite Hl1, Hl2, IH. reflexivity.
Qed.

Lemma hex_to_seed_loop_spec (todo : list byte) :
  forall done pre rest tail : list byte,
    length pre = length done ->
    (length todo <= length rest)%nat ->
    hex_to_seed_loop (length todo) (length done)
      (flat_map hex_pair (done ++ todo) ++ tail) (pre ++ rest) =
    (0, pre ++ todo ++ skipn (length todo) rest).
Proof.
  induction todo as [|b todo IH]; intros done pre rest tail Hpre Hrest.
  - reflexivity.
  - cbn [length hex_to_seed_loop].
    assert (Hskip :
      skipn (length done * 2)
            (flat_map hex_pair (done ++ b :: todo) ++ tail) =
      hex_pair b ++ (flat_map hex_pair todo ++ tail)).
    { rewrite flat_map_app, <- app_assoc, skipn_app,
        flat_map_hex_pair_length.
      replace (length done * 2 - 2 * length done)%nat with O by lia.
      rewrite skipn_all2 by (rewrite flat_map_hex_pair_length; lia).
      cbn [flat_map app skipn]. rewrite <- app_assoc. reflexivity. }
    rewrite Hskip, sscanf_hex_pair, byte_of_to_Z, <- Hpre.
    rewrite memcpy_app by (cbn [length] in *; lia).
    change (length [b]) with 1%nat.
    replace (pre ++ [b] ++ skipn 1 rest)
      with ((pre ++ [b]) ++ skipn 1 rest)
      by (rewrite <- app_assoc; reflexivity).
    replace (S (length pre)) with (length (done ++ [b]))
      by (rewrite length_app; cbn [length]; lia).
    replace (flat_map hex_pair (done ++ b :: todo))
      with (flat_map hex_pair ((done ++ [b]) ++ todo))
      by (rewrite <- app_assoc; reflexivity).
    rewrite IH.
    + rewrite <- app_assoc, skipn_skipn. cbn [app].
      repeat f_equal. lia.
    + rewrite !length_app. cbn [length]. lia.
    + cbn [length] in Hrest. rewrite length_skipn. lia.
Qed.

End HexFacts.

(** X2.  Round trip.  For a 32-byte seed, [z_seed_to_hex] writes a string of 64
    lower-case hexadecimal digits, and [z_hex_to_seed] on that string
    succeeds and stores the seed again. *)
Theorem hex_round_trip :
  forall S hex_out seed_buf : list byte,
    length S = 32%nat ->
    (65 <= length hex_out)%nat ->
    (32 <= length seed_buf)%nat ->
    strlen (z_seed_to_hex S hex_out) = 64%nat
    /\ forallb is_lower_hex (c_string (z_seed_to_hex S hex_out)) = true
    /\ z_hex_to_seed (Some (z_seed_to_hex S hex_out)) (Some seed_buf)
       = (0, Some (S ++ skipn 32 seed_buf)).
Proof.
  intros S hex_out seed_buf HS Hout Hbuf.
  rewrite (z_seed_to_hex_spec S hex_out HS Hout).
  rewrite strlen_c_string, c_string_digits, flat_map_hex_pair_length, HS.
  split; [reflexivity|]. split; [apply digits_lower_hex|].
  unfold z_hex_to_seed.
  pose proof (hex_to_seed_loop_spec S [] [] seed_buf
                (x00 :: skipn 65 hex_out)) as H.
  cbn [length app] in H. rewrite HS in H. change SEED_SIZE with 32%nat.
  rewrite H by (reflexivity || lia). reflexivity.
Qed.

Lemma hex_round_trip_witness :
  strlen (z_seed_to_hex (repeat xa5 32) (repeat xff 65)) = 64%nat
  /\ forallb is_lower_hex
       (c_string (z_seed_to_hex (repeat xa5 32) (repeat xff 65))) = true
  /\ z_hex_to_seed (Some (z_seed_to_hex (repeat xa5 32) (repeat xff 65)))
                   (Some (zeros 32))
     = (0, Some (repeat xa5 32 ++ skipn 32 (zeros 32))).
Proof.
  apply hex_round_trip; [reflexivity | simpl; lia | simpl; lia].
Defined.

(** C9 (where the code departs from it).  A string whose first pair is
    ["1z"] is not hexadecimal, and [z_hex_to_seed] accepts it: ["%02x"]
    converts the ["1"] and stops at the ["z"], so the call returns 0 with
    first seed byte 1.  White space and a sign are accepted the same way; a
    pair that starts with another character is refused. *)
Theorem z_hex_to_seed_accepts_malformed :
  z_hex_to_seed (Some ([x31; x7a] ++ repeat x30 62)) (Some (zeros 32))
  = (0, Some (x01 :: zeros 31))
  /\ z_hex_to_seed (Some ([x20; x2d; x31] ++ repeat x30 61)) (Some (zeros 32))
     = (0, Some ([xff; x10] ++ zeros 30))
  /\ z_hex_to_seed (Some (repeat x7a 64)) (Some (zeros 32))
     = (-1, Some (zeros 32)).
Proof. vm_compute. repeat split; reflexivity. Qed.

(* ================================================================== *)
(** * Further properties of the primality check *)

(** X3.  The check never rejects a prime: for a prime candidate it returns true
    whatever the seed, the hint and the outcome of the allocation. *)
Theorem primes_always_accepted :
  forall (c : Z) (cfg : option config_t) (hint : Z) (m : bool),
    Z.prime c -> candidate_is_probable_prime c cfg hint m = true.
Proof.
  intros c cfg hint m Hp. apply prime_is_probable_prime, Hp.
Qed.

Lemma primes_always_accepted_witness :
  candidate_is_probable_prime 1009 (Some {| seed := zeros 32 |}) 3 false
  = true.
Proof.
  apply primes_always_accepted. apply trial_division_prime.
  vm_compute. reflexivity.
Defined.

Section SmallExact.

Lemma fixed_rounds_exact_spec (len c : Z) :
  fixed_rounds_exact len = true ->
  3 <= c < 3 + len -> Z.even c = false -> fixed_rounds_pass c = true ->
  trial_division c = true.
Proof.
  unfold fixed_rounds_exact. intros Hall Hc Hev Hpass.
  rewrite forallb_forall in Hall.
  assert (Hin : In c (Zrange 3 (Z.to_nat len))) by (apply Zrange_In; lia).
  specialize (Hall c Hin). rewrite Hev, Hpass in Hall. exact Hall.
Qed.

Lemma fixed_rounds_exact_4093 : fixed_rounds_exact 4093 = true.
Proof. vm_compute. reflexivity. Qed.

Lemma accepted_small_prime (c : Z) cfg hint m :
  c < 4096 -> candidate_is_probable_prime c cfg hint m = true -> Z.prime c.
Proof.
  intros Hc Hacc.
  destruct (Z.lt_ge_cases c 2) as [Hlt|Hge].
  { unfold candidate_is_probable_prime in Hacc.
    destruct (Z.ltb_spec c 2); [discriminate | lia]. }
  destruct (Z.eq_dec c 2) as [->|Hne].
  { apply trial_division_prime. reflexivity. }
  destruct (Z.even c) eqn:Hev.
  { rewrite even_not_probable_prime in Hacc by (assumption || lia).
    discriminate. }
  rewrite candidate_is_probable_prime_odd, forallb_app in Hacc
    by (assumption || lia).
  apply andb_true_iff in Hacc. destruct Hacc as [_ Hstd].
  apply trial_division_prime.
  apply (fixed_rounds_exact_spec 4093 c fixed_rounds_exact_4093);
    [lia | exact Hev | exact Hstd].
Qed.

End SmallExact.

(** X4.  Below 4096 the check is exact: it returns true on the primes and on
    nothing else, whatever the seed, the hint and the allocation outcome. *)
Theorem check_exact_below_4096 :
  forall (c : Z) (cfg : option config_t) (hint : Z) (m : bool),
    c < 4096 ->
    (candidate_is_probable_prime c cfg hint m = true <-> Z.prime c).
Proof.
  intros c cfg hint m Hc. split.
  - apply accepted_small_prime, Hc.
  - apply prime_is_probable_prime.
Qed.

Lemma check_exact_below_4096_witness :
  candidate_is_probable_prime 2047 None 0 true = true <-> Z.prime 2047.
Proof.
  apply check_exact_below_4096. lia.
Defined.

(* ================================================================== *)
(** * Further properties of the proximity test and the candidate search *)

Section ProximityFacts.

Lemma x931_too_close_iff (a b : Z) :
  x931_too_close_2048 a b = true <-> a / 2 ^ 1948 = b / 2 ^ 1948.
Proof.
  unfold x931_too_close_2048. rewrite Z.eqb_eq.
  change (2048 - 100) with 1948. rewrite !Z.shiftr_div_pow2 by lia.
  reflexivity.
Qed.

End ProximityFacts.

(** X5.  The proximity test compares blocks, not distances.  Two numbers it
    calls too close differ by less than [2^1948], and the test is
    symmetric; but the two neighbours on either side of a multiple of
    [2^1948] are never called too close, although they differ by 1. *)
Theorem x931_too_close_is_blockwise :
  (forall a b : Z,
      x931_too_close_2048 a b = true -> Z.abs (a - b) < 2 ^ 1948)
  /\ (forall a b : Z, x931_too_close_2048 a b = x931_too_close_2048 b a)
  /\ (forall k : Z,
         x931_too_close_2048 (k * 2 ^ 1948 - 1) (k * 2 ^ 1948) = false).
Proof.
  split; [|split].
  - intros a b H. apply x931_too_close_iff in H.
    pose proof (Z.div_mod a (2 ^ 1948) ltac:(lia)) as Ha.
    pose proof (Z.div_mod b (2 ^ 1948) ltac:(lia)) as Hb.
    pose proof (Z.mod_pos_bound a (2 ^ 1948) ltac:(lia)).
    pose proof (Z.mod_pos_bound b (2 ^ 1948) ltac:(lia)).
    rewrite H in Ha. lia.
  - intros a b. unfold x931_too_close_2048. apply Z.eqb_sym.
  - intro k. apply not_true_is_false. intro H.
    apply x931_too_close_iff in H.
    rewrite Z.div_mul in H by lia.
    assert (E : k * 2 ^ 1948 - 1 = (2 ^ 1948 - 1) + (k - 1) * 2 ^ 1948)
      by lia.
    rewrite E, Z.div_add, Z.div_small in H by lia. lia.
Qed.

Section SearchOrder.

Variable max_attempts : Z.
Variable cfg : option config_t.
Variable hint_seed : Z.
Variable too_close_ref : option Z.
Variable enforce : bool.
Variable malloc_ok : Z -> bool.

Let acc := accepted cfg hint_seed too_close_ref enforce malloc_ok.

(** Without a width limit the loop tests [cand], [cand + 2], ... in this
    order, under the attempt numbers [attempt], [attempt + 1], ... *)
Lemma search_loop_first clamp (iters : nat) :
  forall attempt cand,
    match search_loop max_attempts cfg hint_seed 0 clamp too_close_ref
            enforce malloc_ok iters attempt cand with
    | Found p used =>
        attempt <= used < attempt + Z.of_nat iters
        /\ p = cand + 2 * (used - attempt)
        /\ acc p used = true
        /\ (forall j, attempt <= j < used ->
                      acc (cand + 2 * (j - attempt)) j = false)
    | NotFound a =>
        a = max_attempts
        /\ (forall j, attempt <= j < attempt + Z.of_nat iters ->
                      acc (cand + 2 * (j - attempt)) j = false)
    end.
Proof.
  induction iters as [|iters IH]; intros attempt cand.
  - cbn [search_loop]. split; [reflexivity|]. intros j Hj. lia.
  - cbn [search_loop]. cbn [Z.ltb Z.compare andb].
    fold (accepted cfg hint_seed too_close_ref enforce malloc_ok cand
            attempt). fold acc.
    destruct (acc cand attempt) eqn:Hacc.
    + split; [lia|]. split; [lia|]. split; [exact Hacc|].
      intros j Hj. lia.
    + specialize (IH (attempt + 1) (cand + 2)).
      destruct (search_loop _ _ _ _ _ _ _ _ _ _ _) as [p used|a].
      * destruct IH as (Hu & Hp & Ha & Hbefore).
        repeat split; try lia; try assumption.
        intros j Hj. destruct (Z.eq_dec j attempt) as [->|Hne].
        -- rewrite Z.sub_diag, Z.mul_0_r, Z.add_0_r. exact Hacc.
        -- specialize (Hbefore j ltac:(lia)).
           replace (cand + 2 * (j - attempt))
             with (cand + 2 + 2 * (j - (attempt + 1))) by lia.
           exact Hbefore.
      * destruct IH as (Ha & Hall). split; [exact Ha|].
        intros j Hj. destruct (Z.eq_dec j attempt) as [->|Hne].
        -- rewrite Z.sub_diag, Z.mul_0_r, Z.add_0_r. exact Hacc.
        -- specialize (Hall j ltac:(lia)).
           replace (cand + 2 * (j - attempt))
             with (cand + 2 + 2 * (j - (attempt + 1))) by lia.
           exact Hall.
Qed.

End SearchOrder.

(** X6.  The sequential loop of [search_prime_candidates] (the whole
    search in a build without OpenMP, or with a single thread), without a
    width limit: it returns the first candidate of
    [start, start + 2, start + 4, ...] that passes the check and the
    proximity test, together with its index; when it returns nothing, none
    of the [max_attempts] candidates passes, and [*attempts_used] is
    [max_attempts].  The order in which the threads of the parallel block
    report is not covered. *)
Theorem search_returns_first_acceptable :
  forall (start max_attempts : Z) (cfg : option config_t) (hint_seed : Z)
         (clamp : bool) (ref : option Z) (enforce : bool) (m : Z -> bool),
    match search_prime_candidates start max_attempts cfg hint_seed 0 clamp
            ref enforce m with
    | Found p used =>
        0 <= used < max_attempts
        /\ p = start + 2 * used
        /\ accepted cfg hint_seed ref enforce m p used = true
        /\ (forall j, 0 <= j < used ->
                      accepted cfg hint_seed ref enforce m (start + 2 * j) j
                      = false)
    | NotFound a =>
        a = max_attempts
        /\ (forall j, 0 <= j < max_attempts ->
                      accepted cfg hint_seed ref enforce m (start + 2 * j) j
                      = false)
    end.
Proof.
  intros start ma cfg hint clamp ref enforce m.
  unfold search_prime_candidates.
  destruct (Z.eqb_spec ma 0) as [->|Hne].
  { split; [reflexivity|]. intros j Hj. lia. }
  pose proof (search_loop_first ma cfg hint ref enforce m clamp
                (Z.to_nat ma) 0 start) as H.
  destruct (search_loop _ _ _ _ _ _ _ _ _ _ _) as [p used|a].
  - destruct H as (Hu & Hp & Ha & Hb). repeat split; try lia.
    + exact Ha.
    + intros j Hj. specialize (Hb j Hj). rewrite Z.sub_0_r in Hb. exact Hb.
  - destruct H as (Ha & Hb). split; [exact Ha|].
    intros j Hj. specialize (Hb j ltac:(lia)). rewrite Z.sub_0_r in Hb.
    exact Hb.
Qed.

(** X7.  Completeness of the sequential loop of [search_prime_candidates]
    (the whole search in a build without OpenMP, or with a single thread),
    without a width limit: if one of the [max_attempts] candidates is a
    prime that the proximity test lets through, the loop succeeds, at that
    candidate or at an earlier one. *)
Theorem search_finds_prime_in_budget :
  forall (start max_attempts : Z) (cfg : option config_t) (hint_seed : Z)
         (clamp : bool) (ref : option Z) (enforce : bool) (m : Z -> bool)
         (j : Z),
    0 <= j < max_attempts ->
    Z.prime (start + 2 * j) ->
    not_too_close ref enforce (start + 2 * j) = true ->
    exists p used,
      search_prime_candidates start max_attempts cfg hint_seed 0 clamp ref
        enforce m = Found p used
      /\ used <= j /\ p = start + 2 * used.
Proof.
  intros start ma cfg hint clamp ref enforce m j Hj Hprime Hclose.
  unfold search_prime_candidates.
  destruct (Z.eqb_spec ma 0) as [->|Hne]; [lia|].
  pose proof (search_loop_first ma cfg hint ref enforce m clamp
                (Z.to_nat ma) 0 start) as H.
  destruct (search_loop _ _ _ _ _ _ _ _ _ _ _) as [p used|a].
  - destruct H as (Hu & Hp & Ha & Hb). exists p, used.
    split; [reflexivity|]. split; [|lia].
    destruct (Z.le_gt_cases used j) as [|Hgt]; [assumption|].
    specialize (Hb j ltac:(lia)). rewrite Z.sub_0_r in Hb.
    unfold accepted in Hb.
    rewrite prime_is_probable_prime, Hclose in Hb by exact Hprime.
    discriminate.
  - destruct H as (_ & Hb). specialize (Hb j ltac:(lia)).
    rewrite Z.sub_0_r in Hb. unfold accepted in Hb.
    rewrite prime_is_probable_prime, Hclose in Hb by exact Hprime.
    discriminate.
Qed.

Lemma search_finds_prime_in_budget_witness :
  exists p used,
    search_prime_candidates 115 10 None 7 0 false (Some 113) false
      (fun _ => true) = Found p used
    /\ used <= 6 /\ p = 115 + 2 * used.
Proof.
  apply search_finds_prime_in_budget.
  - lia.
  - apply trial_division_prime. vm_compute. reflexivity.
  - reflexivity.
Defined.

Section ClampFacts.

Lemma setbit_one (j : Z) : 1 <= j -> Z.setbit 1 j = 2 ^ j + 1.
Proof.
  intro Hj.
  assert (Hland : Z.land 1 (2 ^ j) = 0).
  { apply Z.bits_inj'. intros m Hm.
    rewrite Z.land_spec, Z.bits_0, Z.pow2_bits_eqb by lia.
    destruct (Z.eqb_spec j m) as [<-|]; [|apply andb_false_r].
    rewrite andb_true_r. apply Z.bits_above_log2; cbn; lia. }
  rewrite Z.setbit_spec', <- Z.lxor_lor, <- Z.add_nocarry_lxor
    by exact Hland.
  lia.
Qed.

Lemma clearbit_pow2_succ (k : Z) : 1 <= k -> Z.clearbit (2 ^ k + 1) k = 1.
Proof.
  intro Hk. rewrite <- setbit_one by exact Hk.
  apply Z.bits_inj'. intros m Hm.
  rewrite Z.clearbit_eqb, Z.setbit_eqb by lia.
  destruct (Z.eqb_spec k m) as [<-|]; cbn [orb negb].
  - rewrite andb_false_r. symmetry. apply Z.bits_above_log2; cbn; lia.
  - apply andb_true_r.
Qed.

(** The move to the next candidate under the clamp policy at bit [k]. *)
Lemma clamp_step (k c : Z) :
  1 <= k -> 2 ^ (k - 1) <= c < 2 ^ k -> Z.odd c = true ->
  let next := if Z.testbit (c + 2) k
              then Z.setbit (Z.clearbit (c + 2) k) (k - 1)
              else c + 2 in
  2 ^ (k - 1) <= next < 2 ^ k /\ Z.odd next = true.
Proof.
  intros Hk Hc Hodd.
  pose proof (Z.pow_pos_nonneg 2 (k - 1) ltac:(lia) ltac:(lia)) as Hp1.
  assert (Hpk : 2 ^ k = 2 * 2 ^ (k - 1)).
  { rewrite <- Z.pow_succ_r by lia. f_equal. lia. }
  assert (Hpk1 : 2 ^ (k + 1) = 2 * 2 ^ k).
  { rewrite <- Z.pow_succ_r by lia. reflexivity. }
  assert (Hodd2 : Z.odd (c + 2) = true).
  { rewrite Z.odd_add, Hodd. reflexivity. }
  destruct (Z.testbit (c + 2) k) eqn:Hbit; cbv zeta.
  - apply testbit_true_ge in Hbit; [|lia|lia].
    assert (Hev : Z.even (2 ^ k) = true).
    { rewrite Hpk. apply Z.even_mul. }
    assert (Hc2 : c + 2 = 2 ^ k + 1).
    { destruct (Z.eq_dec (c + 2) (2 ^ k)) as [E|]; [|lia].
      rewrite E, <- Z.negb_even, Hev in Hodd2. discriminate. }
    rewrite Hc2, clearbit_pow2_succ by lia.
    split.
    + split.
      * apply testbit_true_ge; [|lia|apply Z.setbit_eq; lia].
        apply (setbit_below 1 (k - 1) k); lia.
      * apply (setbit_below 1 (k - 1) k); lia.
    + rewrite <- Z.bit0_odd, Z.setbit_eqb by lia.
      apply orb_true_r.
  - split; [|exact Hodd2]. split; [lia|].
    apply testbit_false_lt; [lia| |exact Hbit]. lia.
Qed.

Variable max_attempts : Z.
Variable cfg : option config_t.
Variable hint_seed : Z.
Variable too_close_ref : option Z.
Variable enforce : bool.
Variable malloc_ok : Z -> bool.

Lemma search_loop_clamp (k : Z) (iters : nat) :
  1 <= k ->
  forall attempt cand,
    2 ^ (k - 1) <= cand < 2 ^ k -> Z.odd cand = true ->
    found_satisfies
      (fun p used => (2 ^ (k - 1) <= p < 2 ^ k /\ Z.odd p = true)
                     /\ attempt <= used < attempt + Z.of_nat iters)
      (search_loop max_attempts cfg hint_seed k true too_close_ref enforce
         malloc_ok iters attempt cand).
Proof.
  intro Hk. induction iters as [|iters IH]; intros attempt cand Hc Hodd;
    cbn [search_loop]; [exact I|].
  destruct (candidate_is_probable_prime cand cfg _ _ &&
            not_too_close _ _ cand).
  - cbn [found_satisfies]. repeat split; try lia. exact Hodd.
  - destruct (Z.ltb_spec 0 k); [|lia]. cbn [andb].
    pose proof (clamp_step k cand Hk Hc Hodd) as Hstep. cbv zeta in Hstep.
    destruct (Z.testbit (cand + 2) k);
      destruct Hstep as [Hr Ho];
      specialize (IH (attempt + 1) _ Hr Ho);
      destruct (search_loop _ _ _ _ _ _ _ _ _ _ _); cbn [found_satisfies] in *;
      try exact I; (split; [tauto|lia]).
Qed.

End ClampFacts.



Section GuidedSound.

Variable estimated_start : Z.
Variable max_attempts : Z.
Variable cfg : option config_t.
Variable hint_seed : Z.
Variable too_close_ref : option Z.
Variable enforce : bool.
Variable malloc_ok : Z -> bool.

Lemma guided_loop_sound (fuel : nat) :
  max_attempts < 2 ^ 64 ->
  forall cs rem off calls,
    0 <= off -> 0 <= rem -> off + rem = max_attempts ->
    cs = base_start estimated_start + ulong (2 * off) ->
    match guided_loop estimated_start max_attempts cfg hint_seed
            too_close_ref enforce malloc_ok fuel cs rem off calls with
    | Some (res, _) =>
        found_satisfies
          (guided_found estimated_start max_attempts cfg hint_seed
             too_close_ref enforce malloc_ok) res
    | None => True
    end.
Proof.
  intro Hmax. induction fuel as [|fuel IH];
    intros cs rem off calls Hoff Hrem Hsum Hcs; [exact I|].
  cbn [guided_loop]. destruct (Z.ltb_spec 0 rem) as [Hpos|]; [|exact I].
  destruct (Z.leb_spec (modulus_2048 - cs) 0) as [|Hin]; [exact I|].
  pose proof (segment_for_range estimated_start cs rem ltac:(lia)
                ltac:(lia)) as Hseg.
  set (seg := segment_for cs rem) in *.
  destruct (base_start_range estimated_start) as [Hb _].
  pose proof (ulong_range (2 * off)) as Hu.
  rewrite modulus_2048_eq in Hin.
  destruct (search_prime_candidates cs seg cfg _ 2048 false _ _ _)
    as [p used|a] eqn:Hsearch.
  - cbn [found_satisfies]. unfold search_prime_candidates in Hsearch.
    destruct (Z.eqb_spec seg 0); [discriminate|].
    pose proof (search_loop_found _ _ _ _ _ _ _ _ _ _ _ _ _ Hsearch)
      as (Hp & Hc & Hused).
    apply search_loop_stop_bound in Hsearch; [|lia|lia].
    destruct Hsearch as (Hpeq & _ & _).
    assert (Hw : ulong (off + used) = off + used).
    { unfold ulong. apply Z.mod_small. lia. }
    rewrite Hw. exists off, used.
    repeat split; try lia; try assumption.
  - assert (Hrem' : ulong (rem - seg) = rem - seg).
    { unfold ulong. apply Z.mod_small. lia. }
    assert (Hoff' : ulong (off + seg) = off + seg).
    { unfold ulong. apply Z.mod_small. lia. }
    rewrite Hrem', Hoff'.
    destruct (Z.eqb_spec (rem - seg) 0); [exact I|].
    match goal with
    | |- context [modulus_2048 <=? ?x] =>
        destruct (Z.leb_spec modulus_2048 x); [exact I|]
    end.
    apply IH; [lia | lia | lia | reflexivity].
Qed.

End GuidedSound.

(** X9.  Soundness of the guided search.  Within the [unsigned long] range of
    [max_attempts] the search ends, and a prime it returns passed the
    primality check and the proximity test, was reached in fewer than
    [max_attempts] attempts, and is the candidate of index [a] of the
    segment that starts at offset [off]; when [max_attempts <= 2^63] that
    is the candidate [base_start + 2 * attempts_used]. *)
Theorem guided_search_sound :
  forall (estimated_start max_attempts : Z) (cfg : option config_t)
         (hint_seed : Z) (ref : option Z) (enforce : bool) (m : Z -> bool),
    0 <= max_attempts < 2 ^ 64 ->
    exists res,
      guided_prime_search estimated_start max_attempts cfg hint_seed ref
        enforce m = Some res
      /\ found_satisfies
           (guided_found estimated_start max_attempts cfg hint_seed ref
              enforce m) res
      /\ found_satisfies
           (fun p used => max_attempts <= 2 ^ 63 ->
                          p = base_start estimated_start + 2 * used) res.
Proof.
  intros e ma cfg h ref enf m Hma. unfold guided_prime_search.
  assert (Hb : base_start e = base_start e + ulong (2 * 0)).
  { rewrite Z.mul_0_r. unfold ulong. rewrite Z.mod_0_l by lia. lia. }
  destruct (guided_loop_invariant e ma cfg h ref enf m
              (S (Z.to_nat ma)) (base_start e) ma 0 []
              ltac:(lia) ltac:(lia) Hb ltac:(constructor))
    as (res & calls & Hrun & _ & _).
  pose proof (guided_loop_sound e ma cfg h ref enf m (S (Z.to_nat ma))
                ltac:(lia) (base_start e) ma 0 [] ltac:(lia) ltac:(lia)
                ltac:(lia) Hb) as Hs.
  unfold guided_run. rewrite Hrun in *. cbn [option_map fst].
  exists res. split; [reflexivity|]. split; [exact Hs|].
  destruct res as [p used|a]; [|exact I]. cbn [found_satisfies] in *.
  intro H63. destruct Hs as (off & a & Ho & Ha & Hu & Hlt & Hp & _).
  assert (Hw : ulong (2 * off) = 2 * off).
  { unfold ulong. apply Z.mod_small. lia. }
  rewrite Hw in Hp. lia.
Qed.

Lemma guided_search_sound_witness :
  exists res,
    guided_prime_search 12345 3 None 7 (Some 5) true (fun _ => true)
    = Some res
    /\ found_satisfies
         (guided_found 12345 3 None 7 (Some 5) true (fun _ => true)) res
    /\ found_satisfies
         (fun p used => 3 <= 2 ^ 63 -> p = base_start 12345 + 2 * used) res.
Proof.
  apply guided_search_sound. lia.
Defined.
Section DeriveMore.

(** What a call with valid arguments writes, by any [k] digests of the
    stream that cover [N] bytes. *)
Lemma derive_seed_eq (S tag out : list byte) (N k : nat) :
  length S = 32%nat ->
  (0 < N)%nat -> (N <= length out)%nat -> (N <= 32 * k)%nat ->
  derive_seed (Some S) (Some tag) (Some out) N =
  Some (firstn N (digest_stream S (c_string tag) k) ++ skipn N out).
Proof.
  intros HS HN Hout Hk. unfold derive_seed.
  destruct (Nat.eqb_spec N 0) as [->|_]; [lia|].
  rewrite (derive_context S tag HS).
  rewrite derive_loop_chain;
    [ | apply SHA256_length | exact Hout | lia | lia ].
  rewrite Nat.sub_0_r, firstn_O. cbn [app]. do 2 f_equal.
  rewrite digest_stream_chain. unfold digest_i. cbn [Nat.iter nat_rect].
  apply firstn_chain_more; [apply SHA256_length | lia | exact Hk].
Qed.

Lemma digest_stream_length (S tag : list byte) (k : nat) :
  length (digest_stream S tag k) = (32 * k)%nat.
Proof.
  rewrite digest_stream_chain. apply chain_length, digest_i_length.
Qed.

Lemma firstn_min_length {A} (l : list A) (k : nat) :
  firstn (Nat.min (length l) k) l = firstn k l.
Proof.
  destruct (Nat.le_ge_cases (length l) k).
  - rewrite Nat.min_l, !firstn_all2 by lia. reflexivity.
  - rewrite Nat.min_r by lia. reflexivity.
Qed.

Lemma digest_stream_tag_prefix (S tag tag' : list byte) (k : nat) :
  firstn 32 tag = firstn 32 tag' ->
  digest_stream S tag k = digest_stream S tag' k.
Proof.
  intro H. unfold digest_stream. f_equal. apply map_ext. intro i.
  unfold digest_i. rewrite !firstn_min_length, H. reflexivity.
Qed.

End DeriveMore.

(** X10.  Asking for fewer bytes gives a prefix: the first [N] bytes written by
    a call for [M >= N] bytes are the bytes written by a call for [N]
    bytes with the same seed and tag. *)
Theorem derive_seed_prefix_consistent :
  forall (S tag out out' : list byte) (N M : nat),
    length S = 32%nat ->
    (0 < N)%nat -> (N <= M)%nat ->
    (M <= length out)%nat -> (N <= length out')%nat ->
    option_map (firstn N) (derive_seed (Some S) (Some tag) (Some out) M) =
    option_map (firstn N) (derive_seed (Some S) (Some tag) (Some out') N).
Proof.
  intros S tag out out' N M HS HN HNM Hout Hout'.
  rewrite (derive_seed_eq S tag out M M), (derive_seed_eq S tag out' N M)
    by (assumption || lia).
  cbn [option_map]. f_equal.
  pose proof (digest_stream_length S (c_string tag) M) as Hl.
  rewrite !firstn_app, !firstn_firstn, !length_firstn, Hl.
  rewrite Nat.min_id. replace (Nat.min N M) with N by lia.
  replace (N - Nat.min M (32 * M))%nat with O by lia.
  replace (N - Nat.min N (32 * M))%nat with O by lia.
  reflexivity.
Qed.

Lemma derive_seed_prefix_consistent_witness :
  option_map (firstn 5)
    (derive_seed (Some (zeros 32)) (Some [x70; x00]) (Some (zeros 40)) 40) =
  option_map (firstn 5)
    (derive_seed (Some (zeros 32)) (Some [x70; x00]) (Some (repeat xff 8)) 5).
Proof.
  apply derive_seed_prefix_consistent;
    [reflexivity | lia | lia | simpl; lia | simpl; lia].
Defined.

(** X11.  Only the first 32 bytes of the tag count: two tags that agree on
    them give the same derived bytes, however they go on. *)
Theorem derive_seed_long_tags_collide :
  forall (S tag tag' out : list byte) (N : nat),
    length S = 32%nat ->
    (0 < N)%nat -> (N <= length out)%nat ->
    firstn 32 (c_string tag) = firstn 32 (c_string tag') ->
    derive_seed (Some S) (Some tag) (Some out) N =
    derive_seed (Some S) (Some tag') (Some out) N.
Proof.
  intros S tag tag' out N HS HN Hout Htag.
  rewrite (derive_seed_eq S tag out N N), (derive_seed_eq S tag' out N N)
    by (assumption || lia).
  rewrite (digest_stream_tag_prefix S _ _ N Htag). reflexivity.
Qed.

Lemma derive_seed_long_tags_collide_witness :
  derive_seed (Some (zeros 32)) (Some (repeat x61 32 ++ [x70; x00]))
    (Some (zeros 32)) 32 =
  derive_seed (Some (zeros 32)) (Some (repeat x61 32 ++ [x71; x00]))
    (Some (zeros 32)) 32.
Proof.
  apply derive_seed_long_tags_collide;
    [reflexivity | lia | simpl; lia | vm_compute; reflexivity].
Defined.

(* ================================================================== *)
(** * Big-endian conversions *)

Section ConversionFacts.

Lemma be_combine_snoc (l : list byte) (b : byte) :
  be_combine (l ++ [b]) = be_combine l * 256 + byte_to_Z b.
Proof. unfold be_combine. rewrite fold_left_app. reflexivity. Qed.

Lemma be_combine_bound (l : list byte) :
  0 <= be_combine l < 256 ^ Z.of_nat (length l).
Proof.
  induction l as [|b l IH] using rev_ind; [cbn; lia|].
  rewrite be_combine_snoc, length_app, Nat2Z.inj_add, Z.pow_add_r by lia.
  cbn [length]. change (256 ^ Z.of_nat 1) with 256.
  pose proof (byte_to_Z_range b). nia.
Qed.

Lemma be_combine_be_split (k : nat) :
  forall z, be_combine (be_split k z) = z mod 256 ^ Z.of_nat k.
Proof.
  induction k as [|k IH]; intro z.
  - cbn. symmetry. apply Z.mod_1_r.
  - cbn [be_split]. rewrite be_combine_snoc, IH, byte_to_of_Z.
    rewrite Z.shiftr_div_pow2 by lia. change (2 ^ 8) with 256.
    rewrite Nat2Z.inj_succ, Z.pow_succ_r by lia.
    rewrite (Z.rem_mul_r z 256 (256 ^ Z.of_nat k)) by lia. lia.
Qed.

(** What [mpz_export] writes is read back by [mpz_import] as the
    magnitude. *)
Lemma mpz_import_export (z : Z) : mpz_import (mpz_export z) = Z.abs z.
Proof.
  unfold mpz_import, mpz_export, mpz_sizeinbase2.
  destruct (Z.eqb_spec z 0) as [->|Hz]; [reflexivity|].
  rewrite be_combine_be_split. apply Z.mod_small.
  pose proof (Z.log2_nonneg (Z.abs z)) as Hl.
  set (k := (Z.log2 (Z.abs z) + 1 + 7) / 8).
  assert (Hk : Z.log2 (Z.abs z) + 1 <= 8 * k).
  { unfold k.
    pose proof (Z.div_mod (Z.log2 (Z.abs z) + 1 + 7) 8 ltac:(lia)).
    pose proof (Z.mod_pos_bound (Z.log2 (Z.abs z) + 1 + 7) 8 ltac:(lia)).
    lia. }
  assert (0 <= k) by (apply Z.div_pos; lia).
  rewrite Z2Nat.id by assumption.
  change 256 with (2 ^ 8). rewrite <- Z.pow_mul_r by lia.
  split; [lia|].
  apply Z.lt_le_trans with (2 ^ (Z.log2 (Z.abs z) + 1)).
  - apply Z.log2_spec. lia.
  - apply Z.pow_le_mono_r; lia.
Qed.

Lemma local_array_length (stack : list byte) (k : nat) :
  length (local_array stack k) = k.
Proof.
  unfold local_array, zeros.
  rewrite length_firstn, length_app, repeat_length. lia.
Qed.

(** Setting bit 2047 and bit 0 of a number below [2^2048]. *)
Lemma setbits_2048 (x : Z) :
  0 <= x < 2 ^ 2048 ->
  let y := Z.setbit (Z.setbit x 2047) 0 in
  2 ^ 2047 <= y < 2 ^ 2048 /\ Z.odd y = true.
Proof.
  intros Hx y.
  pose proof (setbit_below x 2047 2048 ltac:(lia) Hx) as H1.
  pose proof (setbit_below _ 0 2048 ltac:(lia) H1) as H2. fold y in H2.
  split; [split; [|lia]|].
  - apply testbit_true_ge; [lia | lia |].
    unfold y. rewrite Z.setbit_neq by lia. apply Z.setbit_eq. lia.
  - rewrite <- Z.bit0_odd. apply Z.setbit_eq. lia.
Qed.

End ConversionFacts.

(* ================================================================== *)
(** * The configuration *)

(** X12.  A failure to generate the seed is reported to the shell by its cause:
    exit status 2 when the random source cannot be opened, 3 when it
    delivers fewer than 32 bytes, 4 when the mixing step fails; the status
    0 or 1 never stands for a seed failure of [init_config]. *)
Theorem init_config_exit_codes :
  forall (DEFAULT_KAPPA_GEO DEFAULT_KAPPA_STAR DEFAULT_PHI : double)
         (cfg : key_config_t) (w : os_world),
    let rc := fst (init_config DEFAULT_KAPPA_GEO DEFAULT_KAPPA_STAR
                     DEFAULT_PHI cfg w) in
    (rc = ZSEED_OK /\ source_opened w /\ full_read w /\ mixing_succeeds w)
    \/ (seed_error_exit_code rc = 2 /\ urandom_fd w < 0)
    \/ (seed_error_exit_code rc = 3 /\ source_opened w /\ ~ full_read w)
    \/ (seed_error_exit_code rc = 4 /\ source_opened w /\ full_read w
        /\ ~ mixing_succeeds w).
Proof.
  intros kg ks ph cfg w. unfold init_config.
  destruct (z_generate_seed_cases (seed (prime_cfg cfg)) w)
    as [(Hfd & ->)
       |[(Ho & Hd & ->)
        |[(l & Ho & Hd & Hl & ->)
         |[(l & Ho & Hd & Hl & Hm & ->)
          |(l & Ho & Hd & Hl & Hm & ->)]]]]; cbn.
  - right. left. split; [reflexivity | exact Hfd].
  - right. right. left. split; [reflexivity|]. split; [exact Ho|].
    intros (l & E & _). congruence.
  - right. right. left. split; [reflexivity|]. split; [exact Ho|].
    intros (l' & E & Hl'). rewrite Hd in E. inversion E; subst. lia.
  - right. right. right. split; [reflexivity|]. split; [exact Ho|].
    split; [exists l; auto | exact Hm].
  - left. split; [reflexivity|]. split; [exact Ho|].
    split; [exists l; auto | exact Hm].
Qed.

Lemma xor_bytes_length (a b : list byte) :
  length a = length b -> length (xor_bytes a b) = length a.
Proof.
  intro H. unfold xor_bytes. rewrite length_map, length_combine. lia.
Qed.

(** X13.  After a successful [init_config] the configuration holds a 32-byte
    seed and its hexadecimal form, which [z_hex_to_seed] reads back as
    that seed, and the default parameters, the three [double]s
    included. *)
Theorem init_config_success :
  forall (DEFAULT_KAPPA_GEO DEFAULT_KAPPA_STAR DEFAULT_PHI : double)
         (cfg cfg' : key_config_t) (w : os_world) (seed_buf : list byte),
    length (seed (prime_cfg cfg)) = 32%nat ->
    (65 <= length (seed_hex cfg))%nat ->
    (32 <= length seed_buf)%nat ->
    init_config DEFAULT_KAPPA_GEO DEFAULT_KAPPA_STAR DEFAULT_PHI cfg w
    = (ZSEED_OK, cfg') ->
    length (seed (prime_cfg cfg')) = 32%nat
    /\ c_string (seed_hex cfg') = flat_map hex_pair (seed (prime_cfg cfg'))
    /\ z_hex_to_seed (Some (seed_hex cfg')) (Some seed_buf)
       = (0, Some (seed (prime_cfg cfg') ++ skipn 32 seed_buf))
    /\ (bits cfg', e cfg', validity_days cfg', bump_p cfg', bump_q cfg')
       = (4096, 65537, 30, 0, 1)
    /\ (kappa_geo cfg', kappa_star cfg', phi cfg')
       = (DEFAULT_KAPPA_GEO, DEFAULT_KAPPA_STAR, DEFAULT_PHI).
Proof.
  intros kg ks ph cfg cfg' w seed_buf Hseed Hhex Hbuf. unfold init_config.
  destruct (z_generate_seed_cases (seed (prime_cfg cfg)) w)
    as [(Hfd & ->)
       |[(Ho & Hd & ->)
        |[(l & Ho & Hd & Hl & ->)
         |[(l & Ho & Hd & Hl & Hm & ->)
          |(l & Ho & Hd & Hl & Hm & ->)]]]]; cbn [negb Z.eqb ZSEED_OK
            ZSEED_ERR_ENTROPY_UNAVAIL ZSEED_ERR_READ_FAILURE
            ZSEED_ERR_CRYPTO_FAILURE];
    intro E; apply pair_equal_spec in E; destruct E as [Erc <-];
    try discriminate Erc.
  cbn [prime_cfg seed seed_hex bits e validity_days bump_p bump_q
         kappa_geo kappa_star phi].
  set (S := xor_bytes (firstn SEED_SIZE l)
              (SHA256 (firstn SEED_SIZE l ++ mix_input w))).
  assert (HS : length S = 32%nat).
  { unfold S. rewrite xor_bytes_length; rewrite length_firstn.
    - unfold SEED_SIZE in *. lia.
    - rewrite SHA256_length. unfold SEED_SIZE, SHA256_DIGEST_LENGTH in *.
      lia. }
  rewrite skipn_all2 by (unfold SEED_SIZE; lia). rewrite app_nil_r.
  split; [exact HS|].
  rewrite (z_seed_to_hex_spec S (seed_hex cfg) HS Hhex).
  split; [apply c_string_digits|].
  split; [|split; reflexivity].
  unfold z_hex_to_seed.
  pose proof (hex_to_seed_loop_spec S [] [] seed_buf
                (x00 :: skipn 65 (seed_hex cfg))) as H.
  cbn [length app] in H. rewrite HS in H. change SEED_SIZE with 32%nat.
  rewrite H by (reflexivity || lia). reflexivity.
Qed.

Lemma init_config_success_witness :
  let cfg' :=
    snd (init_config PrimFloat.one PrimFloat.two PrimFloat.zero
           unset_config good_world) in
  length (seed (prime_cfg cfg')) = 32%nat
  /\ c_string (seed_hex cfg') = flat_map hex_pair (seed (prime_cfg cfg'))
  /\ z_hex_to_seed (Some (seed_hex cfg')) (Some (zeros 32))
     = (0, Some (seed (prime_cfg cfg') ++ skipn 32 (zeros 32)))
  /\ (bits cfg', e cfg', validity_days cfg', bump_p cfg', bump_q cfg')
     = (4096, 65537, 30, 0, 1)
  /\ (kappa_geo cfg', kappa_star cfg', phi cfg')
     = (PrimFloat.one, PrimFloat.two, PrimFloat.zero).
Proof.
  apply (init_config_success PrimFloat.one PrimFloat.two PrimFloat.zero
           unset_config
           (snd (init_config PrimFloat.one PrimFloat.two PrimFloat.zero
                   unset_config good_world))
           good_world (zeros 32));
    [reflexivity | simpl; lia | simpl; lia | vm_compute; reflexivity].
Defined.

Section TagFacts.

Lemma lower_hex_not_nul (b : byte) :
  is_lower_hex b = true -> Byte.eqb b x00 = false.
Proof. destruct b; intro H; try reflexivity; discriminate H. Qed.

Lemma c_string_lower_hex (l tail : list byte) :
  forallb is_lower_hex l = true -> c_string (l ++ x00 :: tail) = l.
Proof.
  induction l as [|b l IH]; intro H; [reflexivity|].
  cbn [forallb] in H. apply andb_true_iff in H. destruct H as [Hb Hl].
  cbn [app c_string]. rewrite (lower_hex_not_nul b Hb), IH by exact Hl.
  reflexivity.
Qed.

Lemma forallb_firstn {A} (f : A -> bool) (k : nat) :
  forall l, forallb f l = true -> forallb f (firstn k l) = true.
Proof.
  induction k as [|k IH]; intros [|a l] H; try reflexivity.
  cbn [forallb firstn] in *. apply andb_true_iff in H.
  destruct H as [Ha Hl]. rewrite Ha, IH by exact Hl. reflexivity.
Qed.

(** What [snprintf] leaves in a buffer that has [size] bytes at least. *)
Lemma snprintf_spec (dst text : list byte) (size : nat) :
  (1 <= size <= length dst)%nat ->
  snprintf dst size text =
  firstn (size - 1) text ++ x00
    :: skipn (S (Nat.min (size - 1) (length text))) dst.
Proof.
  intro H. unfold snprintf.
  destruct (Nat.eqb_spec size 0); [lia|].
  unfold memcpy. cbn [firstn app Nat.add].
  rewrite <- app_assoc. cbn [app]. do 2 f_equal.
  rewrite length_app, length_firstn. cbn [length]. f_equal. lia.
Qed.

End TagFacts.

(** X14.  [create_tag] never writes outside the [tag_size] bytes it is given.
    The string it leaves is made of the first [tag_size - 1] of the eight
    lower-case hexadecimal digits of the first four bytes of the SHA-256
    digest of the seed: all eight when [tag_size] is 9 or more. *)
Theorem create_tag_spec :
  forall (seed tag_out : list byte) (tag_size : nat),
    (1 <= tag_size <= length tag_out)%nat ->
    let tag := create_tag seed tag_out tag_size in
    let digits :=
      flat_map hex_pair (firstn 4 (SHA256 (firstn 32 seed))) in
    length tag = length tag_out
    /\ skipn tag_size tag = skipn tag_size tag_out
    /\ c_string tag = firstn (tag_size - 1) digits
    /\ forallb is_lower_hex (c_string tag) = true
    /\ strlen tag = Nat.min (tag_size - 1) 8.
Proof.
  intros seed tag_out tag_size H tag digits.
  assert (Hd : length digits = 8%nat).
  { unfold digits. rewrite flat_map_hex_pair_length, length_firstn.
    rewrite SHA256_length. reflexivity. }
  assert (Hlow : forallb is_lower_hex (firstn (tag_size - 1) digits) = true).
  { apply forallb_firstn, digits_lower_hex. }
  assert (Htag : tag = firstn (tag_size - 1) digits ++ x00
                         :: skipn (S (Nat.min (tag_size - 1) 8)) tag_out).
  { unfold tag, create_tag. change SEED_SIZE with 32%nat. fold digits.
    rewrite snprintf_spec, Hd by exact H. reflexivity. }
  assert (Hc : c_string tag = firstn (tag_size - 1) digits).
  { rewrite Htag. apply c_string_lower_hex, Hlow. }
  split; [|split; [|split; [exact Hc|split]]].
  - rewrite Htag, length_app, length_firstn, Hd. cbn [length].
    rewrite length_skipn. lia.
  - rewrite Htag.
    set (pre := firstn (tag_size - 1) digits).
    assert (Hpre : length pre = Nat.min (tag_size - 1) 8).
    { unfold pre. rewrite length_firstn, Hd. reflexivity. }
    change (pre ++ x00 :: ?t) with (pre ++ [x00] ++ t).
    rewrite app_assoc, skipn_app, skipn_skipn, length_app, Hpre.
    cbn [length]. rewrite skipn_all2 by (rewrite length_app, Hpre; cbn; lia).
    cbn [app]. f_equal. lia.
  - rewrite Hc. exact Hlow.
  - rewrite strlen_c_string, Hc, length_firstn, Hd. reflexivity.
Qed.

Lemma create_tag_spec_witness :
  length (create_tag (zeros 32) (repeat xff 9) 9) = length (repeat xff 9)
  /\ skipn 9 (create_tag (zeros 32) (repeat xff 9) 9)
     = skipn 9 (repeat xff 9)
  /\ c_string (create_tag (zeros 32) (repeat xff 9) 9)
     = firstn (9 - 1)
         (flat_map hex_pair (firstn 4 (SHA256 (firstn 32 (zeros 32)))))
  /\ forallb is_lower_hex (c_string (create_tag (zeros 32) (repeat xff 9) 9))
     = true
  /\ strlen (create_tag (zeros 32) (repeat xff 9) 9) = Nat.min (9 - 1) 8.
Proof.
  apply (create_tag_spec (zeros 32) (repeat xff 9) 9). simpl. lia.
Defined.

Section Expansion.

(** A call of [derive_seed] that fills a local array of 256 bytes. *)
Lemma derive_256 (stack S tag : list byte) :
  length S = 32%nat ->
  firstn 256
    (written (local_array stack 256)
       (derive_seed (Some S) (Some tag) (Some (local_array stack 256)) 256))
  = digest_stream S (c_string tag) 8.
Proof.
  intro HS.
  rewrite (derive_seed_eq S tag (local_array stack 256) 256 8 HS)
    by (rewrite ?local_array_length; lia).
  cbn [written].
  pose proof (digest_stream_length S (c_string tag) 8) as Hl.
  rewrite (firstn_all2 (n := 256) (digest_stream S (c_string tag) 8))
    by lia.
  rewrite firstn_app, Hl, firstn_all2 by lia.
  replace (256 - 32 * 8)%nat with O by lia. rewrite firstn_O.
  apply app_nil_r.
Qed.

Lemma mpz_import_256 (l : list byte) :
  length l = 256%nat -> 0 <= mpz_import l < 2 ^ 2048.
Proof.
  intro H. pose proof (be_combine_bound l) as Hb. rewrite H in Hb.
  exact Hb.
Qed.

End Expansion.

(** X15.  [seed_to_2048bit] turns a 32-byte seed into an odd number of exactly
    2048 bits: the first eight digests of the stream derived under the tag
    ["2048bit"], read as a big-endian number, with bit 2047 and bit 0 set.
    What the stack held in the local array has no influence. *)
Theorem seed_to_2048bit_spec :
  forall (stack seed_bytes : list byte),
    length seed_bytes = 32%nat ->
    seed_to_2048bit stack seed_bytes
    = Z.setbit
        (Z.setbit
           (mpz_import
              (digest_stream seed_bytes
                 [x32; x30; x34; x38; x62; x69; x74] 8)) 2047) 0
    /\ 2 ^ 2047 <= seed_to_2048bit stack seed_bytes < 2 ^ 2048
    /\ Z.odd (seed_to_2048bit stack seed_bytes) = true.
Proof.
  intros stack S HS.
  assert (E : seed_to_2048bit stack S
              = Z.setbit
                  (Z.setbit
                     (mpz_import
                        (digest_stream S
                           [x32; x30; x34; x38; x62; x69; x74] 8)) 2047) 0).
  { unfold seed_to_2048bit. rewrite (derive_256 stack S tag_2048bit HS).
    reflexivity. }
  split; [exact E|]. rewrite E.
  apply setbits_2048, mpz_import_256.
  rewrite digest_stream_length. reflexivity.
Qed.

Lemma seed_to_2048bit_spec_witness :
  seed_to_2048bit [x01; x02] (zeros 32)
  = Z.setbit
      (Z.setbit
         (mpz_import
            (digest_stream (zeros 32)
               [x32; x30; x34; x38; x62; x69; x74] 8)) 2047) 0
  /\ 2 ^ 2047 <= seed_to_2048bit [x01; x02] (zeros 32) < 2 ^ 2048
  /\ Z.odd (seed_to_2048bit [x01; x02] (zeros 32)) = true.
Proof.
  apply seed_to_2048bit_spec. reflexivity.
Defined.
(* ================================================================== *)
(** * The prime of index [k] *)

(** The decimal conversion on a few values, and the tag of the default
    bumps, ["prime_p0_q1"]. *)
Example format_d_values :
  format_d 0 = [x30]
  /\ format_d 120 = [x31; x32; x30]
  /\ format_d (-7) = [x2d; x37]
  /\ format_d 2147483647
     = [x32; x31; x34; x37; x34; x38; x33; x36; x34; x37]
  /\ prime_tag_text
       (snd (init_config PrimFloat.one PrimFloat.two PrimFloat.zero
               unset_config good_world))
     = [x70; x72; x69; x6d; x65; x5f; x70; x30; x5f; x71; x31].
Proof. vm_compute. repeat split; reflexivity. Qed.

Section NthPrimeFacts.

Lemma guided_prime_search_found (estimated_start max_attempts : Z)
      (cfg : option config_t) (hint_seed : Z) (ref : option Z)
      (enforce : bool) (m : Z -> bool) (p used : Z) :
  0 <= max_attempts < 2 ^ 64 ->
  guided_prime_search estimated_start max_attempts cfg hint_seed ref
    enforce m = Some (Found p used) ->
  (2 ^ 2047 <= p < 2 ^ 2048 /\ Z.odd p = true)
  /\ guided_found estimated_start max_attempts cfg hint_seed ref enforce m
       p used.
Proof.
  intros Hma H. unfold guided_prime_search, guided_run in H.
  assert (Hb : base_start estimated_start
               = base_start estimated_start + ulong (2 * 0)).
  { rewrite Z.mul_0_r. unfold ulong. rewrite Z.mod_0_l by lia. lia. }
  destruct (guided_loop_invariant estimated_start max_attempts cfg hint_seed
              ref enforce m (S (Z.to_nat max_attempts))
              (base_start estimated_start) max_attempts 0 []
              ltac:(lia) ltac:(lia) Hb ltac:(constructor))
    as (res & calls & Hrun & _ & Hok).
  pose proof (guided_loop_sound estimated_start max_attempts cfg hint_seed
                ref enforce m (S (Z.to_nat max_attempts)) ltac:(lia)
                (base_start estimated_start) max_attempts 0 []
                ltac:(lia) ltac:(lia) ltac:(lia) Hb) as Hs.
  rewrite Hrun in H, Hs. cbn [option_map fst] in H.
  inversion H; subst res. split; [apply (Hok p used eq_refl) | exact Hs].
Qed.

Lemma written_length (buf : list byte) (S tag : option (list byte))
      (N : nat) :
  (length (firstn N (written buf (derive_seed S tag (Some buf) N)))
   <= N)%nat.
Proof. rewrite length_firstn. lia. Qed.

Lemma fallback_candidate_range (stack : list byte) (cfg : key_config_t) :
  2 ^ 2047 <= fallback_candidate stack cfg < 2 ^ 2048
  /\ Z.odd (fallback_candidate stack cfg) = true.
Proof.
  unfold fallback_candidate. apply setbits_2048.
  unfold mpz_import.
  match goal with |- 0 <= be_combine ?l < _ =>
    pose proof (be_combine_bound l) as Hb;
    assert (Hl : (length l <= 256)%nat) by (rewrite length_firstn; lia)
  end.
  split; [lia|]. eapply Z.lt_le_trans; [apply Hb|].
  change (2 ^ 2048) with (256 ^ Z.of_nat 256).
  apply Z.pow_le_mono_r; lia.
Qed.

End NthPrimeFacts.

(** What holds when [z5d_nth_prime] returns 1. *)
Lemma z5d_nth_prime_returns :
  forall (stack : list byte) (nth_prime_estimate : double -> Z -> Z)
         (min_k_reached : Z -> bool) (g_debug g_quiet : bool)
         (k prime_out : Z) (cfg : key_config_t) (ref : option Z)
         (enforce : bool) (mg mr : Z -> bool),
    when_returns_one
      (fun p =>
         (2 ^ 2047 <= p < 2 ^ 2048 /\ Z.odd p = true)
         /\ (exists hint m,
                candidate_is_probable_prime p (Some (prime_cfg cfg)) hint m
                = true)
         /\ not_too_close ref enforce p = true)
      (z5d_nth_prime stack nth_prime_estimate min_k_reached g_debug g_quiet
         k prime_out cfg ref enforce mg mr).
Proof.
  intros stack est reached dbg quiet k prime_out cfg ref enforce mg mr.
  unfold z5d_nth_prime.
  set (guided :=
         if reached k then
           match guided_prime_search (search_start est k cfg) MAX_LOCAL_ATTEMPTS
                   (Some (prime_cfg cfg)) (ulong (Z.abs k)) ref enforce mg
           with
           | Some (Found p _) => (true, p)
           | _ => (false, search_start est k cfg)
           end
         else (false, prime_out)).
  assert (Hg : fst guided = true ->
               (2 ^ 2047 <= snd guided < 2 ^ 2048 /\ Z.odd (snd guided) = true)
               /\ (exists hint m,
                      candidate_is_probable_prime (snd guided)
                        (Some (prime_cfg cfg)) hint m = true)
               /\ not_too_close ref enforce (snd guided) = true).
  { unfold guided. destruct (reached k); [|discriminate].
    destruct (guided_prime_search _ _ _ _ _ _ _) as [[p used|a]|] eqn:E;
      try discriminate.
    intros _. cbn [snd].
    apply guided_prime_search_found in E;
      [|unfold MAX_LOCAL_ATTEMPTS; lia].
    destruct E as (Hr & off & a & _ & _ & _ & _ & _ & Hp & Hc).
    split; [exact Hr|]. split; [eauto|exact Hc]. }
  destruct guided as [[|] out]; cbn [fst snd] in Hg.
  - unfold when_returns_one. cbn [fst snd Z.eqb]. apply Hg. reflexivity.
  - clear Hg.
    destruct (fallback_candidate_range stack cfg) as [Hr Ho].
    pose proof (search_loop_clamp MAX_PRIME_ATTEMPTS (Some (prime_cfg cfg))
                  0 ref enforce mr 2048 (Z.to_nat MAX_PRIME_ATTEMPTS)
                  ltac:(lia) 0 (fallback_candidate stack cfg) Hr Ho) as Hcl.
    unfold search_prime_candidates.
    change (MAX_PRIME_ATTEMPTS =? 0) with false. cbv iota.
    destruct (search_loop _ _ _ _ _ _ _ _ _ _ _) as [p used|a] eqn:E.
    + destruct (dbg && negb quiet); unfold when_returns_one;
        cbn [fst snd Z.eqb]; [|exact I].
      cbn [found_satisfies] in Hcl.
      apply search_loop_found in E. destruct E as (Hp & Hc & _).
      split; [apply Hcl|]. split; [eauto|exact Hc].
    + exact I.
Qed.

(** X16.  When [z5d_nth_prime] returns 1, [prime_out] is an odd number of
    exactly 2048 bits that passed the primality check under the seed of
    the configuration and that the proximity test lets through. *)
Theorem z5d_nth_prime_sound :
  forall (stack : list byte) (nth_prime_estimate : double -> Z -> Z)
         (min_k_reached : Z -> bool) (g_debug g_quiet : bool)
         (k prime_out : Z) (cfg : key_config_t) (ref : option Z)
         (enforce : bool) (mg mr : Z -> bool),
    when_returns_one
      (fun p =>
         (2 ^ 2047 <= p < 2 ^ 2048 /\ Z.odd p = true)
         /\ (exists hint m,
                candidate_is_probable_prime p (Some (prime_cfg cfg)) hint m
                = true)
         /\ not_too_close ref enforce p = true)
      (z5d_nth_prime stack nth_prime_estimate min_k_reached g_debug g_quiet
         k prime_out cfg ref enforce mg mr).
Proof.
  intros stack est reached dbg quiet k prime_out cfg ref enforce mg mr.
  apply z5d_nth_prime_returns.
Qed.

(** X17.  The return value of [z5d_nth_prime].  It is 1 exactly when the
    guided search is tried and finds a prime, or when the fallback search
    finds one and diagnostic output is on ([--debug] without [--quiet]):
    with diagnostic output off a prime found by the fallback search is
    stored in [prime_out] and 0 is returned. *)
Theorem z5d_nth_prime_return_value :
  forall (stack : list byte) (nth_prime_estimate : double -> Z -> Z)
         (min_k_reached : Z -> bool) (g_debug g_quiet : bool)
         (k prime_out : Z) (cfg : key_config_t) (ref : option Z)
         (enforce : bool) (mg mr : Z -> bool),
    let r := z5d_nth_prime stack nth_prime_estimate min_k_reached g_debug
               g_quiet k prime_out cfg ref enforce mg mr in
    let guided :=
      guided_prime_search (search_start nth_prime_estimate k cfg)
        MAX_LOCAL_ATTEMPTS (Some (prime_cfg cfg)) (ulong (Z.abs k)) ref
        enforce mg in
    let fallback :=
      search_prime_candidates (fallback_candidate stack cfg)
        MAX_PRIME_ATTEMPTS (Some (prime_cfg cfg)) 0 2048 true ref enforce
        mr in
    (fst r = 0 \/ fst r = 1)
    /\ (fst r = 1 <->
        (min_k_reached k = true
         /\ exists p used, guided = Some (Found p used))
        \/ (g_debug && negb g_quiet = true
            /\ exists p used, fallback = Found p used))
    /\ (forall p used,
           min_k_reached k = false -> g_debug && negb g_quiet = false ->
           fallback = Found p used -> r = (0, p)).
Proof.
  intros stack est reached dbg quiet k prime_out cfg ref enforce mg mr.
  cbv zeta. unfold z5d_nth_prime.
  set (guided := guided_prime_search _ _ _ _ _ _ _). clearbody guided.
  set (fallback := search_prime_candidates _ _ _ _ _ _ _ _ _).
  clearbody fallback.
  set (flag := dbg && negb quiet). clearbody flag.
  assert (Hn : forall a p used, NotFound a <> Found p used)
    by (intros; discriminate).
  destruct (reached k); destruct guided as [[p used|a]|];
    destruct fallback as [p' used'|a']; destruct flag; cbn [fst snd];
    (split; [auto|]); (split; [split|]);
    try (intros _; left; split; [reflexivity|]; eauto; fail);
    try (intros _; right; split; [reflexivity|]; eauto; fail);
    try reflexivity; try discriminate;
    try (intros [(E & ? & ? & E')|(E & ? & ? & E')]; discriminate);
    try (intros ? ? E; discriminate E);
    try (intros ? ? _ E; discriminate E);
    try (intros ? ? _ _ E; discriminate E).
  all: intros p0 used0 _ _ E; inversion E; reflexivity.
Qed.

(* ================================================================== *)
(** * The key built from the two primes *)

Section RsaFacts.

Lemma export_bytes_value (p : Z) :
  0 <= p -> BN_bin2bn (export_bytes p) = p.
Proof.
  intro Hp. unfold BN_bin2bn, export_bytes.
  pose proof (mpz_import_export p) as H. unfold mpz_import in H.
  rewrite Z.abs_eq in H by exact Hp.
  destruct (Nat.eqb_spec (length (mpz_export p)) 0) as [E|E];
    [|exact H].
  apply length_zero_iff_nil in E. rewrite E in H. rewrite <- H.
  reflexivity.
Qed.

Lemma lambda_lcm (a b : Z) :
  0 < a -> 0 < b -> a * b / Z.gcd a b = Z.lcm a b.
Proof.
  intros Ha Hb. unfold Z.lcm.
  pose proof (Z.gcd_nonneg a b) as Hg.
  assert (Hg0 : Z.gcd a b <> 0).
  { intro E. apply Z.gcd_eq_0 in E. lia. }
  rewrite Z.divide_div_mul_exact by (auto; apply Z.gcd_divide_r).
  rewrite Z.abs_eq; [reflexivity|].
  apply Z.mul_nonneg_nonneg; [lia|]. apply Z.div_pos; lia.
Qed.

Lemma pow_one_plus_multiple (p : Z) :
  Z.prime p ->
  forall t m, 0 <= t -> m ^ (1 + t * (p - 1)) mod p = m mod p.
Proof.
  intros Hp t m Ht. pose proof Hp as [Hp1 _].
  rewrite Z.pow_add_r, Z.pow_1_r by nia.
  destruct (Z.eq_dec (m mod p) 0) as [E|E].
  - rewrite <- Z.mul_mod_idemp_l, E by lia. rewrite Z.mul_0_l.
    apply Z.mod_0_l. lia.
  - assert (Hnd : ~ (p | m)).
    { intro Hd. apply E. apply Z.mod_divide; [lia | exact Hd]. }
    replace (t * (p - 1)) with ((p - 1) * t) by lia.
    rewrite Z.pow_mul_r by lia.
    rewrite <- Z.mul_mod_idemp_r, <- Z.mod_pow_l by lia.
    rewrite (fermat_little p Hp m Hnd), Z.pow_1_l by lia.
    rewrite Z.mod_1_l, Z.mul_1_r by lia. reflexivity.
Qed.

(** Exponents that are inverse modulo [lcm (p - 1) (q - 1)] undo each
    other modulo [p q]. *)
Lemma rsa_exponents (p q e d : Z) :
  Z.prime p -> Z.prime q -> p <> q ->
  0 <= e -> 0 <= d ->
  (e * d) mod Z.lcm (p - 1) (q - 1) = 1 ->
  forall m, m ^ (e * d) mod (p * q) = m mod (p * q).
Proof.
  intros Hp Hq Hne He Hd Hed m.
  pose proof Hp as [Hp1 _]. pose proof Hq as [Hq1 _].
  set (L := Z.lcm (p - 1) (q - 1)) in *.
  assert (HL : 0 < L).
  { pose proof (Z.lcm_nonneg (p - 1) (q - 1)).
    destruct (Z.eq_dec L 0) as [E|]; [|unfold L in *; lia].
    apply Z.lcm_eq_0 in E. lia. }
  assert (Hk : e * d = 1 + (e * d / L) * L).
  { pose proof (Z.div_mod (e * d) L ltac:(lia)). lia. }
  assert (Hk0 : 0 <= e * d / L) by (apply Z.div_pos; nia).
  remember (e * d / L) as k eqn:Ek. clear Ek.
  assert (Hside : forall r, Z.prime r -> (r - 1 | L) ->
                            m ^ (e * d) mod r = m mod r).
  { intros r Hr [u Hu]. pose proof Hr as [Hr1 _].
    assert (0 <= u) by nia.
    rewrite Hk, Hu.
    replace (1 + k * (u * (r - 1))) with (1 + (k * u) * (r - 1)) by lia.
    apply pow_one_plus_multiple; [exact Hr | nia]. }
  pose proof (Hside p Hp (Z.divide_lcm_l _ _)) as H1.
  pose proof (Hside q Hq (Z.divide_lcm_r _ _)) as H2.
  assert (Hcop : Z.gcd p q = 1).
  { apply Z.coprime_prime_l; [exact Hp|]. intro Hdiv.
    apply Hne. apply Z.divide_prime_prime; assumption. }
  assert (Hlcm : Z.lcm p q = p * q).
  { apply Z.gcd_1_lcm_mul in Hcop; [|lia|lia]. rewrite Hcop.
    apply Z.abs_eq. nia. }
  rewrite <- Hlcm.
  rewrite (Z.combinecong_complete _ p q m m H1 H2).
  rewrite (Z.combinecong_complete m p q m m eq_refl eq_refl).
  reflexivity.
Qed.

Lemma lcm_ge_2 (a b : Z) : 2 <= a -> 1 <= b -> 2 <= Z.lcm a b.
Proof.
  intros Ha Hb. destruct (Z.divide_lcm_l a b) as [u Hu].
  pose proof (Z.lcm_nonneg a b) as Hnn.
  assert (Hne : Z.lcm a b <> 0).
  { intro E. apply Z.lcm_eq_0 in E. lia. }
  remember (Z.lcm a b) as L eqn:EL. clear EL.
  assert (0 < u) by nia. nia.
Qed.

(** The case analysis of [build_rsa_key] when it returns a full key. *)
Lemma build_rsa_key_full (p q : Z) (cfg : key_config_t)
      (w : openssl_world) (key : rsa_key) :
  0 <= p -> 0 <= q ->
  build_rsa_key p q cfg w = RSA_full key ->
  let lambda := (p - 1) * (q - 1) / Z.gcd (p - 1) (q - 1) in
  Z.gcd (e cfg) lambda = 1
  /\ key = {| rsa_n := p * q; rsa_e := e cfg;
              rsa_d := Z.invmod (e cfg) lambda;
              rsa_p := p; rsa_q := q;
              rsa_dmp1 := Z.invmod (e cfg) lambda mod (p - 1);
              rsa_dmq1 := Z.invmod (e cfg) lambda mod (q - 1);
              rsa_iqmp := match BN_mod_inverse q p with
                          | Some v => v
                          | None => 0
                          end |}.
Proof.
  intros Hp Hq. unfold build_rsa_key.
  rewrite !export_bytes_value by assumption.
  destruct (rsa_new_ok w); [|discriminate].
  destruct (bn_new_ok w); [|discriminate].
  destruct (p_bytes_ok w); [|discriminate].
  destruct (q_bytes_ok w); [|discriminate].
  destruct (bin2bn_p_ok w); [|discriminate].
  destruct (bin2bn_q_ok w); [|discriminate].
  cbn [negb orb]. cbv zeta. unfold BN_mod_inverse at 1.
  destruct (Z.eqb_spec (Z.gcd (e cfg)
              ((p - 1) * (q - 1) / Z.gcd (p - 1) (q - 1))) 1) as [Hg|];
    [|discriminate].
  intro E. inversion E. split; [exact Hg | reflexivity].
Qed.

End RsaFacts.

(** X18.  The key that [generate_rsa_keypair] builds from [p] and [q].  The
    modulus is [p q], the private exponent is the inverse of [e] modulo
    [lcm (p - 1) (q - 1)], reduced to that range, and the two CRT
    exponents are its residues modulo [p - 1] and [q - 1]; a key is built
    only when [e] is invertible. *)
Theorem build_rsa_key_spec :
  forall (p q : Z) (cfg : key_config_t) (w : openssl_world) (key : rsa_key),
    3 <= p -> 3 <= q ->
    build_rsa_key p q cfg w = RSA_full key ->
    let lambda := Z.lcm (p - 1) (q - 1) in
    Z.gcd (e cfg) lambda = 1
    /\ (rsa_p key, rsa_q key, rsa_n key, rsa_e key) = (p, q, p * q, e cfg)
    /\ 0 <= rsa_d key < lambda
    /\ (rsa_e key * rsa_d key) mod lambda = 1
    /\ rsa_dmp1 key = rsa_d key mod (p - 1)
    /\ rsa_dmq1 key = rsa_d key mod (q - 1).
Proof.
  intros p q cfg w key Hp Hq H.
  apply build_rsa_key_full in H; [|lia|lia]. cbv zeta in H.
  rewrite lambda_lcm in H by lia. destruct H as [Hg ->].
  cbn [rsa_p rsa_q rsa_n rsa_e rsa_d rsa_dmp1 rsa_dmq1].
  set (lambda := Z.lcm (p - 1) (q - 1)) in *.
  assert (HL : 2 <= lambda) by (apply lcm_ge_2; lia).
  split; [exact Hg|]. split; [reflexivity|]. split.
  - rewrite <- Z.mod_invmod. apply Z.mod_pos_bound. lia.
  - split; [|split; reflexivity].
    rewrite Z.mul_comm. apply Z.invmod_coprime; assumption.
Qed.

Lemma build_rsa_key_spec_witness :
  Z.gcd 17 (Z.lcm (61 - 1) (53 - 1)) = 1
  /\ (61, 53, 3233, 17) = (61, 53, 61 * 53, 17)
  /\ 0 <= 413 < Z.lcm (61 - 1) (53 - 1)
  /\ (17 * 413) mod Z.lcm (61 - 1) (53 - 1) = 1
  /\ 53 = 413 mod (61 - 1)
  /\ 49 = 413 mod (53 - 1).
Proof.
  apply (build_rsa_key_spec 61 53
           (set_e unset_config 17) openssl_ok
           {| rsa_n := 3233; rsa_e := 17; rsa_d := 413; rsa_p := 61;
              rsa_q := 53; rsa_dmp1 := 53; rsa_dmq1 := 49;
              rsa_iqmp := 38 |});
    [lia | lia | vm_compute; reflexivity].
Defined.

(** X19.  A key built from two distinct primes works: raising to the public
    and then to the private exponent modulo [n], or the other way round,
    gives every message below [n] back. *)
Theorem rsa_key_round_trip :
  forall (p q : Z) (cfg : key_config_t) (w : openssl_world) (key : rsa_key)
         (m : Z),
    Z.prime p -> Z.prime q -> p <> q ->
    3 <= p -> 3 <= q -> 0 <= e cfg ->
    build_rsa_key p q cfg w = RSA_full key ->
    0 <= m < rsa_n key ->
    (m ^ rsa_e key mod rsa_n key) ^ rsa_d key mod rsa_n key = m
    /\ (m ^ rsa_d key mod rsa_n key) ^ rsa_e key mod rsa_n key = m.
Proof.
  intros p q cfg w key m Hpp Hqp Hne Hp Hq He H Hm.
  apply build_rsa_key_full in H; [|lia|lia]. cbv zeta in H.
  rewrite lambda_lcm in H by lia. destruct H as [Hg ->].
  cbn [rsa_n rsa_e rsa_d] in *.
  set (lambda := Z.lcm (p - 1) (q - 1)) in *.
  assert (HL : 2 <= lambda) by (apply lcm_ge_2; lia).
  set (d := Z.invmod (e cfg) lambda).
  assert (Hd : 0 <= d).
  { unfold d. rewrite <- Z.mod_invmod. apply Z.mod_pos_bound. lia. }
  assert (Hed : (e cfg * d) mod lambda = 1).
  { rewrite Z.mul_comm. apply Z.invmod_coprime; assumption. }
  pose proof (rsa_exponents p q (e cfg) d Hpp Hqp Hne He Hd Hed m) as Hrt.
  rewrite (Z.mod_small m) in Hrt by exact Hm.
  rewrite !Z.mod_pow_l, <- !Z.pow_mul_r by assumption.
  split; [exact Hrt|]. rewrite (Z.mul_comm d). exact Hrt.
Qed.

Lemma rsa_key_round_trip_witness :
  (65 ^ 17 mod 3233) ^ 413 mod 3233 = 65
  /\ (65 ^ 413 mod 3233) ^ 17 mod 3233 = 65.
Proof.
  apply (rsa_key_round_trip 61 53
           (set_e unset_config 17) openssl_ok
           {| rsa_n := 3233; rsa_e := 17; rsa_d := 413; rsa_p := 61;
              rsa_q := 53; rsa_dmp1 := 53; rsa_dmq1 := 49;
              rsa_iqmp := 38 |} 65);
    try (apply trial_division_prime; vm_compute; reflexivity);
    try (vm_compute; reflexivity); try lia; cbn; lia.
Defined.

Section KeyPairFacts.

Variable stack : list byte.
Variable prime_count_estimate : double -> Z -> Z.
Variable nth_prime_estimate : double -> Z -> Z.
Variable min_k_reached : Z -> bool.
Variable g_debug : bool.
Variable g_quiet : bool.

Lemma product_bounds (a b A B : Z) :
  0 <= A -> A <= a < B -> A <= b < B -> A * A <= a * b < B * B.
Proof. intros HA Ha Hb. nia. Qed.

Lemma not_too_close_distinct (p q : Z) :
  not_too_close (Some p) true q = true ->
  p / 2 ^ 1948 <> q / 2 ^ 1948.
Proof.
  unfold not_too_close. cbn [negb orb]. intros H E.
  apply x931_too_close_iff in E. rewrite E in H. discriminate.
Qed.

(** The loop is left at once when [p] and [q] differ. *)
Lemma retry_loop_skipped (fuel : nat) (cfg : key_config_t)
      (x_q p q retry_count : Z) (malloc_ok : Z -> Z -> bool) :
  p <> q ->
  retry_loop stack prime_count_estimate nth_prime_estimate min_k_reached
    g_debug g_quiet fuel cfg x_q p q retry_count malloc_ok = Some q.
Proof.
  intro H. destruct fuel as [|fuel]; [reflexivity|]. cbn [retry_loop].
  destruct (Z.eqb_spec p q); [contradiction|]. reflexivity.
Qed.

Lemma even_exponent_not_invertible (p q ee : Z) :
  3 <= p -> Z.odd p = true -> 2 <= q -> Z.even ee = true ->
  Z.gcd ee ((p - 1) * (q - 1) / Z.gcd (p - 1) (q - 1)) <> 1.
Proof.
  intros Hp Hodd Hq Hev Hg. rewrite lambda_lcm in Hg by lia.
  assert (H2p : (2 | p - 1)).
  { apply Z.odd_spec in Hodd. destruct Hodd as [u Hu]. exists u. lia. }
  assert (H2l : (2 | Z.lcm (p - 1) (q - 1))).
  { eapply Z.divide_trans; [exact H2p | apply Z.divide_lcm_l]. }
  assert (H2e : (2 | ee)).
  { apply Z.even_spec in Hev. destruct Hev as [u Hu]. exists u. lia. }
  pose proof (Z.gcd_greatest _ _ _ H2e H2l) as H. rewrite Hg in H.
  destruct H as [u Hu]. lia.
Qed.

Lemma build_rsa_key_even (p q : Z) (cfg : key_config_t)
      (w : openssl_world) :
  3 <= p -> Z.odd p = true -> 2 <= q -> Z.even (e cfg) = true ->
  build_rsa_key p q cfg w
  = if rsa_new_ok w then RSA_empty else RSA_NULL.
Proof.
  intros Hp Hodd Hq Hev. unfold build_rsa_key.
  rewrite !export_bytes_value by lia.
  destruct (rsa_new_ok w); [|reflexivity].
  destruct (bn_new_ok w); [|reflexivity].
  destruct (p_bytes_ok w); [|reflexivity].
  destruct (q_bytes_ok w); [|reflexivity].
  destruct (bin2bn_p_ok w); [|reflexivity].
  destruct (bin2bn_q_ok w); [|reflexivity].
  cbn [negb orb]. cbv zeta. unfold BN_mod_inverse at 1.
  pose proof (even_exponent_not_invertible p q (e cfg) Hp Hodd Hq Hev).
  destruct (Z.eqb_spec (Z.gcd (e cfg)
              ((p - 1) * (q - 1) / Z.gcd (p - 1) (q - 1))) 1);
    [contradiction | reflexivity].
Qed.

(** [generate_rsa_keypair] returns [NULL], or what the construction
    makes of two primes that [z5d_nth_prime] returned, the second under
    the proximity guard against the first. *)
Lemma generate_rsa_keypair_cases (cfg : key_config_t)
      (malloc_ok : Z -> Z -> bool) (w : openssl_world) :
  generate_rsa_keypair stack prime_count_estimate nth_prime_estimate
    min_k_reached g_debug g_quiet cfg malloc_ok w = RSA_NULL
  \/ exists p q,
       (2 ^ 2047 <= p < 2 ^ 2048 /\ Z.odd p = true)
       /\ (2 ^ 2047 <= q < 2 ^ 2048 /\ Z.odd q = true)
       /\ (exists hint m,
              candidate_is_probable_prime p (Some (prime_cfg cfg)) hint m
              = true)
       /\ (exists hint m,
              candidate_is_probable_prime q (Some (prime_cfg cfg)) hint m
              = true)
       /\ p / 2 ^ 1948 <> q / 2 ^ 1948
       /\ generate_rsa_keypair stack prime_count_estimate nth_prime_estimate
            min_k_reached g_debug g_quiet cfg malloc_ok w
          = build_rsa_key p q cfg w.
Proof.
  unfold generate_rsa_keypair. cbv zeta.
  match goal with
  | |- context [z5d_nth_prime stack nth_prime_estimate min_k_reached
                  g_debug g_quiet ?k 0 cfg None false ?a ?b] =>
      pose proof (z5d_nth_prime_returns stack nth_prime_estimate
                    min_k_reached g_debug g_quiet k 0 cfg None false a b)
        as Hp;
      destruct (z5d_nth_prime stack nth_prime_estimate min_k_reached
                  g_debug g_quiet k 0 cfg None false a b) as [ret_p p]
  end.
  unfold when_returns_one in Hp. cbn [fst snd] in Hp.
  destruct (ret_p =? 0); [left; reflexivity|].
  match goal with
  | |- context [z5d_nth_prime stack nth_prime_estimate min_k_reached
                  g_debug g_quiet ?k 0 cfg (Some p) true ?a ?b] =>
      pose proof (z5d_nth_prime_returns stack nth_prime_estimate
                    min_k_reached g_debug g_quiet k 0 cfg (Some p) true a b)
        as Hq;
      destruct (z5d_nth_prime stack nth_prime_estimate min_k_reached
                  g_debug g_quiet k 0 cfg (Some p) true a b) as [ret_q q]
  end.
  unfold when_returns_one in Hq. cbn [fst snd] in Hq.
  destruct (ret_q =? 0); [left; reflexivity|].
  destruct Hp as (Hpr & Hpc & _). destruct Hq as (Hqr & Hqc & Hclose).
  apply not_too_close_distinct in Hclose.
  assert (Hne : p <> q) by (intro E; apply Hclose; rewrite E; reflexivity).
  rewrite retry_loop_skipped by exact Hne.
  destruct (Z.eqb_spec p q); [contradiction|].
  right. exists p, q. repeat split; try assumption; try tauto.
Qed.

End KeyPairFacts.

(** X20.  The retry loop of [generate_rsa_keypair] is dead code.  A prime that
    [z5d_nth_prime] returns under the proximity guard against [p] differs
    from [p] (even in its top 100 bits), so the loop that replaces a [q]
    equal to [p] is left at once, whatever its state. *)
Theorem retry_loop_never_runs :
  forall (stack : list byte)
         (prime_count_estimate nth_prime_estimate : double -> Z -> Z)
         (min_k_reached : Z -> bool) (g_debug g_quiet : bool)
         (k prime_out p : Z) (cfg : key_config_t) (mg mr : Z -> bool),
    when_returns_one
      (fun q =>
         p / 2 ^ 1948 <> q / 2 ^ 1948
         /\ forall (fuel : nat) (cfg' : key_config_t) (x_q retry_count : Z)
                   (malloc_ok : Z -> Z -> bool),
              retry_loop stack prime_count_estimate nth_prime_estimate
                min_k_reached g_debug g_quiet fuel cfg' x_q p q retry_count
                malloc_ok = Some q)
      (z5d_nth_prime stack nth_prime_estimate min_k_reached g_debug g_quiet
         k prime_out cfg (Some p) true mg mr).
Proof.
  intros stack pce est reached dbg quiet k prime_out p cfg mg mr.
  pose proof (z5d_nth_prime_returns stack est reached dbg quiet k prime_out
                cfg (Some p) true mg mr) as H.
  unfold when_returns_one in *.
  destruct (fst (z5d_nth_prime _ _ _ _ _ _ _ _ _ _ _ _) =? 0); [exact I|].
  destruct H as (_ & _ & Hclose). apply not_too_close_distinct in Hclose.
  split; [exact Hclose|]. intros fuel cfg' x_q rc m.
  apply retry_loop_skipped. intro E. apply Hclose.
  exact (f_equal (fun z => z / 2 ^ 1948) E).
Qed.

(** X21.  A key that [generate_rsa_keypair] returns with its parameters set.
    Its two factors are odd numbers of exactly 2048 bits that passed the
    primality check and differ in their top 100 bits; the modulus is their
    product, of 4095 or 4096 bits whatever [bits] asks for; the private
    exponent is the inverse of [e] modulo [lcm (p - 1) (q - 1)], and the
    CRT exponents are its residues. *)
Theorem generated_key_spec :
  forall (stack : list byte)
         (prime_count_estimate nth_prime_estimate : double -> Z -> Z)
         (min_k_reached : Z -> bool) (g_debug g_quiet : bool)
         (cfg : key_config_t) (malloc_ok : Z -> Z -> bool)
         (w : openssl_world),
    full_key_satisfies
      (fun key =>
         (2 ^ 2047 <= rsa_p key < 2 ^ 2048 /\ Z.odd (rsa_p key) = true)
         /\ (2 ^ 2047 <= rsa_q key < 2 ^ 2048 /\ Z.odd (rsa_q key) = true)
         /\ (exists hint m,
                candidate_is_probable_prime (rsa_p key)
                  (Some (prime_cfg cfg)) hint m = true)
         /\ (exists hint m,
                candidate_is_probable_prime (rsa_q key)
                  (Some (prime_cfg cfg)) hint m = true)
         /\ rsa_p key / 2 ^ 1948 <> rsa_q key / 2 ^ 1948
         /\ rsa_n key = rsa_p key * rsa_q key
         /\ 2 ^ 4094 <= rsa_n key < 2 ^ 4096
         /\ rsa_e key = e cfg
         /\ 0 <= rsa_d key < Z.lcm (rsa_p key - 1) (rsa_q key - 1)
         /\ (rsa_e key * rsa_d key)
              mod Z.lcm (rsa_p key - 1) (rsa_q key - 1) = 1
         /\ rsa_dmp1 key = rsa_d key mod (rsa_p key - 1)
         /\ rsa_dmq1 key = rsa_d key mod (rsa_q key - 1))
      (generate_rsa_keypair stack prime_count_estimate nth_prime_estimate
         min_k_reached g_debug g_quiet cfg malloc_ok w).
Proof.
  intros stack pce est reached dbg quiet cfg malloc_ok w.
  destruct (generate_rsa_keypair_cases stack pce est reached dbg quiet cfg
              malloc_ok w)
    as [->|(p & q & Hp & Hq & Hpc & Hqc & Hne & ->)]; [exact I|].
  destruct (build_rsa_key p q cfg w) as [| |key] eqn:E; try exact I.
  cbn [full_key_satisfies].
  assert (H2047 : 3 <= 2 ^ 2047) by lia.
  apply build_rsa_key_full in E; [|lia|lia]. cbv zeta in E.
  rewrite lambda_lcm in E by lia. destruct E as [Hg ->].
  cbn [rsa_p rsa_q rsa_n rsa_e rsa_d rsa_dmp1 rsa_dmq1].
  assert (HL : 2 <= Z.lcm (p - 1) (q - 1)) by (apply lcm_ge_2; lia).
  split; [exact Hp|]. split; [exact Hq|]. split; [exact Hpc|].
  split; [exact Hqc|]. split; [exact Hne|]. split; [reflexivity|].
  split.
  - replace 4094 with (2047 + 2047) by reflexivity.
    replace 4096 with (2048 + 2048) by reflexivity.
    rewrite !Z.pow_add_r by lia. apply product_bounds; tauto || lia.
  - split; [reflexivity|]. split.
    + rewrite <- Z.mod_invmod. apply Z.mod_pos_bound. lia.
    + split; [|split; reflexivity].
      rewrite Z.mul_comm. apply Z.invmod_coprime; assumption.
Qed.

(** X22.  An even public exponent never gives a key.  The construction then
    fails to invert [e] (the primes are odd, so [lcm (p - 1) (q - 1)] is
    even), and what [generate_rsa_keypair] returns is [NULL] or the
    [RSA] object without any parameter, which is not [NULL]. *)
Theorem even_exponent_gives_no_key :
  (forall (p q : Z) (cfg : key_config_t) (w : openssl_world),
      3 <= p -> Z.odd p = true -> 2 <= q -> Z.even (e cfg) = true ->
      build_rsa_key p q cfg w
      = if rsa_new_ok w then RSA_empty else RSA_NULL)
  /\ (forall (stack : list byte)
             (prime_count_estimate nth_prime_estimate : double -> Z -> Z)
             (min_k_reached : Z -> bool) (g_debug g_quiet : bool)
             (cfg : key_config_t) (malloc_ok : Z -> Z -> bool)
             (w : openssl_world),
         Z.even (e cfg) = true ->
         generate_rsa_keypair stack prime_count_estimate nth_prime_estimate
           min_k_reached g_debug g_quiet cfg malloc_ok w = RSA_NULL
         \/ (rsa_new_ok w = true
             /\ generate_rsa_keypair stack prime_count_estimate
                  nth_prime_estimate min_k_reached g_debug g_quiet cfg
                  malloc_ok w = RSA_empty)).
Proof.
  split; [exact build_rsa_key_even|].
  intros stack pce est reached dbg quiet cfg malloc_ok w Hev.
  destruct (generate_rsa_keypair_cases stack pce est reached dbg quiet cfg
              malloc_ok w)
    as [->|(p & q & Hp & Hq & _ & _ & _ & ->)]; [left; reflexivity|].
  assert (H2047 : 3 <= 2 ^ 2047) by lia.
  rewrite build_rsa_key_even by (tauto || lia).
  destruct (rsa_new_ok w); [right; split; reflexivity | left; reflexivity].
Qed.

Lemma even_exponent_gives_no_key_witness :
  build_rsa_key 61 53 (set_e unset_config 4) openssl_ok = RSA_empty
  /\ (generate_rsa_keypair [] (fun _ x => x) (fun _ k => k) (fun _ => true)
        false false (set_e unset_config 4) (fun _ _ => true) openssl_ok
      = RSA_NULL
      \/ (rsa_new_ok openssl_ok = true
          /\ generate_rsa_keypair [] (fun _ x => x) (fun _ k => k)
               (fun _ => true) false false (set_e unset_config 4)
               (fun _ _ => true) openssl_ok
             = RSA_empty)).
Proof.
  split.
  - apply (proj1 even_exponent_gives_no_key); [lia | | lia |]; reflexivity.
  - apply (proj2 even_exponent_gives_no_key). reflexivity.
Defined.

(* ================================================================== *)
(** * The command line *)

Section ParseFacts.

Variable atoi : list byte -> Z.
Variable strtoul : list byte -> Z.
Variable atof : list byte -> double.

Lemma parse_args_invariant (opts : list (byte * list byte)) :
  forall (cfg0 cfg : key_config_t) (d0 q0 g_debug g_quiet : bool),
    valid_config cfg ->
    prime_cfg cfg = prime_cfg cfg0 -> seed_hex cfg = seed_hex cfg0 ->
    (d0 = true -> g_debug = true) -> (q0 = true -> g_quiet = true) ->
    match parse_args atoi strtoul atof opts cfg g_debug g_quiet with
    | Returned ret cfg' g_debug' g_quiet' =>
        (ret = 0 \/ ret = -1)
        /\ prime_cfg cfg' = prime_cfg cfg0
        /\ seed_hex cfg' = seed_hex cfg0
        /\ (ret = 0 -> valid_config cfg')
        /\ (d0 = true -> g_debug' = true)
        /\ (q0 = true -> g_quiet' = true)
    | Exited status => status = 0
    end.
Proof.
  induction opts as [|[c optarg] rest IH];
    intros cfg0 cfg d0 q0 g_debug g_quiet Hv Hs Hh Hd Hq0.
  - cbn [parse_args]. auto 10.
  - cbn [parse_args]. destruct Hv as (Hb & Hp & Hq).
    cbv zeta. cbn [bits bump_p bump_q set_bits set_bump_p set_bump_q].
    repeat first
      [ match goal with
        | |- context [Byte.eqb c ?x] => destruct (Byte.eqb c x); cbn [orb]
        end
      | match goal with
        | |- context [?a <? ?b] => destruct (Z.ltb_spec a b); cbn [orb]
        end ];
      try reflexivity;
      try (apply IH; unfold valid_config; cbn; auto; lia);
      try (repeat split; auto; intro; discriminate).
Qed.

End ParseFacts.

(** X23.  [parse_args] keeps the configuration within limits and leaves the
    seed alone.  From a configuration with [bits] in [512, 8192] and
    non-negative bumps, a return value 0 comes with such a configuration;
    whatever it returns, the seed and its hexadecimal form are those it
    was given (no option sets them), a flag that was set stays set, and
    [--help] exits with status 0. *)
Theorem parse_args_keeps_limits :
  forall (atoi strtoul : list byte -> Z) (atof : list byte -> double)
         (opts : list (byte * list byte))
         (cfg : key_config_t) (g_debug g_quiet : bool),
    valid_config cfg ->
    match parse_args atoi strtoul atof opts cfg g_debug g_quiet with
    | Returned ret cfg' g_debug' g_quiet' =>
        (ret = 0 \/ ret = -1)
        /\ prime_cfg cfg' = prime_cfg cfg
        /\ seed_hex cfg' = seed_hex cfg
        /\ (ret = 0 -> valid_config cfg')
        /\ (g_debug = true -> g_debug' = true)
        /\ (g_quiet = true -> g_quiet' = true)
    | Exited status => status = 0
    end.
Proof.
  intros atoi strtoul atof opts cfg g_debug g_quiet Hv.
  apply parse_args_invariant; auto.
Qed.

Lemma parse_args_keeps_limits_witness :
  let cfg :=
    snd (init_config PrimFloat.one PrimFloat.two PrimFloat.zero
           unset_config good_world) in
  match parse_args (fun s => Z.of_nat (length s)) (fun _ => 3)
          (fun _ => PrimFloat.one)
          [(x50, [x31; x32]); (x65, [x33]); (x6b, [x31]); (x64, [])]
          cfg false true with
  | Returned ret cfg' g_debug' g_quiet' =>
      (ret = 0 \/ ret = -1)
      /\ prime_cfg cfg' = prime_cfg cfg
      /\ seed_hex cfg' = seed_hex cfg
      /\ (ret = 0 -> valid_config cfg')
      /\ (false = true -> g_debug' = true)
      /\ (true = true -> g_quiet' = true)
  | Exited status => status = 0
  end.
Proof.
  apply (parse_args_keeps_limits (fun s => Z.of_nat (length s)) (fun _ => 3)
           (fun _ => PrimFloat.one)
           [(x50, [x31; x32]); (x65, [x33]); (x6b, [x31]); (x64, [])]
           (snd (init_config PrimFloat.one PrimFloat.two PrimFloat.zero
                   unset_config good_world)) false true).
  unfold valid_config. vm_compute. repeat split; discriminate.
Defined.

(* ================================================================== *)
(** * The check when the candidate buffer cannot be allocated *)

Section AllocationFacts.

Lemma geodesic_witnesses_no_buffer (c : Z) (cfg : option config_t)
      (hint : Z) :
  geodesic_witnesses c cfg hint false = repeat 2 6.
Proof.
  unfold geodesic_witnesses, generate_geodesic_witnesses.
  cbn [Nat.eqb MR_GEODESIC_WITNESSES negb].
  destruct (_ <=? 1); reflexivity.
Qed.

Lemma standard_witnesses_head (c : Z) :
  3 <= c -> exists rest, standard_witnesses c = 2 :: rest.
Proof.
  intro Hc. rewrite standard_witnesses_eq.
  cbn [MR_STANDARD_BASES map]. eexists. f_equal.
  destruct (map_witness_into_range_cases c 2) as (_ & Hkeep & _ & Htiny).
  destruct (Z.eq_dec c 3) as [->|]; [apply Htiny; lia | apply Hkeep; lia].
Qed.

End AllocationFacts.

(** X24.  When the buffer for the bytes of the candidate cannot be allocated,
    the six seed-derived witnesses are all replaced by 2, and the check is
    the one of the eight fixed witnesses alone: the seed and the hint no
    longer play a part, and no error is reported. *)
Theorem check_without_allocation :
  forall (c : Z) (cfg : option config_t) (hint : Z),
    geodesic_witnesses c cfg hint false = [2; 2; 2; 2; 2; 2]
    /\ candidate_is_probable_prime c cfg hint false
       = if c <? 2 then false
         else if c =? 2 then true
         else if Z.even c then false
         else fixed_rounds_pass c.
Proof.
  intros c cfg hint. split; [apply geodesic_witnesses_no_buffer|].
  unfold candidate_is_probable_prime.
  destruct (Z.ltb_spec c 2); [reflexivity|].
  destruct (Z.eqb_spec c 2); [reflexivity|].
  destruct (Z.even c); [reflexivity|]. cbv zeta.
  rewrite geodesic_witnesses_no_buffer. unfold fixed_rounds_pass.
  destruct (standard_witnesses_head c ltac:(lia)) as [rest ->].
  cbn [repeat forallb].
  destruct (miller_rabin_round (mr_context_init c) 2); cbn [andb negb];
    [|reflexivity].
  destruct (forallb _ rest); reflexivity.
Qed.

(* ================================================================== *)
(** * From GMP to OpenSSL numbers *)

(** X25.  The conversion of a prime from GMP to OpenSSL loses nothing: the
    bytes exported from a non-negative number, of which there is at least
    one and no more than the size in bits requires, are read back by
    [BN_bin2bn] as that number. *)
Theorem bignum_conversion_exact :
  forall p : Z,
    0 <= p ->
    BN_bin2bn (export_bytes p) = p
    /\ Z.of_nat (length (export_bytes p))
       = Z.max 1 ((mpz_sizeinbase2 p + 7) / 8).
Proof.
  intros p Hp. split; [apply export_bytes_value, Hp|].
  unfold export_bytes, mpz_export, mpz_sizeinbase2.
  destruct (Z.eqb_spec p 0) as [->|Hne]; [reflexivity|].
  rewrite be_split_length.
  assert (H : 1 <= (Z.log2 (Z.abs p) + 1 + 7) / 8).
  { pose proof (Z.log2_nonneg (Z.abs p)).
    apply Z.div_le_lower_bound; lia. }
  destruct (Nat.eqb_spec (Z.to_nat ((Z.log2 (Z.abs p) + 1 + 7) / 8)) 0)
    as [E|E]; [lia|].
  rewrite be_split_length. lia.
Qed.

Lemma bignum_conversion_exact_witness :
  BN_bin2bn (export_bytes 65537) = 65537
  /\ Z.of_nat (length (export_bytes 65537))
     = Z.max 1 ((mpz_sizeinbase2 65537 + 7) / 8).
Proof.
  apply bignum_conversion_exact. lia.
Defined.

(* ================================================================== *)
(** * The fallback search under the proximity guard *)

Section FallbackFacts.

Variable max_attempts : Z.
Variable cfg : option config_t.
Variable hint_seed : Z.
Variable malloc_ok : Z -> bool.

Lemma testbit_below (x k : Z) :
  0 <= k -> 0 <= x < 2 ^ k -> Z.testbit x k = false.
Proof.
  intros Hk Hx. destruct (Z.eq_dec x 0) as [->|Hne]; [apply Z.bits_0|].
  apply Z.bits_above_log2; [lia|]. apply Z.log2_lt_pow2; lia.
Qed.

(** Candidates that all lie in the block of the reference, below
    [2^2048], are all skipped. *)
Lemma search_loop_block (R : Z) (clamp : bool) (iters : nat) :
  forall attempt cand,
    0 <= cand ->
    (forall j, 0 <= j < Z.of_nat iters ->
               (cand + 2 * j) / 2 ^ 1948 = R / 2 ^ 1948) ->
    cand + 2 * Z.of_nat iters < 2 ^ 2048 + 2 ->
    search_loop max_attempts cfg hint_seed 2048 clamp (Some R) true
      malloc_ok iters attempt cand = NotFound max_attempts.
Proof.
  induction iters as [|iters IH]; intros attempt cand Hc Hblock Hlim;
    [reflexivity|].
  assert (Hclose : not_too_close (Some R) true cand = false).
  { unfold not_too_close. cbn [negb orb].
    assert (E : x931_too_close_2048 R cand = true).
    { apply x931_too_close_iff. symmetry.
      specialize (Hblock 0 ltac:(lia)). rewrite Z.mul_0_r, Z.add_0_r in Hblock.
      exact Hblock. }
    rewrite E. reflexivity. }
  rewrite search_loop_skip by (rewrite Hclose; apply andb_false_r).
  cbn [Z.ltb Z.compare andb].
  destruct iters as [|iters'].
  { destruct (Z.testbit (cand + 2) 2048); [destruct clamp|]; reflexivity. }
  rewrite testbit_below by lia.
  apply IH; [lia | | lia].
  intros j Hj. replace (cand + 2 + 2 * j) with (cand + 2 * (j + 1)) by lia.
  apply Hblock. lia.
Qed.

End FallbackFacts.

(** X26.  The fallback search cannot deliver both primes.  Its origin depends
    on the seed and the two bumps only, so it is the same for [p] and for
    [q]; when the 10000 candidates from it lie in one block of [2^1948]
    numbers and the reference is in that block, as a [p] found by the
    fallback search is, the proximity guard rejects every candidate: the
    search finds nothing and [z5d_nth_prime], unless its guided search
    succeeds, returns 0. *)
Theorem fallback_blocked_by_reference :
  forall (stack : list byte) (nth_prime_estimate : double -> Z -> Z)
         (min_k_reached : Z -> bool) (g_debug g_quiet : bool)
         (k prime_out R : Z) (cfg : key_config_t) (mg mr : Z -> bool),
    fallback_candidate stack cfg / 2 ^ 1948
    = (fallback_candidate stack cfg + 2 * (MAX_PRIME_ATTEMPTS - 1))
        / 2 ^ 1948 ->
    R / 2 ^ 1948 = fallback_candidate stack cfg / 2 ^ 1948 ->
    search_prime_candidates (fallback_candidate stack cfg)
      MAX_PRIME_ATTEMPTS (Some (prime_cfg cfg)) 0 2048 true (Some R) true mr
    = NotFound MAX_PRIME_ATTEMPTS
    /\ (min_k_reached k = false ->
        fst (z5d_nth_prime stack nth_prime_estimate min_k_reached g_debug
               g_quiet k prime_out cfg (Some R) true mg mr) = 0).
Proof.
  intros stack est reached dbg quiet k prime_out R cfg mg mr Hwin HR.
  destruct (fallback_candidate_range stack cfg) as [Hr _].
  set (c := fallback_candidate stack cfg) in *.
  assert (Hsearch :
    search_prime_candidates c MAX_PRIME_ATTEMPTS (Some (prime_cfg cfg)) 0
      2048 true (Some R) true mr = NotFound MAX_PRIME_ATTEMPTS).
  { unfold search_prime_candidates.
    change (MAX_PRIME_ATTEMPTS =? 0) with false. cbv iota.
    assert (Hblock : forall j, 0 <= j < MAX_PRIME_ATTEMPTS ->
                               (c + 2 * j) / 2 ^ 1948 = R / 2 ^ 1948).
    { intros j Hj. rewrite HR. apply Z.le_antisymm.
      - rewrite Hwin. apply Z.div_le_mono; lia.
      - apply Z.div_le_mono; lia. }
    apply search_loop_block; [lia | | ].
    - intros j Hj. apply Hblock. unfold MAX_PRIME_ATTEMPTS in *. lia.
    - (* the last candidate lies in the block of the origin *)
      assert (Hlast : (c + 2 * (MAX_PRIME_ATTEMPTS - 1)) / 2 ^ 1948
                      < 2 ^ 100).
      { rewrite <- Hwin. apply Z.div_lt_upper_bound; [lia|].
        rewrite <- Z.pow_add_r by lia. exact (proj2 Hr). }
      assert (Hlt : c + 2 * (MAX_PRIME_ATTEMPTS - 1) < 2 ^ 1948 * 2 ^ 100).
      { pose proof (Z.div_mod (c + 2 * (MAX_PRIME_ATTEMPTS - 1)) (2 ^ 1948)
                      ltac:(lia)) as Hdm.
        pose proof (Z.mod_pos_bound (c + 2 * (MAX_PRIME_ATTEMPTS - 1))
                      (2 ^ 1948) ltac:(lia)) as Hmb.
        remember ((c + 2 * (MAX_PRIME_ATTEMPTS - 1)) / 2 ^ 1948) as qq.
        remember ((c + 2 * (MAX_PRIME_ATTEMPTS - 1)) mod 2 ^ 1948) as rr.
        remember (2 ^ 1948) as B. remember (2 ^ 100) as T.
        nia. }
      rewrite <- Z.pow_add_r in Hlt by lia.
      change (1948 + 100) with 2048 in Hlt.
      unfold MAX_PRIME_ATTEMPTS in *.
      change (Z.of_nat (Z.to_nat 10000)) with 10000. lia. }
  split; [exact Hsearch|].
  intro Hk. unfold z5d_nth_prime. rewrite Hk. fold c. rewrite Hsearch.
  reflexivity.
Qed.

Lemma fallback_blocked_by_reference_witness :
  search_prime_candidates (fallback_candidate [] unset_config)
    MAX_PRIME_ATTEMPTS (Some (prime_cfg unset_config)) 0 2048 true
    (Some (fallback_candidate [] unset_config + 4)) true (fun _ => true)
  = NotFound MAX_PRIME_ATTEMPTS
  /\ ((fun _ : Z => false) 5 = false ->
      fst (z5d_nth_prime [] (fun _ k => k) (fun _ => false) false false 5 0
             unset_config (Some (fallback_candidate [] unset_config + 4))
             true (fun _ => true) (fun _ => true)) = 0).
Proof.
  apply (fallback_blocked_by_reference [] (fun _ k => k) (fun _ => false)
           false false 5 0 (fallback_candidate [] unset_config + 4)
           unset_config (fun _ => true) (fun _ => true)).
  - vm_compute. reflexivity.
  - vm_compute. reflexivity.
Defined.

(* ================================================================== *)
(** * The seed test program *)

Section SeedTestFacts.

Lemma bytes_eqb_eq (a b : list byte) : bytes_eqb a b = true <-> a = b.
Proof.
  unfold bytes_eqb. destruct (list_eq_dec Byte.byte_eq_dec a b);
    split; intro H; congruence.
Qed.

(** The hexadecimal form determines the bytes. *)
Lemma hex_pairs_injective (S1 S2 : list byte) :
  length S1 = length S2 ->
  flat_map hex_pair S1 = flat_map hex_pair S2 -> S1 = S2.
Proof.
  intros Hlen Heq.
  pose proof (hex_to_seed_loop_spec S1 [] [] (zeros (length S1)) []
                eq_refl) as H1.
  pose proof (hex_to_seed_loop_spec S2 [] [] (zeros (length S2)) []
                eq_refl) as H2.
  unfold zeros in *. rewrite repeat_length in H1, H2.
  specialize (H1 (Nat.le_refl _)). specialize (H2 (Nat.le_refl _)).
  cbn [app length] in H1, H2. rewrite Heq, Hlen in H1.
  rewrite H1 in H2. inversion H2 as [E].
  rewrite !skipn_all2, !app_nil_r in E by (rewrite repeat_length; lia).
  exact E.
Qed.

Lemma Some_eq {A} (a b : A) : Some a = Some b -> a = b.
Proof. intro H. inversion H. reflexivity. Qed.

(** A successful call leaves a full seed in a 32-byte buffer. *)
Lemma z_generate_seed_ok_length (buf buf' : list byte) (w : os_world) :
  length buf = 32%nat ->
  z_generate_seed (Some buf) w = (ZSEED_OK, Some buf') ->
  length buf' = 32%nat.
Proof.
  intros Hbuf.
  destruct (z_generate_seed_cases buf w)
    as [(Hfd & ->)
       |[(Ho & Hd & ->)
        |[(l & Ho & Hd & Hl & ->)
         |[(l & Ho & Hd & Hl & Hm & ->)
          |(l & Ho & Hd & Hl & Hm & ->)]]]];
    intro E; apply pair_equal_spec in E; destruct E as [Erc E];
    try discriminate Erc.
  apply Some_eq in E. subst buf'.
  rewrite length_app, length_skipn, xor_bytes_length;
    rewrite length_firstn; [| rewrite SHA256_length];
    unfold SEED_SIZE, SHA256_DIGEST_LENGTH in *; lia.
Qed.

Lemma z_generate_seed_buffer (buf : list byte) (w : os_world) :
  exists rc buf', z_generate_seed (Some buf) w = (rc, Some buf').
Proof.
  destruct (z_generate_seed_cases buf w)
    as [(Hfd & ->)
       |[(Ho & Hd & ->)
        |[(l & Ho & Hd & Hl & ->)
         |[(l & Ho & Hd & Hl & Hm & ->)
          |(l & Ho & Hd & Hl & Hm & ->)]]]]; do 2 eexists; reflexivity.
Qed.

(** The two assertions on the hexadecimal strings of different seeds. *)
Lemma hex_assertions (S1 S2 hex1 hex2 : list byte) :
  length S1 = 32%nat -> length S2 = 32%nat ->
  (65 <= length hex1)%nat -> (65 <= length hex2)%nat ->
  S1 <> S2 ->
  (strlen (z_seed_to_hex S1 hex1) =? SEED_SIZE * 2)%nat = true
  /\ strcmp_differs (z_seed_to_hex S1 hex1) (z_seed_to_hex S2 hex2) = true.
Proof.
  intros L1 L2 Hh1 Hh2 Hne.
  rewrite (z_seed_to_hex_spec S1 hex1 L1 Hh1).
  rewrite (z_seed_to_hex_spec S2 hex2 L2 Hh2).
  rewrite strlen_c_string, c_string_digits, flat_map_hex_pair_length, L1.
  split; [reflexivity|].
  unfold strcmp_differs. rewrite !c_string_digits.
  destruct (bytes_eqb (flat_map hex_pair S1) (flat_map hex_pair S2)) eqn:Eh;
    [|reflexivity].
  apply bytes_eqb_eq in Eh. apply hex_pairs_injective in Eh; [|lia].
  contradiction.
Qed.

End SeedTestFacts.

(** X27.  The test program can only stop at one of its first three
    assertions.  It passes exactly when both calls of [z_generate_seed]
    succeed and leave different seeds: the length of the hexadecimal
    string is then 64, and different seeds have different hexadecimal
    strings, so the last two assertions hold. *)
Theorem test_seed_assertions :
  forall (seed1 seed2 hex1 hex2 : list byte) (w1 w2 : os_world),
    length seed1 = 32%nat -> length seed2 = 32%nat ->
    (65 <= length hex1)%nat -> (65 <= length hex2)%nat ->
    (test_seed_main seed1 seed2 hex1 hex2 w1 w2 = Passed
     \/ test_seed_main seed1 seed2 hex1 hex2 w1 w2 = AssertionFailed 1
     \/ test_seed_main seed1 seed2 hex1 hex2 w1 w2 = AssertionFailed 2
     \/ test_seed_main seed1 seed2 hex1 hex2 w1 w2 = AssertionFailed 3)
    /\ (test_seed_main seed1 seed2 hex1 hex2 w1 w2 = Passed <->
        fst (z_generate_seed (Some seed1) w1) = ZSEED_OK
        /\ fst (z_generate_seed (Some seed2) w2) = ZSEED_OK
        /\ snd (z_generate_seed (Some seed1) w1)
           <> snd (z_generate_seed (Some seed2) w2)).
Proof.
  intros seed1 seed2 hex1 hex2 w1 w2 H1 H2 Hh1 Hh2.
  unfold test_seed_main.
  destruct (z_generate_seed_buffer seed1 w1) as (rc1 & S1 & E1).
  destruct (z_generate_seed_buffer seed2 w2) as (rc2 & S2 & E2).
  rewrite E1, E2. cbn [fst snd].
  destruct (Z.eqb_spec rc1 ZSEED_OK) as [->|N1]; cbn [negb].
  2:{ split; [auto|]. split; [discriminate | tauto]. }
  destruct (Z.eqb_spec rc2 ZSEED_OK) as [->|N2]; cbn [negb].
  2:{ split; [auto|]. split; [discriminate | tauto]. }
  pose proof (z_generate_seed_ok_length _ _ _ H1 E1) as L1.
  pose proof (z_generate_seed_ok_length _ _ _ H2 E2) as L2.
  unfold memcmp_differs.
  rewrite !firstn_all2 by (unfold SEED_SIZE; lia).
  destruct (bytes_eqb S1 S2) eqn:Eb; cbn [negb].
  { apply bytes_eqb_eq in Eb. subst S2. split; [auto|].
    split; [discriminate | tauto]. }
  assert (Hne : S1 <> S2).
  { intro E. apply bytes_eqb_eq in E. congruence. }
  destruct (hex_assertions S1 S2 hex1 hex2 L1 L2 Hh1 Hh2 Hne) as [-> ->].
  cbn [negb]. split; [auto|]. split; [|reflexivity].
  intros _. repeat split; try reflexivity. congruence.
Qed.

Lemma test_seed_assertions_witness :
  (test_seed_main (zeros 32) (zeros 32) (zeros 65) (zeros 65) good_world
     other_good_world = Passed
   \/ test_seed_main (zeros 32) (zeros 32) (zeros 65) (zeros 65) good_world
        other_good_world = AssertionFailed 1
   \/ test_seed_main (zeros 32) (zeros 32) (zeros 65) (zeros 65) good_world
        other_good_world = AssertionFailed 2
   \/ test_seed_main (zeros 32) (zeros 32) (zeros 65) (zeros 65) good_world
        other_good_world = AssertionFailed 3)
  /\ (test_seed_main (zeros 32) (zeros 32) (zeros 65) (zeros 65) good_world
        other_good_world = Passed <->
      fst (z_generate_seed (Some (zeros 32)) good_world) = ZSEED_OK
      /\ fst (z_generate_seed (Some (zeros 32)) other_good_world)
         = ZSEED_OK
      /\ snd (z_generate_seed (Some (zeros 32)) good_world)
         <> snd (z_generate_seed (Some (zeros 32)) other_good_world)).
Proof.
  apply test_seed_assertions; [reflexivity | reflexivity | | ];
    simpl; lia.
Defined.

(* ================================================================== *)
(** * What key generation reads of the configuration *)

Section FrameFacts.

Variable stack : list byte.
Variable prime_count_estimate : double -> Z -> Z.
Variable nth_prime_estimate : double -> Z -> Z.
Variable min_k_reached : Z -> bool.
Variable g_debug : bool.
Variable g_quiet : bool.

(** Two configurations with the same seed, exponent, [kappa_star] and
    bumps. *)
Let same_inputs (cfg cfg' : key_config_t) : Prop :=
  prime_cfg cfg = prime_cfg cfg' /\ e cfg = e cfg'
  /\ kappa_star cfg = kappa_star cfg'
  /\ bump_p cfg = bump_p cfg' /\ bump_q cfg = bump_q cfg'.

Lemma fallback_candidate_frame (cfg cfg' : key_config_t) :
  same_inputs cfg cfg' ->
  fallback_candidate stack cfg = fallback_candidate stack cfg'.
Proof.
  intros (Hs & _ & _ & Hp & Hq). unfold fallback_candidate, prime_tag_text.
  rewrite Hs, Hp, Hq. reflexivity.
Qed.

Lemma z5d_nth_prime_frame (cfg cfg' : key_config_t) (k prime_out : Z)
      (ref : option Z) (enforce : bool) (mg mr : Z -> bool) :
  same_inputs cfg cfg' ->
  z5d_nth_prime stack nth_prime_estimate min_k_reached g_debug g_quiet k
    prime_out cfg ref enforce mg mr
  = z5d_nth_prime stack nth_prime_estimate min_k_reached g_debug g_quiet k
      prime_out cfg' ref enforce mg mr.
Proof.
  intro H. unfold z5d_nth_prime, search_start.
  rewrite (fallback_candidate_frame cfg cfg' H).
  destruct H as (Hs & _ & Hk & _). rewrite Hs, Hk. reflexivity.
Qed.

Lemma retry_loop_frame (fuel : nat) :
  forall (cfg cfg' : key_config_t) (x_q p q retry_count : Z)
         (malloc_ok : Z -> Z -> bool),
    same_inputs cfg cfg' ->
    retry_loop stack prime_count_estimate nth_prime_estimate min_k_reached
      g_debug g_quiet fuel cfg x_q p q retry_count malloc_ok
    = retry_loop stack prime_count_estimate nth_prime_estimate min_k_reached
        g_debug g_quiet fuel cfg' x_q p q retry_count malloc_ok.
Proof.
  induction fuel as [|fuel IH]; intros cfg cfg' x_q p q rc m H;
    [reflexivity|].
  cbn [retry_loop]. destruct ((p =? q) && (rc <? MAX_RETRIES));
    [|reflexivity].
  cbv zeta. pose proof H as (Hs & He & Hk & Hp & Hq).
  rewrite (z5d_nth_prime_frame
             (set_bump_q cfg (bump_q cfg + rc + 2))
             (set_bump_q cfg' (bump_q cfg' + rc + 2)))
    by (unfold same_inputs; cbn; rewrite Hq; auto 6).
  cbn [bump_q set_bump_q]. unfold z5d_prime_count. rewrite Hq, Hk.
  destruct (z5d_nth_prime _ _ _ _ _ _ _ _ _ _ _ _) as [ret q'].
  destruct (ret =? 0); [reflexivity|]. apply IH, H.
Qed.

Lemma build_rsa_key_frame (cfg cfg' : key_config_t) (p q : Z)
      (w : openssl_world) :
  same_inputs cfg cfg' ->
  build_rsa_key p q cfg w = build_rsa_key p q cfg' w.
Proof.
  intros (_ & He & _). unfold build_rsa_key. rewrite He. reflexivity.
Qed.

Lemma generate_rsa_keypair_frame (cfg cfg' : key_config_t)
      (malloc_ok : Z -> Z -> bool) (w : openssl_world) :
  same_inputs cfg cfg' ->
  generate_rsa_keypair stack prime_count_estimate nth_prime_estimate
    min_k_reached g_debug g_quiet cfg malloc_ok w
  = generate_rsa_keypair stack prime_count_estimate nth_prime_estimate
      min_k_reached g_debug g_quiet cfg' malloc_ok w.
Proof.
  intro H. pose proof H as (Hs & He & Hk & Hp & Hq).
  unfold generate_rsa_keypair, z5d_prime_count. cbv zeta.
  rewrite Hs, Hk, Hp, Hq.
  rewrite (z5d_nth_prime_frame cfg cfg' _ _ None false _ _ H).
  destruct (z5d_nth_prime _ _ _ _ _ _ _ cfg' None _ _ _) as [ret_p p].
  destruct (ret_p =? 0); [reflexivity|].
  rewrite (z5d_nth_prime_frame cfg cfg' _ _ (Some p) true _ _ H).
  destruct (z5d_nth_prime _ _ _ _ _ _ _ cfg' (Some p) _ _ _) as [ret_q q].
  destruct (ret_q =? 0); [reflexivity|].
  rewrite (retry_loop_frame _ cfg cfg' _ _ _ _ _ H).
  destruct (retry_loop _ _ _ _ _ _ _ _ _ _ _ _ _) as [q'|]; [|reflexivity].
  destruct (p =? q'); [reflexivity|]. apply build_rsa_key_frame, H.
Qed.

End FrameFacts.

(** X28.  What [generate_rsa_keypair] (with the sequential search) reads of
    the configuration: the seed, the exponent, [kappa_star] (which the two
    estimates use) and the two bumps.  Two configurations that agree on
    these give the same result: the key size asked for with [--bits], the
    validity, the hexadecimal form of the seed, [kappa_geo] and [phi] have
    no influence on it. *)
Theorem bits_option_ignored :
  forall (stack : list byte)
         (prime_count_estimate nth_prime_estimate : double -> Z -> Z)
         (min_k_reached : Z -> bool) (g_debug g_quiet : bool)
         (cfg cfg' : key_config_t) (malloc_ok : Z -> Z -> bool)
         (w : openssl_world),
    prime_cfg cfg = prime_cfg cfg' -> e cfg = e cfg' ->
    kappa_star cfg = kappa_star cfg' ->
    bump_p cfg = bump_p cfg' -> bump_q cfg = bump_q cfg' ->
    generate_rsa_keypair stack prime_count_estimate nth_prime_estimate
      min_k_reached g_debug g_quiet cfg malloc_ok w
    = generate_rsa_keypair stack prime_count_estimate nth_prime_estimate
        min_k_reached g_debug g_quiet cfg' malloc_ok w.
Proof.
  intros stack pce est reached dbg quiet cfg cfg' malloc_ok w Hs He Hk Hp
    Hq.
  apply generate_rsa_keypair_frame. repeat split; assumption.
Qed.

Lemma bits_option_ignored_witness :
  let cfg :=
    snd (init_config PrimFloat.one PrimFloat.two PrimFloat.zero
           unset_config good_world) in
  generate_rsa_keypair [] (fun _ x => x) (fun _ k => k) (fun _ => true)
    false false (set_phi (set_bits cfg 512) PrimFloat.two)
    (fun _ _ => true) openssl_ok
  = generate_rsa_keypair [] (fun _ x => x) (fun _ k => k) (fun _ => true)
      false false cfg (fun _ _ => true) openssl_ok.
Proof.
  apply bits_option_ignored; reflexivity.
Defined.

(* ================================================================== *)
(** * Further properties of the witnesses *)

(** X29.  Mapping a witness into range is idempotent: a witness that has
    been mapped for a candidate is left as it is by a second mapping for
    the same candidate. *)
Theorem map_witness_into_range_idempotent :
  forall c w : Z,
    map_witness_into_range (mr_context_init c)
      (map_witness_into_range (mr_context_init c) w)
    = map_witness_into_range (mr_context_init c) w.
Proof.
  intros c w.
  destruct (Z.le_gt_cases c 4) as [Hsmall|Hbig].
  - assert (H2 : forall z, 2 <= z ->
                           map_witness_into_range (mr_context_init c) z = 2
                           \/ (c = 4 /\ z = 2)).
    { intros z Hz. unfold map_witness_into_range, mr_context_init.
      cbn [n_minus_1 n_minus_3].
      destruct (Z.ltb_spec z 2); [lia|].
      destruct (Z.leb_spec (c - 1) z).
      - destruct (Z.ltb_spec 3 c);
          [destruct (Z.leb_spec (c - 3) 1); [auto|lia] | auto].
      - right. lia. }
    assert (Hr : map_witness_into_range (mr_context_init c) w = 2).
    { unfold map_witness_into_range, mr_context_init.
      cbn [n_minus_1 n_minus_3].
      destruct (Z.ltb_spec w 2); [reflexivity|].
      destruct (Z.leb_spec (c - 1) w).
      - destruct (Z.ltb_spec 3 c);
          [destruct (Z.leb_spec (c - 3) 1); [reflexivity|lia] | reflexivity].
      - lia. }
    rewrite Hr. destruct (H2 2 ltac:(lia)) as [E|[-> _]]; [exact E|].
    reflexivity.
  - pose proof (map_witness_into_range_bounds c w Hbig) as Hb.
    destruct (map_witness_into_range_cases c
                (map_witness_into_range (mr_context_init c) w))
      as (_ & Hkeep & _). apply Hkeep. lia.
Qed.

(** X30.  Without the candidate buffer the check is not exact: the composite
    [341550071728321 = 10670053 * 32010157] passes every round of the
    eight fixed witnesses, so when the allocation fails the check accepts
    it for every seed and every hint. *)
Theorem composite_accepted_without_allocation :
  341550071728321 = 10670053 * 32010157
  /\ forall (cfg : option config_t) (hint : Z),
       candidate_is_probable_prime 341550071728321 cfg hint false = true.
Proof.
  split; [reflexivity|]. intros cfg hint.
  rewrite candidate_is_probable_prime_odd by (lia || reflexivity).
  rewrite geodesic_witnesses_no_buffer. vm_compute. reflexivity.
Qed.
